(** * In-memory caches of go-utils: FIFO, LRU, LFU and Timed (TTL)

    A shallow embedding of the [cache] package
      - [src/cache/fifo_cache.go]  (FIFO over [container/list], FIFO over a
        slice, LRU over [container/list]; the lock-guarded and the plain LRU
        differ only in the mutex, which a sequential model does not see),
      - [src/cache/lfu_cache.go]   (LFU with per-frequency lists),
      - [src/cache/timed_cache.go] (TTL cache over [container/heap]),
    followed by the properties stated for it. The repository also holds a
    lock-guarded TTL cache that removes the old heap record on update and
    keeps a map from keys to heap records; it is another design and is not
    modelled here.

    Conventions.
      - A Go [map[K]T] is a [gmap K T]; [len(m)] is [size m].
      - [(value, exists)] results are [option V]: [None] is the pair of the
        zero value and [false].
      - [(cache, error)] results of constructors are a sum.
      - A [*list.Element] is a natural number, allocated fresh by
        [PushBack]/[PushFront]; the elements' payloads live in a store, so a
        payload can be read and written through the pointer as in Go.
      - A panic (index out of range, nil dereference) is [None].
      - [time.Now().UnixNano()] is an explicit argument, one per call in
        the source, in source order; sums of instants and durations wrap
        around as [int64] values do. *)

From stdpp Require Import gmap list sorting.
From Stdlib Require Import ZArith Lia.

Local Open Scope Z_scope.

(* [naive_solver] clears hypotheses that are sometimes already gone. *)
Local Set Warnings "-clear-no-such-hyp".

(** Go's [int] on 64-bit platforms. *)
Definition int_min : Z := - 2 ^ 63.
Definition int_max : Z := 2 ^ 63 - 1.
Definition wrap_int (x : Z) : Z := (x + 2 ^ 63) mod 2 ^ 64 - 2 ^ 63.

(** [x++] on an [int]. *)
Definition int_incr (x : Z) : Z := wrap_int (x + 1).

(** The errors built with [errors.New] by the constructors. Both FIFO
    messages (one of them in Chinese) say that the capacity must be positive. *)
Inductive error : Set :=
  | capacity_must_be_positive
  | default_TTL_must_be_positive.

(** ** [container/list] *)
Module CList.
Section defs.
Context {A : Type}.

(** [order]: the elements from front to back; [elems]: the payload of
    every element ever allocated; [fresh]: the next element to allocate. *)
Record List : Type := mkList {
  order : list nat;
  elems : gmap nat A;
  fresh : nat
}.

Definition New : List := mkList [] ∅ 0%nat.

(** [l.Init()] empties the chain. The elements of the old chain stay in
    memory; the caches below drop every pointer to them in the same
    [Clear]. *)
Definition Init (l : List) : List := mkList [] (elems l) (fresh l).

Definition Len (l : List) : Z := Z.of_nat (length (order l)).
Definition Front (l : List) : option nat := head (order l).
Definition Back (l : List) : option nat := last (order l).

(** [e.Value] *)
Definition Value (l : List) (e : nat) : option A := elems l !! e.

(** [e.Value = v], or a write through a pointer held in [e.Value]. *)
Definition SetValue (e : nat) (v : A) (l : List) : List :=
  mkList (order l) (<[e := v]> (elems l)) (fresh l).

Definition PushBack (v : A) (l : List) : nat * List :=
  (fresh l, mkList (order l ++ [fresh l]) (<[fresh l := v]> (elems l)) (S (fresh l))).

Definition PushFront (v : A) (l : List) : nat * List :=
  (fresh l, mkList (fresh l :: order l) (<[fresh l := v]> (elems l)) (S (fresh l))).

(** [l.Remove(e)]: nothing happens unless [e] is an element of [l]. *)
Definition Remove (e : nat) (l : List) : List :=
  mkList (filter (λ x, x ≠ e) (order l)) (elems l) (fresh l).

(** [l.MoveToFront(e)]: nothing happens unless [e] is an element of [l]
    other than its front. *)
Definition MoveToFront (e : nat) (l : List) : List :=
  if decide (e ∈ order l) then
    if decide (Front l = Some e) then l
    else mkList (e :: filter (λ x, x ≠ e) (order l)) (elems l) (fresh l)
  else l.
End defs.
Global Arguments List : clear implicits.
End CList.

(** ** FIFO cache over [container/list] (fifo_cache.go, first variant) *)
Module FIFO.
Section defs.
Context `{Countable K} {V : Type}.

Record cacheEntry : Type := mkEntry { value : V; node : nat }.

Record FIFOCache : Type := mkFIFO {
  cache : gmap K cacheEntry;
  queue : CList.List K;
  capacity : Z;
  concurrentSafe : bool
}.

Record fifoCacheOptions : Type := mkOpts { opt_concurrentSafe : bool }.
Definition Option : Type := fifoCacheOptions → fifoCacheOptions.
Definition WithConcurrentSafe (b : bool) : Option := λ _, mkOpts b.

Definition NewFIFOCache (capacity : Z) (options : list Option) : FIFOCache + error :=
  if decide (capacity ≤ 0) then inr capacity_must_be_positive
  else
    let opts := foldl (λ o opt, opt o) (mkOpts true) options in
    inl (mkFIFO ∅ CList.New capacity (opt_concurrentSafe opts)).

Definition Get (key : K) (f : FIFOCache) : option V :=
  value <$> cache f !! key.

(** The overflow branch of [Set]: at capacity, the front element of the
    queue goes, with the key it carries. *)
Definition overflow (f : FIFOCache) : gmap K cacheEntry * CList.List K :=
  if decide (capacity f ≤ CList.Len (queue f)) then
    match CList.Front (queue f) with
    | Some front =>
        match CList.Value (queue f) front with
        | Some oldKey => (delete oldKey (cache f), CList.Remove front (queue f))
        | None => (cache f, queue f) (* not reached: an element has a payload *)
        end
    | None => (cache f, queue f)
    end
  else (cache f, queue f).

Definition Set_ (key : K) (v : V) (f : FIFOCache) : FIFOCache :=
  match cache f !! key with
  | Some entry =>
      mkFIFO (<[key := mkEntry v (node entry)]> (cache f)) (queue f)
             (capacity f) (concurrentSafe f)
  | None =>
      let '(c, q) := overflow f in
      let '(nd, q') := CList.PushBack key q in
      mkFIFO (<[key := mkEntry v nd]> c) q' (capacity f) (concurrentSafe f)
  end.

Definition Delete (key : K) (f : FIFOCache) : bool * FIFOCache :=
  match cache f !! key with
  | None => (false, f)
  | Some entry =>
      (true, mkFIFO (delete key (cache f)) (CList.Remove (node entry) (queue f))
                    (capacity f) (concurrentSafe f))
  end.

Definition Len (f : FIFOCache) : Z := CList.Len (queue f).

Definition Clear (f : FIFOCache) : FIFOCache :=
  mkFIFO ∅ (CList.Init (queue f)) (capacity f) (concurrentSafe f).

(** The keys of the insertion queue, head first. *)
Definition keys (f : FIFOCache) : list K :=
  omap (CList.Value (queue f)) (CList.order (queue f)).

Inductive op : Type :=
  | OGet (key : K) | OSet (key : K) (v : V) | ODelete (key : K) | OLen | OClear.

Definition step (f : FIFOCache) (o : op) : FIFOCache :=
  match o with
  | OGet _ | OLen => f
  | OSet k v => Set_ k v f
  | ODelete k => (Delete k f).2
  | OClear => Clear f
  end.

Definition run (ops : list op) (f : FIFOCache) : FIFOCache := foldl step f ops.
End defs.
Global Arguments FIFOCache K {_ _} V.
Global Arguments op : clear implicits.
End FIFO.

(** ** FIFO cache over a slice (fifo_cache.go, second variant) *)
Module FIFOSlice.
Section defs.
Context `{Countable K} {V : Type}.

Record FIFOCache : Type := mkFIFO {
  cache : gmap K V;
  queue : list K;
  capacity : Z
}.

Definition NewFIFOCache (capacity : Z) : FIFOCache + error :=
  if decide (capacity ≤ 0) then inr capacity_must_be_positive
  else inl (mkFIFO ∅ [] capacity).

Definition Get (key : K) (f : FIFOCache) : option V := cache f !! key.

(** [f.queue[0]] panics on an empty queue. *)
Definition Set_ (key : K) (v : V) (f : FIFOCache) : option FIFOCache :=
  match cache f !! key with
  | Some _ => Some (mkFIFO (<[key := v]> (cache f)) (queue f) (capacity f))
  | None =>
      if decide (capacity f ≤ Z.of_nat (length (queue f))) then
        match queue f with
        | [] => None
        | oldestKey :: rest =>
            Some (mkFIFO (<[key := v]> (delete oldestKey (cache f)))
                         (rest ++ [key]) (capacity f))
        end
      else Some (mkFIFO (<[key := v]> (cache f)) (queue f ++ [key]) (capacity f))
  end.

(** The loop of [Delete]: cut the first occurrence of [key] out of the queue. *)
Fixpoint remove_first (key : K) (q : list K) : list K :=
  match q with
  | [] => []
  | k :: q' => if decide (k = key) then q' else k :: remove_first key q'
  end.

Definition Delete (key : K) (f : FIFOCache) : FIFOCache :=
  match cache f !! key with
  | None => f
  | Some _ => mkFIFO (delete key (cache f)) (remove_first key (queue f)) (capacity f)
  end.

Definition Len (f : FIFOCache) : Z := Z.of_nat (size (cache f)).

Definition Clear (f : FIFOCache) : FIFOCache := mkFIFO ∅ [] (capacity f).

Inductive op : Type :=
  | OGet (key : K) | OSet (key : K) (v : V) | ODelete (key : K) | OLen | OClear.

Definition step (o : op) (f : FIFOCache) : option FIFOCache :=
  match o with
  | OGet _ | OLen => Some f
  | OSet k v => Set_ k v f
  | ODelete k => Some (Delete k f)
  | OClear => Some (Clear f)
  end.

Fixpoint run (ops : list op) (f : FIFOCache) : option FIFOCache :=
  match ops with
  | [] => Some f
  | o :: ops' => step o f ≫= run ops'
  end.
End defs.
Global Arguments FIFOCache K {_ _} V.
Global Arguments op : clear implicits.
End FIFOSlice.

(** ** LRU cache (fifo_cache.go, third and fourth variant) *)
Module LRU.
Section defs.
Context `{Countable K} {V : Type}.

Record entry : Type := mkEntry { key : K; value : V }.

Record LRUCache : Type := mkLRU {
  cache : gmap K nat;
  list : CList.List entry;
  capacity : Z;
  concurrentSafe : bool
}.

Record lruCacheOptions : Type := mkOpts { opt_concurrentSafe : bool }.
Definition LRUOption : Type := lruCacheOptions → lruCacheOptions.
Definition WithLRUConcurrentSafe (safe : bool) : LRUOption := λ _, mkOpts safe.

(** The plain variant takes no options and has no [concurrentSafe] field:
    it is [NewLRUCache capacity []] up to that field. *)
Definition NewLRUCache (capacity : Z) (options : Datatypes.list LRUOption) : LRUCache + error :=
  if decide (capacity ≤ 0) then inr capacity_must_be_positive
  else
    let opts := foldl (λ o opt, opt o) (mkOpts true) options in
    inl (mkLRU ∅ CList.New capacity (opt_concurrentSafe opts)).

Definition Get (k : K) (l : LRUCache) : option V * LRUCache :=
  match cache l !! k with
  | None => (None, l)
  | Some elem =>
      (value <$> CList.Value (list l) elem,
       mkLRU (cache l) (CList.MoveToFront elem (list l)) (capacity l) (concurrentSafe l))
  end.

(** The overflow branch of [Set]: at capacity, the back element of the
    list goes, with the key of its entry. *)
Definition overflow (l : LRUCache) : gmap K nat * CList.List entry :=
  if decide (capacity l ≤ CList.Len (list l)) then
    match CList.Back (list l) with
    | Some backElem =>
        match CList.Value (list l) backElem with
        | Some e => (delete (key e) (cache l), CList.Remove backElem (list l))
        | None => (cache l, list l) (* not reached: an element has a payload *)
        end
    | None => (cache l, list l)
    end
  else (cache l, list l).

Definition Set_ (k : K) (v : V) (l : LRUCache) : LRUCache :=
  match cache l !! k with
  | Some elem =>
      let lst :=
        match CList.Value (list l) elem with
        | Some e => CList.SetValue elem (mkEntry (key e) v) (list l)
        | None => list l (* not reached: an element has a payload *)
        end in
      mkLRU (cache l) (CList.MoveToFront elem lst) (capacity l) (concurrentSafe l)
  | None =>
      let '(c, lst) := overflow l in
      let '(newElem, lst') := CList.PushFront (mkEntry k v) lst in
      mkLRU (<[k := newElem]> c) lst' (capacity l) (concurrentSafe l)
  end.

Definition Delete (k : K) (l : LRUCache) : LRUCache :=
  match cache l !! k with
  | None => l
  | Some elem =>
      mkLRU (delete k (cache l)) (CList.Remove elem (list l)) (capacity l) (concurrentSafe l)
  end.

Definition Len (l : LRUCache) : Z := CList.Len (list l).

Definition Clear (l : LRUCache) : LRUCache :=
  mkLRU ∅ (CList.Init (list l)) (capacity l) (concurrentSafe l).

(** The entries in recency order, most recently used first. *)
Definition entries (l : LRUCache) : Datatypes.list entry :=
  omap (CList.Value (list l)) (CList.order (list l)).
Definition keys (l : LRUCache) : Datatypes.list K := key <$> entries l.

Inductive op : Type :=
  | OGet (k : K) | OSet (k : K) (v : V) | ODelete (k : K) | OLen | OClear.

Definition step (l : LRUCache) (o : op) : LRUCache :=
  match o with
  | OGet k => (Get k l).2
  | OSet k v => Set_ k v l
  | ODelete k => Delete k l
  | OLen => l
  | OClear => Clear l
  end.

Definition run (ops : Datatypes.list op) (l : LRUCache) : LRUCache := foldl step l ops.
End defs.
Global Arguments LRUCache K {_ _} V.
Global Arguments entry : clear implicits.
Global Arguments op : clear implicits.
End LRU.

(** ** LFU cache (lfu_cache.go) *)
Module LFU.
Section defs.
Context `{Countable K} {V : Type}.

(** A node is reached through [cache], under its own key, or through a
    list element, which is used for its key only; [key] is never written
    after creation. So the map holds the node's mutable fields and a list
    element holds the key of its node. *)
Record lfuNode : Type := mkNode { value : V; freq : Z; elem : nat }.

(** A [*ctl.List] of the frequency map: its elements, front to back, each
    with the key of the node it points to. Elements are allocated from
    one counter, [fresh], so they are distinct across lists. *)
Abbreviation bucket := (list (nat * K)).

Record LFUCache : Type := mkLFU {
  cache : gmap K lfuNode;
  freqMap : gmap Z bucket;
  minFreq : Z;
  capacity : Z;
  fresh : nat
}.

Definition NewLFUCache (capacity : Z) : LFUCache + error :=
  if decide (capacity ≤ 0) then inr capacity_must_be_positive
  else inl (mkLFU ∅ ∅ 0 capacity 0%nat).

(** [lst.Remove(e)] *)
Definition bucket_remove (e : nat) (b : bucket) : bucket :=
  filter (λ x, x.1 ≠ e) b.

(** [if _, ok := freqMap[f]; !ok { freqMap[f] = ctl.New() }] followed by
    [freqMap[f].PushBack(node)] *)
Definition bucket_push (f : Z) (e : nat) (k : K) (fm : gmap Z bucket) : gmap Z bucket :=
  <[f := default [] (fm !! f) ++ [(e, k)]]> fm.

(** The removal of [e] from the list of frequency [f] shared by
    [updateFreq] and [Delete]: drop the list when it empties and, if [f]
    was the minimum, increment [minFreq]. A missing list is a nil pointer
    whose [Len] panics. *)
Definition unlink (f : Z) (e : nat) (l : LFUCache) : option (gmap Z bucket * Z) :=
  match freqMap l !! f with
  | None => None
  | Some oldList =>
      match bucket_remove e oldList with
      | [] => Some (delete f (freqMap l),
                    if decide (f = minFreq l) then int_incr (minFreq l) else minFreq l)
      | b => Some (<[f := b]> (freqMap l), minFreq l)
      end
  end.

(** [updateFreq(node)] for the node stored under [k]. *)
Definition updateFreq (k : K) (l : LFUCache) : option LFUCache :=
  match cache l !! k with
  | None => Some l (* not called without a node *)
  | Some node =>
      let oldFreq := freq node in
      let newFreq := int_incr oldFreq in
      '(fm, mf) ← unlink oldFreq (elem node) l;
      Some (mkLFU (<[k := mkNode (value node) newFreq (fresh l)]> (cache l))
                  (bucket_push newFreq (fresh l) k fm)
                  mf (capacity l) (S (fresh l)))
  end.

Definition Get (k : K) (l : LFUCache) : option (option V * LFUCache) :=
  match cache l !! k with
  | None => Some (None, l)
  | Some node => l' ← updateFreq k l; Some (Some (value node), l')
  end.

Definition evict (l : LFUCache) : LFUCache :=
  match freqMap l !! minFreq l with
  | None | Some [] => l
  | Some ((e, k) :: rest) =>
      mkLFU (delete k (cache l))
            (match rest with
             | [] => delete (minFreq l) (freqMap l)
             | _ => <[minFreq l := rest]> (freqMap l)
             end)
            (minFreq l) (capacity l) (fresh l)
  end.

Definition Set_ (k : K) (v : V) (l : LFUCache) : option LFUCache :=
  match cache l !! k with
  | Some node =>
      updateFreq k (mkLFU (<[k := mkNode v (freq node) (elem node)]> (cache l))
                          (freqMap l) (minFreq l) (capacity l) (fresh l))
  | None =>
      let l1 := if decide (capacity l ≤ Z.of_nat (size (cache l))) then evict l else l in
      Some (mkLFU (<[k := mkNode v 1 (fresh l1)]> (cache l1))
                  (bucket_push 1 (fresh l1) k (freqMap l1))
                  1 (capacity l1) (S (fresh l1)))
  end.

Definition Delete (k : K) (l : LFUCache) : option LFUCache :=
  match cache l !! k with
  | None => Some l
  | Some node =>
      '(fm, mf) ← unlink (freq node) (elem node) l;
      Some (mkLFU (delete k (cache l)) fm mf (capacity l) (fresh l))
  end.

Definition Len (l : LFUCache) : Z := Z.of_nat (size (cache l)).

Definition Clear (l : LFUCache) : LFUCache :=
  mkLFU ∅ ∅ 0 (capacity l) (fresh l).

Inductive op : Type :=
  | OGet (k : K) | OSet (k : K) (v : V) | ODelete (k : K) | OLen | OClear.

Definition step (o : op) (l : LFUCache) : option LFUCache :=
  match o with
  | OGet k => snd <$> Get k l
  | OSet k v => Set_ k v l
  | ODelete k => Delete k l
  | OLen => Some l
  | OClear => Some (Clear l)
  end.

Fixpoint run (ops : list op) (l : LFUCache) : option LFUCache :=
  match ops with
  | [] => Some l
  | o :: ops' => step o l ≫= run ops'
  end.
End defs.
Global Arguments LFUCache K {_ _} V.
Global Arguments lfuNode : clear implicits.
Global Arguments op : clear implicits.
End LFU.

(** ** [container/heap] over [expirationHeap] (timed_cache.go) *)
Module Heap.
Section defs.
Context {K : Type}.

(** [index] is the position of the record in the slice, kept up to date
    by [Swap], [Push] and [Pop] and never read by the cache: it is left
    out. *)
Record heapEntry : Type := mkHeapEntry { key : K; expiration : Z }.

(** [Less(i, j)] of [expirationHeap] *)
Definition Less (x y : heapEntry) : bool := bool_decide (expiration x < expiration y).

(** What the cache uses of a [*expirationHeap] driven by [container/heap]:
    the empty heap (the slice cut to length 0 by [Clear], and the empty
    slice of the constructor), [h.Len()], [heap.Push(h, x)] and
    [heap.Pop(h)]. The record at index 0, which [cleanupExpired] inspects,
    is the record that [heap.Pop] returns: [heap.Pop] swaps it to the end
    and cuts it off. [Items] lists the records of the slice. *)
Class Ops (H : Type) : Type := {
  Empty : H;
  Len : H → nat;
  Push : heapEntry → H → H;
  Pop : H → option (heapEntry * H);
  Items : H → list heapEntry
}.

(** The contract of [container/heap] for an ordering given by [Less]:
    [Pop] takes out a record that no remaining record is [Less] than. *)
Class Laws (H : Type) `{Ops H} : Prop := {
  Items_Empty : Items Empty = [];
  Len_Items h : Len h = length (Items h);
  Items_Push x h : Items (Push x h) ≡ₚ x :: Items h;
  Pop_None h : Pop h = None ↔ Items h = [];
  Pop_Some h x h' :
    Pop h = Some (x, h') →
    Items h ≡ₚ x :: Items h' ∧ Forall (λ y, Less y x = false) (Items h')
}.

(** The simplest heap that meets the contract, used to run the cache on
    concrete inputs: the records in a list, [Pop] selecting a least one.
    [extract_min x h] splits [x :: h] into a least record and the rest. *)
Fixpoint extract_min (x : heapEntry) (h : list heapEntry) : heapEntry * list heapEntry :=
  match h with
  | [] => (x, [])
  | y :: h' =>
      let '(m, r) := extract_min y h' in
      if Less m x then (m, x :: r) else (x, m :: r)
  end.

#[global] Instance list_ops : Ops (list heapEntry) := {
  Empty := [];
  Len := length;
  Push := cons;
  Pop h := match h with [] => None | x :: h' => Some (extract_min x h') end;
  Items := id
}.
End defs.
Global Arguments heapEntry : clear implicits.
Global Arguments Ops : clear implicits.
Global Arguments Laws K H {_}.
End Heap.

(** ** The [heap.Interface] methods of [expirationHeap] (timed_cache.go)

    The slice itself, with the [index] field that [Swap], [Push] and [Pop]
    maintain. The slice holds pointers; the records it points to are taken
    to be distinct objects, as every record is allocated by the push that
    adds it. An index out of range panics. *)
Module ExpirationHeap.
Section defs.
Context {K : Type}.

Record heapEntry : Type := mkHeapEntry { key : K; expiration : Z; index : Z }.

Definition set_index (i : Z) (x : heapEntry) : heapEntry :=
  mkHeapEntry (key x) (expiration x) i.

(** [h[i]] *)
Definition at_index (h : list heapEntry) (i : Z) : option heapEntry :=
  if decide (0 ≤ i) then h !! Z.to_nat i else None.

Definition Len (h : list heapEntry) : Z := Z.of_nat (length h).

Definition Less (h : list heapEntry) (i j : Z) : option bool :=
  x ← at_index h i; y ← at_index h j;
  Some (bool_decide (expiration x < expiration y)).

(** [h[i], h[j] = h[j], h[i]; h[i].index = i; h[j].index = j] *)
Definition Swap (h : list heapEntry) (i j : Z) : option (list heapEntry) :=
  x ← at_index h i; y ← at_index h j;
  Some (<[Z.to_nat j := set_index j x]> (<[Z.to_nat i := set_index i y]> h)).

Definition Push (x : heapEntry) (h : list heapEntry) : list heapEntry :=
  h ++ [set_index (Len h) x].

(** [old[n-1]] panics on the empty slice. *)
Definition Pop (h : list heapEntry) : option (heapEntry * list heapEntry) :=
  entry ← at_index h (Len h - 1);
  Some (set_index (-1) entry, take (length h - 1) h).

(** Every record knows its position. *)
Definition indexed (h : list heapEntry) : Prop :=
  ∀ i x, h !! i = Some x → index x = Z.of_nat i.

(** A record without its bookkeeping. *)
Definition payload (x : heapEntry) : K * Z := (key x, expiration x).
End defs.
Global Arguments heapEntry : clear implicits.
End ExpirationHeap.

(** ** Timed cache (timed_cache.go) *)
Module Timed.
Section defs.
Context `{Countable K} {V : Type} `{Heap.Ops K HP}.

Record timedEntry : Type := mkEntry { value : V; expiration : Z }.

Record TimedCache : Type := mkTimed {
  cache : gmap K timedEntry;
  heap : HP;
  capacity : Z;
  defaultTTL : Z
}.

Definition NewTimedCache (capacity defaultTTL : Z) : TimedCache + error :=
  if decide (capacity ≤ 0) then inr capacity_must_be_positive
  else if decide (defaultTTL ≤ 0) then inr default_TTL_must_be_positive
  else inl (mkTimed ∅ Heap.Empty capacity defaultTTL).

(** [if entry, exists := t.cache[oldest.key];
       exists && entry.expiration == oldest.expiration
     { delete(t.cache, oldest.key) }] *)
Definition reconcile (oldest : Heap.heapEntry K) (c : gmap K timedEntry) : gmap K timedEntry :=
  match c !! Heap.key oldest with
  | Some entry =>
      if decide (expiration entry = Heap.expiration oldest)
      then delete (Heap.key oldest) c else c
  | None => c
  end.

(** The loop of [cleanupExpired]; every turn pops a record, so as many
    turns as the heap has records are enough. *)
Fixpoint cleanup_loop (turns : nat) (now : Z) (c : gmap K timedEntry) (h : HP)
    : gmap K timedEntry * HP :=
  match turns with
  | O => (c, h)
  | S turns' =>
      match Heap.Pop h with
      | None => (c, h)
      | Some (oldest, h') =>
          if decide (Heap.expiration oldest > now) then (c, h)
          else cleanup_loop turns' now (reconcile oldest c) h'
      end
  end.

Definition cleanupExpired (now : Z) (t : TimedCache) : TimedCache :=
  let '(c, h) := cleanup_loop (Heap.Len (heap t)) now (cache t) (heap t) in
  mkTimed c h (capacity t) (defaultTTL t).

(** [now1] is read by [cleanupExpired], [now2] by [Get] itself. *)
Definition Get (now1 now2 : Z) (key : K) (t : TimedCache) : option V * TimedCache :=
  let t1 := cleanupExpired now1 t in
  match cache t1 !! key with
  | None => (None, t1)
  | Some entry =>
      if decide (expiration entry < now2)
      then (None, mkTimed (delete key (cache t1)) (heap t1) (capacity t1) (defaultTTL t1))
      else (Some (value entry), t1)
  end.

(** The overflow loop of [SetWithTTL]. *)
Fixpoint evict_loop (turns : nat) (cap : Z) (c : gmap K timedEntry) (h : HP)
    : gmap K timedEntry * HP :=
  match turns with
  | O => (c, h)
  | S turns' =>
      if decide (cap ≤ Z.of_nat (size c)) then
        match Heap.Pop h with
        | None => (c, h)
        | Some (oldest, h') => evict_loop turns' cap (reconcile oldest c) h'
        end
      else (c, h)
  end.

(** [time.Now().Add(ttl).UnixNano()] at the instant [now]: the sum of the
    instant and the duration, in nanoseconds, as an [int64]. [UnixNano]
    multiplies and adds in [int64], so a sum out of range wraps around. *)
Definition expire_at (now ttl : Z) : Z := wrap_int (now + ttl).

(** [now1] is read by [cleanupExpired], [now2] by
    [time.Now().Add(ttl).UnixNano()]. *)
Definition SetWithTTL (now1 now2 : Z) (key : K) (v : V) (ttl : Z) (t : TimedCache)
    : TimedCache :=
  let t1 := cleanupExpired now1 t in
  let expiration := expire_at now2 ttl in
  match cache t1 !! key with
  | Some _ =>
      mkTimed (<[key := mkEntry v expiration]> (cache t1))
              (Heap.Push (Heap.mkHeapEntry key expiration) (heap t1))
              (capacity t1) (defaultTTL t1)
  | None =>
      let '(c, h) := evict_loop (Heap.Len (heap t1)) (capacity t1) (cache t1) (heap t1) in
      mkTimed (<[key := mkEntry v expiration]> c)
              (Heap.Push (Heap.mkHeapEntry key expiration) h)
              (capacity t1) (defaultTTL t1)
  end.

Definition Set_ (now1 now2 : Z) (key : K) (v : V) (t : TimedCache) : TimedCache :=
  SetWithTTL now1 now2 key v (defaultTTL t) t.

Definition Delete (key : K) (t : TimedCache) : TimedCache :=
  mkTimed (delete key (cache t)) (heap t) (capacity t) (defaultTTL t).

Definition Len (now : Z) (t : TimedCache) : Z * TimedCache :=
  let t1 := cleanupExpired now t in (Z.of_nat (size (cache t1)), t1).

Definition Clear (t : TimedCache) : TimedCache :=
  mkTimed ∅ Heap.Empty (capacity t) (defaultTTL t).

Inductive op : Type :=
  | OGet (now1 now2 : Z) (key : K)
  | OSet (now1 now2 : Z) (key : K) (v : V)
  | OSetWithTTL (now1 now2 : Z) (key : K) (v : V) (ttl : Z)
  | ODelete (key : K)
  | OLen (now : Z)
  | OClear.

Definition step (t : TimedCache) (o : op) : TimedCache :=
  match o with
  | OGet now1 now2 k => (Get now1 now2 k t).2
  | OSet now1 now2 k v => Set_ now1 now2 k v t
  | OSetWithTTL now1 now2 k v ttl => SetWithTTL now1 now2 k v ttl t
  | ODelete k => Delete k t
  | OLen now => (Len now t).2
  | OClear => Clear t
  end.

Definition run (ops : list op) (t : TimedCache) : TimedCache := foldl step t ops.
End defs.
Global Arguments TimedCache K {_ _} V HP.
Global Arguments timedEntry : clear implicits.
Global Arguments op : clear implicits.
Global Arguments expire_at : simpl never.
End Timed.

(** ** The invariants of the four caches *)

(** What links the index of the list-backed FIFO cache to its queue:
    the elements of the queue are distinct and allocated, every indexed key
    points to a queued element that carries it, and every queued element
    carries a key whose index entry points back to it. *)
Record fifo_link `{Countable K} {V : Type}
    (c : gmap K (@FIFO.cacheEntry V)) (q : CList.List K) : Prop := {
  fifo_nodup : NoDup (CList.order q);
  fifo_fresh : ∀ e, e ∈ CList.order q → (e < CList.fresh q)%nat;
  fifo_index : ∀ k ent, c !! k = Some ent →
      FIFO.node ent ∈ CList.order q ∧ CList.Value q (FIFO.node ent) = Some k;
  fifo_listed : ∀ e, e ∈ CList.order q →
      ∃ k ent, CList.Value q e = Some k ∧ c !! k = Some ent ∧ FIFO.node ent = e
}.

Definition fifo_inv `{Countable K} {V : Type} (f : FIFO.FIFOCache K V) : Prop :=
  fifo_link (FIFO.cache f) (FIFO.queue f) ∧
  0 < FIFO.capacity f ∧ FIFO.Len f ≤ FIFO.capacity f.

(** The slice-backed FIFO cache: the queue lists exactly the indexed keys,
    once each. *)
Definition fslice_inv `{Countable K} {V : Type} (f : FIFOSlice.FIFOCache K V) : Prop :=
  NoDup (FIFOSlice.queue f) ∧
  (∀ k, k ∈ FIFOSlice.queue f ↔ is_Some (FIFOSlice.cache f !! k)) ∧
  0 < FIFOSlice.capacity f ∧
  Z.of_nat (length (FIFOSlice.queue f)) ≤ FIFOSlice.capacity f.

(** The LRU cache: the elements of the list are distinct and allocated,
    every indexed key points to a listed element whose entry has that key,
    and the entry of every listed element has a key indexed to it. *)
Record lru_link `{Countable K} {V : Type}
    (c : gmap K nat) (lst : CList.List (LRU.entry K V)) : Prop := {
  lru_nodup : NoDup (CList.order lst);
  lru_fresh : ∀ e, e ∈ CList.order lst → (e < CList.fresh lst)%nat;
  lru_index : ∀ k e, c !! k = Some e →
      e ∈ CList.order lst ∧ ∃ v, CList.Value lst e = Some (LRU.mkEntry k v);
  lru_listed : ∀ e, e ∈ CList.order lst →
      ∃ k v, CList.Value lst e = Some (LRU.mkEntry k v) ∧ c !! k = Some e
}.

Definition lru_inv `{Countable K} {V : Type} (l : LRU.LRUCache K V) : Prop :=
  lru_link (LRU.cache l) (LRU.list l) ∧
  0 < LRU.capacity l ∧ LRU.Len l ≤ LRU.capacity l.

(** The LFU cache: every node sits in the list of its frequency under
    its element, every list element belongs to the node of its key, no
    list is empty or repeats an element, and distinct nodes have distinct,
    allocated elements. *)
Record lfu_link `{Countable K} {V : Type}
    (c : gmap K (LFU.lfuNode V)) (fm : gmap Z (list (nat * K))) (fr : nat) : Prop := {
  lfu_index : ∀ k n, c !! k = Some n →
      ∃ b, fm !! LFU.freq n = Some b ∧ (LFU.elem n, k) ∈ b;
  lfu_listed : ∀ f b e k, fm !! f = Some b → (e, k) ∈ b →
      ∃ n, c !! k = Some n ∧ LFU.freq n = f ∧ LFU.elem n = e;
  lfu_nonempty : ∀ f b, fm !! f = Some b → b ≠ [];
  lfu_nodup : ∀ f b, fm !! f = Some b → NoDup b;
  lfu_inj : ∀ k1 k2 n1 n2, c !! k1 = Some n1 → c !! k2 = Some n2 →
      LFU.elem n1 = LFU.elem n2 → k1 = k2;
  lfu_fresh : ∀ k n, c !! k = Some n → (LFU.elem n < fr)%nat
}.

(** With the link, the capacity bound and the fact that a full cache has
    a list at [minFreq]. *)
Definition lfu_inv `{Countable K} {V : Type} (l : LFU.LFUCache K V) : Prop :=
  lfu_link (LFU.cache l) (LFU.freqMap l) (LFU.fresh l) ∧
  0 < LFU.capacity l ∧
  Z.of_nat (size (LFU.cache l)) ≤ LFU.capacity l ∧
  (Z.of_nat (size (LFU.cache l)) = LFU.capacity l →
   is_Some (LFU.freqMap l !! LFU.minFreq l)).

(** The order of allocation of two list elements. An element is allocated
    when its node is inserted or reaches a new frequency. *)
Definition elem_lt {K : Type} (x y : nat * K) : Prop := (x.1 < y.1)%nat.

(** What holds of the LFU cache after [n] operations, as long as no
    frequency counter has wrapped around: frequencies lie between 1 and
    [n + 1], a full cache has no frequency below [minFreq], and every list
    is in the order of allocation of its elements. *)
Definition lfu_ranked `{Countable K} {V : Type} (n : Z) (l : LFU.LFUCache K V) : Prop :=
  lfu_inv l ∧
  (∀ k nd, LFU.cache l !! k = Some nd → 1 ≤ LFU.freq nd ≤ n + 1) ∧
  (Z.of_nat (size (LFU.cache l)) = LFU.capacity l →
   ∀ k nd, LFU.cache l !! k = Some nd → LFU.minFreq l ≤ LFU.freq nd) ∧
  (∀ f b, LFU.freqMap l !! f = Some b → StronglySorted elem_lt b).

(** The Timed cache: every indexed key has a heap record that carries its
    current expiration. Other records of the heap are the stale ones. *)
Definition timed_link `{Countable K} {V : Type} `{Heap.Ops K HP}
    (c : gmap K (Timed.timedEntry V)) (h : HP) : Prop :=
  ∀ k e, c !! k = Some e →
    Heap.mkHeapEntry k (Timed.expiration e) ∈ Heap.Items h.

Definition timed_inv `{Countable K} {V : Type} `{Heap.Ops K HP}
    (t : Timed.TimedCache K V HP) : Prop :=
  timed_link (Timed.cache t) (Timed.heap t) ∧
  0 < Timed.capacity t ∧
  Z.of_nat (size (Timed.cache t)) ≤ Timed.capacity t.

(** The entries that have not expired at [now]. *)
Definition live `{Countable K} {V : Type} (now : Z)
    (c : gmap K (Timed.timedEntry V)) : gmap K (Timed.timedEntry V) :=
  filter (λ kv, now < Timed.expiration kv.2) c.


(** ** Lists of distinct elements *)
Section list_facts.
Context `{EqDecision A}.
Implicit Types (l : list A) (e : A).

Lemma filter_Forall_id (P : A → Prop) `{∀ x, Decision (P x)} l :
  Forall P l → filter P l = l.
Proof.
  induction 1 as [|x l Hx _ IH]; [done|].
  rewrite filter_cons_True by done. by rewrite IH.
Qed.

Lemma filter_ne_notin l e : e ∉ l → filter (λ x, x ≠ e) l = l.
Proof.
  induction l as [|x l IH]; [done|]. intros Hnin.
  apply not_elem_of_cons in Hnin as [Hne Hnin].
  rewrite filter_cons_True by congruence. by rewrite IH.
Qed.

Lemma filter_ne_length l e :
  NoDup l → e ∈ l → S (length (filter (λ x, x ≠ e) l)) = length l.
Proof.
  induction 1 as [|x l Hx Hnd IH]; [by intros ?%elem_of_nil|].
  intros [->|Hin]%elem_of_cons.
  - rewrite filter_cons_False by naive_solver.
    by rewrite filter_ne_notin.
  - rewrite filter_cons_True by (intros ->; done).
    simpl. by rewrite IH.
Qed.

Lemma filter_ne_NoDup l e : NoDup l → NoDup (filter (λ x, x ≠ e) l).
Proof. apply NoDup_filter. Qed.

Lemma filter_ne_elem l e x : x ∈ filter (λ y, y ≠ e) l ↔ x ≠ e ∧ x ∈ l.
Proof. by rewrite list_elem_of_filter. Qed.

Lemma filter_ne_head l e x : NoDup (x :: l) → e = x → filter (λ y, y ≠ e) (x :: l) = l.
Proof.
  intros [Hx _]%NoDup_cons ->. rewrite filter_cons_False by naive_solver.
  by apply filter_ne_notin.
Qed.

Lemma filter_ne_last l e : NoDup (l ++ [e]) → filter (λ y, y ≠ e) (l ++ [e]) = l.
Proof.
  intros Hnd. apply NoDup_app in Hnd as (_ & Hdisj & _).
  rewrite filter_app, filter_cons_False, filter_nil, app_nil_r by naive_solver.
  apply filter_ne_notin. intros Hin. apply (Hdisj e Hin). by left.
Qed.
End list_facts.

(** ** FIFO over [container/list] *)
Section fifo_facts.
Context `{Countable K} {V : Type}.
Implicit Types (f : FIFO.FIFOCache K V) (c : gmap K (@FIFO.cacheEntry V))
  (q : CList.List K) (k : K) (v : V).

Lemma fifo_link_node_inj c q k1 k2 e1 e2 :
  fifo_link c q → c !! k1 = Some e1 → c !! k2 = Some e2 →
  FIFO.node e1 = FIFO.node e2 → k1 = k2.
Proof.
  intros Hl H1 H2 Heq.
  destruct (fifo_index _ _ Hl _ _ H1) as [_ Hv1].
  destruct (fifo_index _ _ Hl _ _ H2) as [_ Hv2].
  rewrite Heq in Hv1. congruence.
Qed.

Lemma fifo_link_empty q0 : fifo_link (V:=V) (∅ : gmap K _) (CList.Init q0).
Proof.
  split; simpl.
  - constructor.
  - by intros e ?%elem_of_nil.
  - intros k ent. by rewrite lookup_empty.
  - by intros e ?%elem_of_nil.
Qed.

Lemma fifo_link_update c q k v ent :
  fifo_link c q → c !! k = Some ent →
  fifo_link (<[k := FIFO.mkEntry v (FIFO.node ent)]> c) q.
Proof.
  intros Hl Hk. split.
  - apply Hl.
  - apply Hl.
  - intros k' ent'. rewrite lookup_insert. case_decide as Hkk.
    + subst k'. intros [= <-]. simpl. by apply (fifo_index _ _ Hl).
    + apply Hl.
  - intros e He. destruct (fifo_listed _ _ Hl e He) as (k' & ent' & Hv & Hc & Hn).
    destruct (decide (k = k')) as [<-|Hne].
    + exists k, (FIFO.mkEntry v (FIFO.node ent)).
      rewrite lookup_insert_eq. split_and!; [done..|]. simpl. congruence.
    + exists k', ent'. by rewrite lookup_insert_ne.
Qed.

Lemma fifo_link_remove c q k ent :
  fifo_link c q → c !! k = Some ent →
  fifo_link (delete k c) (CList.Remove (FIFO.node ent) q).
Proof.
  intros Hl Hk. split; simpl.
  - apply filter_ne_NoDup, Hl.
  - intros e [_ He]%filter_ne_elem. by apply Hl.
  - intros k' ent'. rewrite lookup_delete. case_decide as Hkk; [done|].
    intros Hk'. destruct (fifo_index _ _ Hl _ _ Hk') as [Hin Hv].
    split; [|done]. apply filter_ne_elem. split; [|done].
    intros Heq. apply Hkk. symmetry. by eapply fifo_link_node_inj.
  - intros e [Hne He]%filter_ne_elem.
    destruct (fifo_listed _ _ Hl e He) as (k' & ent' & Hv & Hc & Hn).
    exists k', ent'. split_and!; [done| |done].
    rewrite lookup_delete_ne; [done|]. intros <-. congruence.
Qed.

Lemma fifo_link_push c q k v :
  fifo_link c q → c !! k = None →
  fifo_link (<[k := FIFO.mkEntry v (CList.fresh q)]> c) (CList.PushBack k q).2.
Proof.
  intros Hl Hk.
  assert (Hnin : CList.fresh q ∉ CList.order q).
  { intros Hin. apply (fifo_fresh _ _ Hl) in Hin. lia. }
  split; simpl.
  - apply NoDup_app. split_and!; [apply Hl| |apply NoDup_singleton].
    intros e He ->%list_elem_of_singleton. done.
  - intros e [He| ->%list_elem_of_singleton]%elem_of_app; [|lia].
    apply (fifo_fresh _ _ Hl) in He. lia.
  - intros k' ent'. unfold CList.Value. simpl.
    rewrite lookup_insert. case_decide as Hkk.
    + subst k'. intros [= <-]. simpl. rewrite lookup_insert_eq.
      split; [|done]. apply elem_of_app. right. by left.
    + intros Hk'. destruct (fifo_index _ _ Hl _ _ Hk') as [Hin Hv].
      split; [apply elem_of_app; by left|].
      rewrite lookup_insert_ne; [done|]. intros Heq. by rewrite <-Heq in Hin.
  - intros e. unfold CList.Value. simpl.
    intros [He| ->%list_elem_of_singleton]%elem_of_app.
    + destruct (fifo_listed _ _ Hl e He) as (k' & ent' & Hv & Hc & Hn).
      exists k', ent'. rewrite lookup_insert_ne by (intros <-; done).
      rewrite lookup_insert_ne by (intros <-; congruence). done.
    + exists k, (FIFO.mkEntry v (CList.fresh q)).
      by rewrite !lookup_insert_eq.
Qed.

(** The overflow branch leaves room for one more element. *)
Lemma fifo_overflow_spec f :
  fifo_inv f →
  fifo_link (FIFO.overflow f).1 (FIFO.overflow f).2 ∧
  CList.Len (FIFO.overflow f).2 < FIFO.capacity f ∧
  ((FIFO.Len f < FIFO.capacity f ∧ FIFO.overflow f = (FIFO.cache f, FIFO.queue f)) ∨
   (FIFO.Len f = FIFO.capacity f ∧
    ∃ front rest oldKey ent,
      CList.order (FIFO.queue f) = front :: rest ∧
      CList.Value (FIFO.queue f) front = Some oldKey ∧
      FIFO.cache f !! oldKey = Some ent ∧ FIFO.node ent = front ∧
      FIFO.overflow f = (delete oldKey (FIFO.cache f), CList.Remove front (FIFO.queue f)) ∧
      CList.order (CList.Remove front (FIFO.queue f)) = rest)).
Proof.
  intros (Hl & Hpos & Hlen). unfold FIFO.overflow, FIFO.Len in *.
  case_decide as Hfull; simpl.
  2: { split_and!; [done|lia|left; split; [lia|done]]. }
  unfold CList.Front, CList.Len in *.
  destruct (CList.order (FIFO.queue f)) as [|front rest] eqn:Hord;
    [simpl in *; lia|]. simpl.
  destruct (fifo_listed _ _ Hl front) as (oldKey & ent & Hv & Hc & Hn).
  { rewrite Hord. by left. }
  rewrite Hv. simpl.
  assert (Hrest : CList.order (CList.Remove front (FIFO.queue f)) = rest).
  { simpl. rewrite Hord. apply filter_ne_head; [|done].
    rewrite <-Hord. apply Hl. }
  split_and!.
  - rewrite <-Hn. by apply fifo_link_remove.
  - change (CList.Len (CList.Remove front (FIFO.queue f)) < FIFO.capacity f).
    unfold CList.Len. rewrite Hrest. simpl in Hlen. lia.
  - right. split; [simpl in *; lia|].
    exists front, rest, oldKey, ent. split_and!; try done.
    simpl in Hrest. by rewrite Hord in Hrest.
Qed.

Lemma fifo_inv_New cap opts f : FIFO.NewFIFOCache cap opts = inl f → fifo_inv f.
Proof.
  unfold FIFO.NewFIFOCache. case_decide; [done|]. intros [= <-].
  split_and!; simpl; [|lia|unfold FIFO.Len, CList.Len; simpl; lia].
  apply (fifo_link_empty CList.New).
Qed.

Lemma fifo_inv_Set k v f : fifo_inv f → fifo_inv (FIFO.Set_ k v f).
Proof.
  intros Hinv. pose proof Hinv as (Hl & Hpos & Hlen). unfold FIFO.Set_.
  destruct (FIFO.cache f !! k) as [ent|] eqn:Hk.
  - split_and!; simpl; [by apply fifo_link_update|done..].
  - destruct (fifo_overflow_spec f Hinv) as (Hl' & Hlen' & Hcase).
    destruct (FIFO.overflow f) as [c q] eqn:Hov. simpl in *.
    assert (Hck : c !! k = None).
    { destruct Hcase as [[_ [= -> ->]]|(_ & ? & ? & oldKey & ? & _ & _ & _ & _ & [= -> ->] & _)];
        [done|]. rewrite lookup_delete. by case_decide. }
    split_and!; simpl; [by apply (fifo_link_push c q)|done|].
    unfold FIFO.Len, CList.Len in *. simpl. rewrite length_app. simpl. lia.
Qed.

Lemma fifo_inv_Delete k f : fifo_inv f → fifo_inv (FIFO.Delete k f).2.
Proof.
  intros (Hl & Hpos & Hlen). unfold FIFO.Delete.
  destruct (FIFO.cache f !! k) as [ent|] eqn:Hk; [|done].
  split_and!; simpl; [by apply fifo_link_remove|done|].
  unfold FIFO.Len, CList.Len in *. simpl.
  pose proof (length_filter (λ x, x ≠ FIFO.node ent) (CList.order (FIFO.queue f))). lia.
Qed.

Lemma fifo_inv_Clear f : fifo_inv f → fifo_inv (FIFO.Clear f).
Proof.
  intros (Hl & Hpos & Hlen). split_and!; simpl; [apply fifo_link_empty|done|].
  unfold FIFO.Len, CList.Len. simpl. lia.
Qed.

Lemma fifo_inv_step f o : fifo_inv f → fifo_inv (FIFO.step f o).
Proof.
  destruct o; simpl; auto using fifo_inv_Set, fifo_inv_Delete, fifo_inv_Clear.
Qed.

Lemma fifo_inv_run ops f : fifo_inv f → fifo_inv (FIFO.run ops f).
Proof.
  revert f. induction ops as [|o ops IH]; intros f Hf; [done|].
  apply IH. by apply fifo_inv_step.
Qed.

Lemma fifo_capacity_step f o : FIFO.capacity (FIFO.step f o) = FIFO.capacity f.
Proof.
  destruct o; simpl; try done.
  - unfold FIFO.Set_. destruct (FIFO.cache f !! key); [done|].
    by destruct (FIFO.overflow f).
  - unfold FIFO.Delete. by destruct (FIFO.cache f !! key).
Qed.

Lemma fifo_capacity_run ops f : FIFO.capacity (FIFO.run ops f) = FIFO.capacity f.
Proof.
  revert f. induction ops as [|o ops IH]; intros f; [done|].
  unfold FIFO.run in *. simpl. by rewrite IH, fifo_capacity_step.
Qed.
End fifo_facts.


(** ** FIFO over a slice *)
Section fslice_facts.
Context `{Countable K} {V : Type}.
Implicit Types (f : FIFOSlice.FIFOCache K V) (k : K) (v : V) (q : list K).

Lemma remove_first_notin k q : k ∉ q → FIFOSlice.remove_first k q = q.
Proof.
  induction q as [|x q IH]; [done|]. intros [Hne Hnin]%not_elem_of_cons.
  simpl. case_decide; [congruence|]. by rewrite IH.
Qed.

Lemma remove_first_filter k q :
  NoDup q → FIFOSlice.remove_first k q = filter (λ x, x ≠ k) q.
Proof.
  induction 1 as [|x q Hx Hnd IH]; [done|]. simpl. case_decide as Hxk.
  - subst x. rewrite filter_cons_False by naive_solver.
    by rewrite filter_ne_notin.
  - rewrite filter_cons_True by done. by rewrite IH.
Qed.

Lemma fslice_size f : fslice_inv f → size (FIFOSlice.cache f) = length (FIFOSlice.queue f).
Proof.
  intros (Hnd & Hiff & _).
  rewrite <-size_dom, <-(size_list_to_set (C:=gset K)) by done.
  f_equal. apply set_eq. intros k.
  by rewrite elem_of_dom, elem_of_list_to_set, Hiff.
Qed.

Lemma fslice_inv_New cap f : FIFOSlice.NewFIFOCache cap = inl f → fslice_inv f.
Proof.
  unfold FIFOSlice.NewFIFOCache. case_decide; [done|]. intros [= <-].
  split_and!; simpl; [constructor| |lia|lia].
  intros k. rewrite lookup_empty, elem_of_nil. split; [done|]. by intros [? ?].
Qed.

Lemma fslice_inv_Set k v f :
  fslice_inv f → ∃ f', FIFOSlice.Set_ k v f = Some f' ∧ fslice_inv f'.
Proof.
  intros (Hnd & Hiff & Hpos & Hlen). unfold FIFOSlice.Set_.
  destruct (FIFOSlice.cache f !! k) as [old|] eqn:Hk.
  { eexists. split; [done|]. split_and!; simpl; [done| |done..].
    intros k'. rewrite Hiff, lookup_insert. case_decide; [|done].
    subst k'. rewrite Hk. split; eauto. }
  assert (Hkq : k ∉ FIFOSlice.queue f).
  { rewrite Hiff, Hk. by intros [? ?]. }
  case_decide as Hfull.
  - destruct (FIFOSlice.queue f) as [|oldest rest] eqn:Hq; [simpl in *; lia|].
    eexists. split; [done|].
    apply NoDup_cons in Hnd as [Hold Hnd].
    apply not_elem_of_cons in Hkq as [Hne Hkq].
    split_and!; simpl in *.
    + apply NoDup_app. split_and!; [done| |apply NoDup_singleton].
      by intros x Hx ->%list_elem_of_singleton.
    + intros k'. rewrite elem_of_app, list_elem_of_singleton, lookup_insert.
      case_decide as Hkk; [subst k'; split; eauto|].
      rewrite lookup_delete. case_decide as Hok.
      * subst k'. split; [intros [?|?]; done|by intros [? ?]].
      * rewrite <-Hiff, elem_of_cons. naive_solver.
    + done.
    + rewrite length_app. simpl. lia.
  - eexists. split; [done|]. split_and!; simpl.
    + apply NoDup_app. split_and!; [done| |apply NoDup_singleton].
      by intros x Hx ->%list_elem_of_singleton.
    + intros k'. rewrite elem_of_app, list_elem_of_singleton, lookup_insert.
      case_decide as Hkk; [subst k'; split; eauto|].
      rewrite <-Hiff. naive_solver.
    + done.
    + rewrite length_app. simpl. lia.
Qed.

Lemma fslice_inv_Delete k f : fslice_inv f → fslice_inv (FIFOSlice.Delete k f).
Proof.
  intros (Hnd & Hiff & Hpos & Hlen). unfold FIFOSlice.Delete.
  destruct (FIFOSlice.cache f !! k) as [old|] eqn:Hk; [|done].
  simpl. rewrite remove_first_filter by done.
  split_and!; simpl; [by apply filter_ne_NoDup| |done|].
  - intros k'. rewrite filter_ne_elem, lookup_delete, Hiff.
    case_decide; [subst; split; [naive_solver|by intros [? ?]]|naive_solver].
  - pose proof (length_filter (λ x, x ≠ k) (FIFOSlice.queue f)). lia.
Qed.

Lemma fslice_inv_Clear f : fslice_inv f → fslice_inv (FIFOSlice.Clear f).
Proof.
  intros (Hnd & Hiff & Hpos & Hlen). split_and!; simpl; [constructor| |lia|lia].
  intros k. rewrite lookup_empty, elem_of_nil. split; [done|]. by intros [? ?].
Qed.

Lemma fslice_inv_step o f :
  fslice_inv f → ∃ f', FIFOSlice.step o f = Some f' ∧ fslice_inv f'.
Proof.
  destruct o; simpl; eauto using fslice_inv_Set, fslice_inv_Delete, fslice_inv_Clear.
Qed.

(** No sequence of operations panics, and the invariant holds at its end. *)
Lemma fslice_inv_run ops f :
  fslice_inv f → ∃ f', FIFOSlice.run ops f = Some f' ∧ fslice_inv f'.
Proof.
  revert f. induction ops as [|o ops IH]; intros f Hf; [by exists f|].
  destruct (fslice_inv_step o f Hf) as (f1 & Hstep & Hf1).
  simpl. rewrite Hstep. simpl. by apply IH.
Qed.

Lemma fslice_capacity_step o f f' :
  FIFOSlice.step o f = Some f' → FIFOSlice.capacity f' = FIFOSlice.capacity f.
Proof.
  destruct o; simpl; try (by intros [= <-]).
  - unfold FIFOSlice.Set_. destruct (FIFOSlice.cache f !! key); [by intros [= <-]|].
    case_decide; [|by intros [= <-]].
    destruct (FIFOSlice.queue f); [done|by intros [= <-]].
  - unfold FIFOSlice.Delete. destruct (FIFOSlice.cache f !! key); by intros [= <-].
Qed.

Lemma fslice_capacity_run ops f f' :
  FIFOSlice.run ops f = Some f' → FIFOSlice.capacity f' = FIFOSlice.capacity f.
Proof.
  revert f. induction ops as [|o ops IH]; intros f; simpl; [by intros [= <-]|].
  destruct (FIFOSlice.step o f) as [f1|] eqn:Hstep; [|done]. simpl.
  intros Hrun. rewrite (IH _ Hrun). by eapply fslice_capacity_step.
Qed.
End fslice_facts.

(** ** [container/list] *)
Section clist_facts.
Context {A : Type}.
Implicit Types (l : CList.List A) (e x : nat).

Lemma clist_MoveToFront_order l e :
  e ∈ CList.order l → NoDup (CList.order l) →
  CList.order (CList.MoveToFront e l) = e :: filter (λ x, x ≠ e) (CList.order l).
Proof.
  intros Hin Hnd. unfold CList.MoveToFront.
  rewrite decide_True by done. case_decide as Hfront; [|done].
  unfold CList.Front in Hfront. apply head_Some in Hfront as [rest Hrest].
  rewrite Hrest in *. f_equal. symmetry. by apply filter_ne_head.
Qed.

Lemma clist_MoveToFront_elem l e x :
  x ∈ CList.order (CList.MoveToFront e l) ↔ x ∈ CList.order l.
Proof.
  unfold CList.MoveToFront. case_decide as Hin; [|done].
  case_decide; [done|]. simpl. rewrite elem_of_cons, filter_ne_elem.
  destruct (decide (x = e)); naive_solver.
Qed.

Lemma clist_MoveToFront_NoDup l e :
  NoDup (CList.order l) → NoDup (CList.order (CList.MoveToFront e l)).
Proof.
  intros Hnd. unfold CList.MoveToFront. case_decide as Hin; [|done].
  case_decide; [done|]. simpl. apply NoDup_cons. split.
  - rewrite filter_ne_elem. naive_solver.
  - by apply filter_ne_NoDup.
Qed.

Lemma clist_MoveToFront_Len l e :
  NoDup (CList.order l) → CList.Len (CList.MoveToFront e l) = CList.Len l.
Proof.
  intros Hnd. unfold CList.MoveToFront. case_decide as Hin; [|done].
  case_decide; [done|]. unfold CList.Len. simpl.
  by rewrite (filter_ne_length (CList.order l) e).
Qed.

Lemma clist_MoveToFront_Value l e x :
  CList.Value (CList.MoveToFront e l) x = CList.Value l x.
Proof. unfold CList.MoveToFront. by repeat case_decide. Qed.

Lemma clist_MoveToFront_fresh l e :
  CList.fresh (CList.MoveToFront e l) = CList.fresh l.
Proof. unfold CList.MoveToFront. by repeat case_decide. Qed.
End clist_facts.

(** ** LRU *)
Section lru_facts.
Context `{Countable K} {V : Type}.
Implicit Types (l : LRU.LRUCache K V) (c : gmap K nat)
  (lst : CList.List (LRU.entry K V)) (k : K) (v : V).

Lemma lru_link_empty lst0 : lru_link (V:=V) (∅ : gmap K nat) (CList.Init lst0).
Proof.
  split; simpl.
  - constructor.
  - by intros e ?%elem_of_nil.
  - intros k e. by rewrite lookup_empty.
  - by intros e ?%elem_of_nil.
Qed.

Lemma lru_link_MoveToFront c lst e :
  lru_link c lst → lru_link c (CList.MoveToFront e lst).
Proof.
  intros Hl. split.
  - apply clist_MoveToFront_NoDup, Hl.
  - intros x. rewrite clist_MoveToFront_elem, clist_MoveToFront_fresh. apply Hl.
  - intros k x Hk. rewrite clist_MoveToFront_elem, clist_MoveToFront_Value.
    by apply Hl.
  - intros x. rewrite clist_MoveToFront_elem, clist_MoveToFront_Value. apply Hl.
Qed.

Lemma lru_link_SetValue c lst k e v :
  lru_link c lst → c !! k = Some e →
  lru_link c (CList.SetValue e (LRU.mkEntry k v) lst).
Proof.
  intros Hl Hk. split; simpl; try apply Hl; unfold CList.Value; simpl.
  - intros k' e' Hk'. destruct (lru_index _ _ Hl _ _ Hk') as [Hin [v' Hv']].
    split; [done|]. rewrite lookup_insert. case_decide; [|by eauto].
    subst e'. destruct (lru_index _ _ Hl _ _ Hk) as [_ [v0 Hv0]].
    assert (k' = k) as -> by congruence. eauto.
  - intros e' He'. destruct (lru_listed _ _ Hl _ He') as (k' & v' & Hv' & Hc').
    rewrite lookup_insert. case_decide; [|by eauto].
    subst e'. destruct (lru_index _ _ Hl _ _ Hk) as [_ [v0 Hv0]].
    assert (k' = k) as -> by congruence. eauto.
Qed.

Lemma lru_link_remove c lst k e :
  lru_link c lst → c !! k = Some e →
  lru_link (delete k c) (CList.Remove e lst).
Proof.
  intros Hl Hk. split; simpl.
  - apply filter_ne_NoDup, Hl.
  - intros x [_ Hx]%filter_ne_elem. by apply Hl.
  - intros k' e'. rewrite lookup_delete. case_decide as Hkk; [done|].
    intros Hk'. destruct (lru_index _ _ Hl _ _ Hk') as [Hin [v' Hv']].
    split; [|by eauto]. apply filter_ne_elem. split; [|done].
    intros ->. destruct (lru_index _ _ Hl _ _ Hk) as [_ [v0 Hv0]].
    apply Hkk. congruence.
  - intros x [Hne Hx]%filter_ne_elem.
    destruct (lru_listed _ _ Hl _ Hx) as (k' & v' & Hv' & Hc').
    exists k', v'. split; [done|]. rewrite lookup_delete_ne; [done|].
    intros <-. congruence.
Qed.

Lemma lru_link_push c lst k v :
  lru_link c lst → c !! k = None →
  lru_link (<[k := CList.fresh lst]> c) (CList.PushFront (LRU.mkEntry k v) lst).2.
Proof.
  intros Hl Hk.
  assert (Hnin : CList.fresh lst ∉ CList.order lst).
  { intros Hin. apply (lru_fresh _ _ Hl) in Hin. lia. }
  split; simpl; unfold CList.Value; simpl.
  - apply NoDup_cons. split; [done|apply Hl].
  - intros e [->|He]%elem_of_cons; [lia|].
    apply (lru_fresh _ _ Hl) in He. lia.
  - intros k' e'. rewrite lookup_insert. case_decide as Hkk.
    + subst k'. intros [= <-]. rewrite lookup_insert_eq.
      split; [by left|by eauto].
    + intros Hk'. destruct (lru_index _ _ Hl _ _ Hk') as [Hin Hv].
      split; [by right|]. rewrite lookup_insert_ne; [done|].
      intros Heq. by rewrite <-Heq in Hin.
  - intros e [->|He]%elem_of_cons.
    + exists k, v. by rewrite !lookup_insert_eq.
    + destruct (lru_listed _ _ Hl e He) as (k' & v' & Hv' & Hc').
      exists k', v'. rewrite lookup_insert_ne by (intros <-; done).
      rewrite lookup_insert_ne by (intros <-; congruence). done.
Qed.

(** The overflow branch leaves room for one more element. *)
Lemma lru_overflow_spec l :
  lru_inv l →
  lru_link (LRU.overflow l).1 (LRU.overflow l).2 ∧
  CList.Len (LRU.overflow l).2 < LRU.capacity l ∧
  ((LRU.Len l < LRU.capacity l ∧ LRU.overflow l = (LRU.cache l, LRU.list l)) ∨
   (LRU.Len l = LRU.capacity l ∧
    ∃ rest backElem oldKey oldVal,
      CList.order (LRU.list l) = rest ++ [backElem] ∧
      CList.Value (LRU.list l) backElem = Some (LRU.mkEntry oldKey oldVal) ∧
      LRU.cache l !! oldKey = Some backElem ∧
      LRU.overflow l = (delete oldKey (LRU.cache l), CList.Remove backElem (LRU.list l)) ∧
      CList.order (CList.Remove backElem (LRU.list l)) = rest)).
Proof.
  intros (Hl & Hpos & Hlen). unfold LRU.overflow, LRU.Len in *.
  case_decide as Hfull; simpl.
  2: { split_and!; [done|lia|left; split; [lia|done]]. }
  unfold CList.Back, CList.Len in *.
  destruct (last (CList.order (LRU.list l))) as [backElem|] eqn:Hlast.
  2: { apply last_None in Hlast. rewrite Hlast in *. simpl in *. lia. }
  apply last_Some in Hlast as [rest Hord].
  destruct (lru_listed _ _ Hl backElem) as (oldKey & oldVal & Hv & Hc).
  { rewrite Hord. apply elem_of_app. right. by left. }
  rewrite Hv. simpl.
  assert (Hrest : CList.order (CList.Remove backElem (LRU.list l)) = rest).
  { simpl. rewrite Hord. apply filter_ne_last. rewrite <-Hord. apply Hl. }
  split_and!.
  - by apply lru_link_remove.
  - change (CList.Len (CList.Remove backElem (LRU.list l)) < LRU.capacity l).
    unfold CList.Len. rewrite Hrest. rewrite Hord, length_app in Hlen. simpl in *. lia.
  - right. split; [rewrite Hord, length_app in *; simpl in *; lia|].
    exists rest, backElem, oldKey, oldVal. done.
Qed.

Lemma lru_inv_New cap opts l : LRU.NewLRUCache cap opts = inl l → lru_inv l.
Proof.
  unfold LRU.NewLRUCache. case_decide; [done|]. intros [= <-].
  split_and!; simpl; [|lia|unfold LRU.Len, CList.Len; simpl; lia].
  apply (lru_link_empty CList.New).
Qed.

Lemma lru_inv_Get k l : lru_inv l → lru_inv (LRU.Get k l).2.
Proof.
  intros (Hl & Hpos & Hlen). unfold LRU.Get.
  destruct (LRU.cache l !! k) as [elem|] eqn:Hk; [|done].
  split_and!; simpl; [by apply lru_link_MoveToFront|done|].
  unfold LRU.Len in *. simpl. rewrite clist_MoveToFront_Len; [done|apply Hl].
Qed.

Lemma lru_inv_Set k v l : lru_inv l → lru_inv (LRU.Set_ k v l).
Proof.
  intros Hinv. pose proof Hinv as (Hl & Hpos & Hlen). unfold LRU.Set_.
  destruct (LRU.cache l !! k) as [elem|] eqn:Hk.
  - destruct (lru_index _ _ Hl _ _ Hk) as [Hin [v0 Hv0]]. rewrite Hv0. simpl.
    pose proof (lru_link_SetValue _ _ _ _ v Hl Hk) as Hl'.
    split_and!; simpl; [by apply lru_link_MoveToFront|done|].
    unfold LRU.Len in *. simpl. rewrite clist_MoveToFront_Len; [done|apply Hl'].
  - destruct (lru_overflow_spec l Hinv) as (Hl' & Hlen' & Hcase).
    destruct (LRU.overflow l) as [c lst] eqn:Hov. simpl in *.
    assert (Hck : c !! k = None).
    { destruct Hcase as [[_ [= -> ->]]|(_ & ? & ? & oldKey & ? & _ & _ & _ & [= -> ->] & _)];
        [done|]. rewrite lookup_delete. by case_decide. }
    split_and!; simpl; [by apply (lru_link_push c lst)|done|].
    unfold LRU.Len, CList.Len in *. simpl. lia.
Qed.

Lemma lru_inv_Delete k l : lru_inv l → lru_inv (LRU.Delete k l).
Proof.
  intros (Hl & Hpos & Hlen). unfold LRU.Delete.
  destruct (LRU.cache l !! k) as [elem|] eqn:Hk; [|done].
  split_and!; simpl; [by apply lru_link_remove|done|].
  unfold LRU.Len, CList.Len in *. simpl.
  pose proof (length_filter (λ x, x ≠ elem) (CList.order (LRU.list l))). lia.
Qed.

Lemma lru_inv_Clear l : lru_inv l → lru_inv (LRU.Clear l).
Proof.
  intros (Hl & Hpos & Hlen). split_and!; simpl; [apply lru_link_empty|done|].
  unfold LRU.Len, CList.Len. simpl. lia.
Qed.

Lemma lru_inv_step l o : lru_inv l → lru_inv (LRU.step l o).
Proof.
  destruct o; simpl;
    auto using lru_inv_Get, lru_inv_Set, lru_inv_Delete, lru_inv_Clear.
Qed.

Lemma lru_inv_run ops l : lru_inv l → lru_inv (LRU.run ops l).
Proof.
  revert l. induction ops as [|o ops IH]; intros l Hl; [done|].
  apply IH. by apply lru_inv_step.
Qed.

Lemma lru_capacity_step l o : LRU.capacity (LRU.step l o) = LRU.capacity l.
Proof.
  destruct o; simpl; try done.
  - unfold LRU.Get. by destruct (LRU.cache l !! k).
  - unfold LRU.Set_. destruct (LRU.cache l !! k); [done|].
    by destruct (LRU.overflow l).
  - unfold LRU.Delete. by destruct (LRU.cache l !! k).
Qed.

Lemma lru_capacity_run ops l : LRU.capacity (LRU.run ops l) = LRU.capacity l.
Proof.
  revert l. induction ops as [|o ops IH]; intros l; [done|].
  unfold LRU.run in *. simpl. by rewrite IH, lru_capacity_step.
Qed.
End lru_facts.


(** ** LFU *)
Section lfu_facts.
Context `{Countable K} {V : Type}.
Implicit Types (l : LFU.LFUCache K V) (c : gmap K (LFU.lfuNode V))
  (fm : gmap Z (list (nat * K))) (b : list (nat * K)) (k : K) (v : V).

Lemma bucket_remove_elem e b x :
  x ∈ LFU.bucket_remove e b ↔ x.1 ≠ e ∧ x ∈ b.
Proof. unfold LFU.bucket_remove. by rewrite list_elem_of_filter. Qed.

(** What [unlink] leaves in the frequency map. *)
Lemma lfu_unlink_lookup l f e oldList fm mf f' :
  LFU.freqMap l !! f = Some oldList →
  LFU.unlink f e l = Some (fm, mf) →
  fm !! f' =
    if decide (f' = f) then
      match LFU.bucket_remove e oldList with [] => None | b => Some b end
    else LFU.freqMap l !! f'.
Proof.
  intros Hf. unfold LFU.unlink. rewrite Hf.
  destruct (LFU.bucket_remove e oldList) as [|x b'] eqn:Hb; intros [= <- <-];
    destruct (decide (f' = f)) as [->|Hne].
  - by rewrite lookup_delete_eq.
  - by rewrite lookup_delete_ne.
  - by rewrite lookup_insert_eq.
  - by rewrite lookup_insert_ne.
Qed.

Lemma lfu_unlink_minFreq l f e oldList fm mf :
  LFU.freqMap l !! f = Some oldList →
  LFU.unlink f e l = Some (fm, mf) →
  mf = if decide (LFU.bucket_remove e oldList = [])
       then (if decide (f = LFU.minFreq l) then int_incr (LFU.minFreq l)
             else LFU.minFreq l)
       else LFU.minFreq l.
Proof.
  intros Hf. unfold LFU.unlink. rewrite Hf.
  destruct (LFU.bucket_remove e oldList) as [|x b'] eqn:Hb; intros [= <- <-].
  - by destruct (decide (@nil (nat * K) = [])).
  - by destruct (decide (x :: b' = [])).
Qed.

(** Detaching the node of [k] from its list and from the index. *)
Lemma lfu_link_unlink l k n :
  lfu_link (LFU.cache l) (LFU.freqMap l) (LFU.fresh l) →
  LFU.cache l !! k = Some n →
  ∃ fm mf, LFU.unlink (LFU.freq n) (LFU.elem n) l = Some (fm, mf) ∧
           lfu_link (delete k (LFU.cache l)) fm (LFU.fresh l).
Proof.
  intros Hl Hk. destruct (lfu_index _ _ _ Hl _ _ Hk) as (oldList & Hf & Hin).
  destruct (LFU.unlink (LFU.freq n) (LFU.elem n) l) as [[fm mf]|] eqn:Hun.
  2: { unfold LFU.unlink in Hun. rewrite Hf in Hun.
       by destruct (LFU.bucket_remove _ _). }
  exists fm, mf. split; [done|].
  pose proof (λ f', lfu_unlink_lookup l _ _ _ _ _ f' Hf Hun) as Hfm.
  assert (Hold : ∀ f' b, fm !! f' = Some b →
            ∃ b0, LFU.freqMap l !! f' = Some b0 ∧
                  ∀ x, x ∈ b ↔ x.1 ≠ LFU.elem n ∧ x ∈ b0 ∨ f' ≠ LFU.freq n ∧ x ∈ b0).
  { intros f' b. rewrite Hfm. case_decide as Hff.
    - subst f'. destruct (LFU.bucket_remove _ _) as [|y b'] eqn:Hb; [done|].
      intros [= <-]. exists oldList. split; [done|]. intros x.
      rewrite <-Hb, bucket_remove_elem. naive_solver.
    - intros Hb. exists b. split; [done|]. naive_solver. }
  split.
  - intros k' n'. rewrite lookup_delete. case_decide as Hkk; [done|]. intros Hk'.
    destruct (lfu_index _ _ _ Hl _ _ Hk') as (b & Hb & Hinb).
    rewrite Hfm. case_decide as Hff.
    + assert (b = oldList) as -> by congruence.
      assert (Hin' : (LFU.elem n', k') ∈ LFU.bucket_remove (LFU.elem n) oldList).
      { apply bucket_remove_elem. split; [|done]. simpl. intros Heq.
        apply Hkk. symmetry. by eapply (lfu_inj _ _ _ Hl). }
      destruct (LFU.bucket_remove _ _) as [|y b'] eqn:Hbr;
        [by apply elem_of_nil in Hin'|]. eauto.
    + eauto.
  - intros f' b e k' Hb Hinb. destruct (Hold _ _ Hb) as (b0 & Hb0 & Hiff).
    apply Hiff in Hinb.
    assert (Hin0 : (e, k') ∈ b0) by naive_solver.
    destruct (lfu_listed _ _ _ Hl _ _ _ _ Hb0 Hin0) as (n' & Hk' & Hfr & Hel).
    exists n'. split_and!; [|done..]. rewrite lookup_delete_ne; [done|].
    intros <-. assert (n' = n) as -> by congruence. naive_solver.
  - intros f' b. rewrite Hfm. case_decide.
    + by destruct (LFU.bucket_remove _ _); [|intros [= <-]].
    + apply Hl.
  - intros f' b. rewrite Hfm. case_decide.
    + destruct (LFU.bucket_remove _ _) eqn:Hbr; [done|]. intros [= <-].
      rewrite <-Hbr. apply NoDup_filter. by eapply (lfu_nodup _ _ _ Hl).
    + apply Hl.
  - intros k1 k2 n1 n2. rewrite !lookup_delete. repeat case_decide; try done.
    apply Hl.
  - intros k' n'. rewrite lookup_delete. case_decide; [done|]. apply Hl.
Qed.

(** Attaching a new node for [k] at the back of the list of [f]. *)
Lemma lfu_link_push c fm fr k v f :
  lfu_link c fm fr → c !! k = None →
  lfu_link (<[k := LFU.mkNode v f fr]> c) (LFU.bucket_push f fr k fm) (S fr).
Proof.
  intros Hl Hk. unfold LFU.bucket_push.
  assert (Hnew : ∀ b e, fm !! f = Some b → (e, k) ∉ b).
  { intros b e Hb Hin. destruct (lfu_listed _ _ _ Hl _ _ _ _ Hb Hin) as (? & ? & _).
    congruence. }
  split.
  - intros k' n'. rewrite lookup_insert. case_decide as Hkk.
    + subst k'. intros [= <-]. simpl. rewrite lookup_insert_eq.
      eexists. split; [done|]. apply elem_of_app. right. by left.
    + intros Hk'. destruct (lfu_index _ _ _ Hl _ _ Hk') as (b & Hb & Hin).
      destruct (decide (LFU.freq n' = f)) as [<-|Hne].
      * rewrite lookup_insert_eq, Hb. simpl. eexists. split; [done|].
        apply elem_of_app. by left.
      * rewrite lookup_insert_ne by done. eauto.
  - intros f' b e k'. rewrite lookup_insert. case_decide as Hff.
    + subst f'. intros [= <-].
      intros [Hin|[= -> ->]%list_elem_of_singleton]%elem_of_app.
      * destruct (fm !! f) as [b0|] eqn:Hb0; [|by apply elem_of_nil in Hin].
        simpl in Hin.
        destruct (lfu_listed _ _ _ Hl _ _ _ _ Hb0 Hin) as (n' & Hk' & Hfr & Hel).
        exists n'. rewrite lookup_insert_ne by congruence. done.
      * eexists. by rewrite lookup_insert_eq.
    + intros Hb Hin.
      destruct (lfu_listed _ _ _ Hl _ _ _ _ Hb Hin) as (n' & Hk' & Hfr & Hel).
      exists n'. rewrite lookup_insert_ne by congruence. done.
  - intros f' b. rewrite lookup_insert. case_decide; [|apply Hl].
    intros [= <-]. by destruct (default [] (fm !! f)).
  - intros f' b. rewrite lookup_insert. case_decide; [|apply Hl].
    intros [= <-]. apply NoDup_app. split_and!; [| |apply NoDup_singleton].
    + destruct (fm !! f) as [b0|] eqn:Hb0; [|constructor].
      by eapply (lfu_nodup _ _ _ Hl).
    + intros [e k'] Hin [= -> ->]%list_elem_of_singleton.
      destruct (fm !! f) as [b0|] eqn:Hb0; [|by apply elem_of_nil in Hin].
      by eapply Hnew.
  - intros k1 k2 n1 n2. rewrite !lookup_insert.
    repeat case_decide; subst; try done.
    + intros [= <-] Hk2 Heq. simpl in Heq.
      apply (lfu_fresh _ _ _ Hl) in Hk2. lia.
    + intros Hk1 [= <-] Heq. simpl in Heq.
      apply (lfu_fresh _ _ _ Hl) in Hk1. lia.
    + apply Hl.
  - intros k' n'. rewrite lookup_insert. case_decide.
    + intros [= <-]. simpl. lia.
    + intros Hk'. apply (lfu_fresh _ _ _ Hl) in Hk'. lia.
Qed.

(** Writing the value of a node touches no link. *)
Lemma lfu_link_value c fm fr k n v :
  lfu_link c fm fr → c !! k = Some n →
  lfu_link (<[k := LFU.mkNode v (LFU.freq n) (LFU.elem n)]> c) fm fr.
Proof.
  intros Hl Hk.
  assert (Hlk : ∀ k' n', <[k := LFU.mkNode v (LFU.freq n) (LFU.elem n)]> c !! k' = Some n' →
            ∃ n0, c !! k' = Some n0 ∧ LFU.freq n0 = LFU.freq n' ∧ LFU.elem n0 = LFU.elem n').
  { intros k' n'. rewrite lookup_insert. case_decide.
    - subst k'. intros [= <-]. eauto.
    - eauto. }
  split.
  - intros k' n' (n0 & Hk0 & <- & <-)%Hlk. by apply Hl.
  - intros f b e k' Hb Hin.
    destruct (lfu_listed _ _ _ Hl _ _ _ _ Hb Hin) as (n' & Hk' & Hfr & Hel).
    rewrite lookup_insert. case_decide; [|by eauto].
    subst k'. assert (n' = n) as -> by congruence. eauto.
  - apply Hl.
  - apply Hl.
  - intros k1 k2 n1 n2 (m1 & Hm1 & _ & <-)%Hlk (m2 & Hm2 & _ & <-)%Hlk.
    by apply Hl.
  - intros k' n' (n0 & Hk0 & _ & <-)%Hlk. by eapply Hl.
Qed.

(** [evict] on a list at [minFreq] is [unlink] for the node at its front,
    followed by the removal of that node from the index. *)
Lemma lfu_evict_unlink l e k rest :
  lfu_link (LFU.cache l) (LFU.freqMap l) (LFU.fresh l) →
  LFU.freqMap l !! LFU.minFreq l = Some ((e, k) :: rest) →
  ∃ n fm mf,
    LFU.cache l !! k = Some n ∧ LFU.freq n = LFU.minFreq l ∧ LFU.elem n = e ∧
    LFU.unlink (LFU.minFreq l) e l = Some (fm, mf) ∧
    LFU.evict l = LFU.mkLFU (delete k (LFU.cache l)) fm (LFU.minFreq l)
                            (LFU.capacity l) (LFU.fresh l).
Proof.
  intros Hl Hb.
  destruct (lfu_listed _ _ _ Hl _ _ e k Hb) as (n & Hk & Hfr & Hel); [by left|].
  assert (Hrm : LFU.bucket_remove e ((e, k) :: rest) = rest).
  { unfold LFU.bucket_remove. rewrite filter_cons_False by naive_solver.
    apply filter_Forall_id. apply Forall_forall. intros [e' k'] Hin. simpl.
    intros ->. pose proof (lfu_nodup _ _ _ Hl _ _ Hb) as [Hnin _]%NoDup_cons.
    destruct (lfu_listed _ _ _ Hl _ _ e k' Hb) as (n' & Hk' & _ & Hel');
      [by right|].
    assert (k' = k) as -> by (eapply (lfu_inj _ _ _ Hl); [done..|congruence]).
    done. }
  unfold LFU.unlink, LFU.evict. rewrite Hb, Hrm.
  exists n. destruct rest; eauto 10.
Qed.

Lemma lfu_bucket_push_is_Some fm f e k f' :
  is_Some (fm !! f') → is_Some (LFU.bucket_push f e k fm !! f').
Proof.
  unfold LFU.bucket_push. rewrite lookup_insert. by case_decide.
Qed.

Lemma lfu_inv_updateFreq k l n :
  lfu_inv l → LFU.cache l !! k = Some n →
  ∃ l', LFU.updateFreq k l = Some l' ∧ lfu_inv l'.
Proof.
  intros (Hl & Hpos & Hsize & Hmin) Hk. unfold LFU.updateFreq. rewrite Hk.
  destruct (lfu_index _ _ _ Hl _ _ Hk) as (oldList & Hf & Hin).
  destruct (lfu_link_unlink l k n Hl Hk) as (fm & mf & Hun & Hl').
  rewrite Hun. simpl. eexists. split; [done|].
  assert (Hsz : size (<[k := LFU.mkNode (LFU.value n) (int_incr (LFU.freq n)) (LFU.fresh l)]>
                        (LFU.cache l)) = size (LFU.cache l)).
  { by apply map_size_insert_Some. }
  split_and!; simpl.
  - rewrite <-insert_delete_eq. apply lfu_link_push; [done|].
    by rewrite lookup_delete_eq.
  - done.
  - by rewrite Hsz.
  - rewrite Hsz. intros Hfull%Hmin.
    rewrite (lfu_unlink_minFreq l _ _ _ _ _ Hf Hun).
    pose proof (lfu_unlink_lookup l _ _ _ _ _ (LFU.minFreq l) Hf Hun) as Hlk.
    destruct (decide (LFU.bucket_remove (LFU.elem n) oldList = [])) as [Hemp|Hne].
    + destruct (decide (LFU.freq n = LFU.minFreq l)) as [Heq|Hneq].
      * rewrite <-Heq. unfold LFU.bucket_push. by rewrite lookup_insert_eq.
      * apply lfu_bucket_push_is_Some. rewrite Hlk.
        by rewrite decide_False by done.
    + apply lfu_bucket_push_is_Some. rewrite Hlk. case_decide; [|done].
      by destruct (LFU.bucket_remove (LFU.elem n) oldList).
Qed.

Lemma lfu_inv_New cap l : LFU.NewLFUCache cap = inl l → lfu_inv l.
Proof.
  unfold LFU.NewLFUCache. case_decide; [done|]. intros [= <-].
  split_and!; simpl; [|lia|rewrite map_size_empty; lia|rewrite map_size_empty; lia].
  split; intros *; by rewrite ?lookup_empty.
Qed.

Lemma lfu_inv_Get k l :
  lfu_inv l → ∃ r l', LFU.Get k l = Some (r, l') ∧ lfu_inv l'.
Proof.
  intros Hinv. unfold LFU.Get.
  destruct (LFU.cache l !! k) as [n|] eqn:Hk; [|by eauto].
  destruct (lfu_inv_updateFreq k l n Hinv Hk) as (l' & -> & Hl'). simpl. eauto.
Qed.

(** At capacity [evict] removes exactly one node. *)
Lemma lfu_evict_full l :
  lfu_inv l → Z.of_nat (size (LFU.cache l)) = LFU.capacity l →
  ∃ e k rest,
    LFU.freqMap l !! LFU.minFreq l = Some ((e, k) :: rest) ∧
    is_Some (LFU.cache l !! k) ∧
    LFU.cache (LFU.evict l) = delete k (LFU.cache l) ∧
    S (size (LFU.cache (LFU.evict l))) = size (LFU.cache l) ∧
    LFU.fresh (LFU.evict l) = LFU.fresh l ∧
    LFU.capacity (LFU.evict l) = LFU.capacity l ∧
    lfu_link (LFU.cache (LFU.evict l)) (LFU.freqMap (LFU.evict l)) (LFU.fresh l).
Proof.
  intros (Hl & Hpos & Hsize & Hmin) Hfull.
  destruct (Hmin Hfull) as [b Hb].
  destruct b as [|[e k] rest]; [by apply (lfu_nonempty _ _ _ Hl) in Hb|].
  destruct (lfu_evict_unlink l e k rest Hl Hb) as (n & fm & mf & Hk & Hfr & Hel & Hun & Hev).
  destruct (lfu_link_unlink l k n Hl Hk) as (fm' & mf' & Hun' & Hl').
  rewrite Hfr, Hel, Hun in Hun'. injection Hun' as <- <-.
  exists e, k, rest. rewrite Hev. simpl. split_and!; try done.
  rewrite map_size_delete_Some by done.
  assert (size (LFU.cache l) ≠ 0%nat) by lia. lia.
Qed.

Lemma lfu_inv_Set k v l :
  lfu_inv l → ∃ l', LFU.Set_ k v l = Some l' ∧ lfu_inv l'.
Proof.
  intros Hinv. pose proof Hinv as (Hl & Hpos & Hsize & Hmin). unfold LFU.Set_.
  destruct (LFU.cache l !! k) as [n|] eqn:Hk.
  - apply (lfu_inv_updateFreq k _ (LFU.mkNode v (LFU.freq n) (LFU.elem n))).
    + split_and!; simpl; [by apply lfu_link_value|done|..];
        by rewrite map_size_insert_Some.
    + simpl. by rewrite lookup_insert_eq.
  - eexists. split; [done|]. case_decide as Hfull.
    + assert (Hfull' : Z.of_nat (size (LFU.cache l)) = LFU.capacity l) by lia.
      destruct (lfu_evict_full l Hinv Hfull')
        as (e & k0 & rest & Hb & Hk0 & Hc & Hsz & Hfr & Hcap & Hl').
      assert (Hnew : LFU.cache (LFU.evict l) !! k = None).
      { rewrite Hc, lookup_delete. by case_decide. }
      split_and!; simpl.
      * rewrite Hfr. by apply lfu_link_push.
      * by rewrite Hcap.
      * rewrite map_size_insert_None, Hcap by done. lia.
      * intros _. unfold LFU.bucket_push. by rewrite lookup_insert_eq.
    + split_and!; simpl.
      * by apply lfu_link_push.
      * done.
      * rewrite map_size_insert_None by done. lia.
      * intros _. unfold LFU.bucket_push. by rewrite lookup_insert_eq.
Qed.

Lemma lfu_inv_Delete k l :
  lfu_inv l → ∃ l', LFU.Delete k l = Some l' ∧ lfu_inv l'.
Proof.
  intros Hinv. pose proof Hinv as (Hl & Hpos & Hsize & Hmin). unfold LFU.Delete.
  destruct (LFU.cache l !! k) as [n|] eqn:Hk; [|by eauto].
  destruct (lfu_link_unlink l k n Hl Hk) as (fm & mf & -> & Hl'). simpl.
  eexists. split; [done|].
  assert (size (LFU.cache l) ≠ 0%nat).
  { intros Hz%map_size_empty_inv. by rewrite Hz, lookup_empty in Hk. }
  split_and!; simpl; [done|done|..]; rewrite map_size_delete_Some by done; lia.
Qed.

Lemma lfu_inv_Clear l : lfu_inv l → lfu_inv (LFU.Clear l).
Proof.
  intros (Hl & Hpos & Hsize & Hmin).
  split_and!; simpl; [|lia|rewrite map_size_empty; lia|rewrite map_size_empty; lia].
  split; intros *; by rewrite ?lookup_empty.
Qed.

Lemma lfu_inv_step o l :
  lfu_inv l → ∃ l', LFU.step o l = Some l' ∧ lfu_inv l'.
Proof.
  intros Hinv. destruct o as [k|k v|k| |]; simpl.
  - destruct (lfu_inv_Get k l Hinv) as (r & l' & -> & Hl'). simpl. eauto.
  - by apply lfu_inv_Set.
  - by apply lfu_inv_Delete.
  - eauto.
  - eauto using lfu_inv_Clear.
Qed.

(** No sequence of operations panics, and the invariant holds at its end. *)
Lemma lfu_inv_run ops l :
  lfu_inv l → ∃ l', LFU.run ops l = Some l' ∧ lfu_inv l'.
Proof.
  revert l. induction ops as [|o ops IH]; intros l Hl; [by exists l|].
  destruct (lfu_inv_step o l Hl) as (l1 & Hstep & Hl1).
  simpl. rewrite Hstep. simpl. by apply IH.
Qed.

Lemma lfu_capacity_updateFreq k l l' :
  LFU.updateFreq k l = Some l' → LFU.capacity l' = LFU.capacity l.
Proof.
  unfold LFU.updateFreq. destruct (LFU.cache l !! k) as [n|]; [|by intros [= <-]].
  destruct (LFU.unlink _ _ _) as [[fm mf]|]; [|done]. by intros [= <-].
Qed.

Lemma lfu_capacity_evict l : LFU.capacity (LFU.evict l) = LFU.capacity l.
Proof.
  unfold LFU.evict. destruct (LFU.freqMap l !! LFU.minFreq l) as [[|[e k] rest]|]; done.
Qed.

Lemma lfu_capacity_step o l l' :
  LFU.step o l = Some l' → LFU.capacity l' = LFU.capacity l.
Proof.
  destruct o as [k|k v|k| |]; simpl.
  - unfold LFU.Get. destruct (LFU.cache l !! k) as [n|]; [|by intros [= <-]].
    destruct (LFU.updateFreq k l) as [l1|] eqn:Hup; [|done].
    intros [= <-]. by apply lfu_capacity_updateFreq in Hup.
  - unfold LFU.Set_. destruct (LFU.cache l !! k) as [n|].
    + intros Hup%lfu_capacity_updateFreq. by rewrite Hup.
    + intros [= <-]. simpl. case_decide; [apply lfu_capacity_evict|done].
  - unfold LFU.Delete. destruct (LFU.cache l !! k) as [n|]; [|by intros [= <-]].
    destruct (LFU.unlink _ _ _) as [[fm mf]|]; [|done]. by intros [= <-].
  - by intros [= <-].
  - by intros [= <-].
Qed.

Lemma lfu_capacity_run ops l l' :
  LFU.run ops l = Some l' → LFU.capacity l' = LFU.capacity l.
Proof.
  revert l. induction ops as [|o ops IH]; intros l; simpl; [by intros [= <-]|].
  destruct (LFU.step o l) as [l1|] eqn:Hstep; [|done]. simpl.
  intros Hrun. rewrite (IH _ Hrun). by eapply lfu_capacity_step.
Qed.
End lfu_facts.




(** ** The list heap meets the contract of [container/heap] *)
Section list_heap.
Context {K : Type}.
Implicit Types (x y m : Heap.heapEntry K) (h r : list (Heap.heapEntry K)).

Lemma extract_min_spec x h m r :
  Heap.extract_min x h = (m, r) →
  x :: h ≡ₚ m :: r ∧
  Heap.expiration m ≤ Heap.expiration x ∧
  Forall (λ y, Heap.Less y m = false) r.
Proof.
  revert x m r. induction h as [|y h IH]; intros x m r; simpl.
  - intros [= <- <-]. split_and!; [done|lia|constructor].
  - destruct (Heap.extract_min y h) as [m' r'] eqn:Hmin.
    destruct (IH _ _ _ Hmin) as (Hperm & Hle & Hall).
    unfold Heap.Less in *. case_bool_decide as Hlt; intros [= <- <-].
    + split_and!; [by rewrite Hperm, Permutation_swap|lia|].
      constructor; [apply bool_decide_eq_false; lia|done].
    + split_and!; [by rewrite Hperm|lia|].
      constructor; [apply bool_decide_eq_false; lia|].
      eapply Forall_impl; [exact Hall|]. simpl. intros z Hz.
      apply bool_decide_eq_false in Hz. apply bool_decide_eq_false. lia.
Qed.

Lemma list_laws : Heap.Laws K (list (Heap.heapEntry K)).
Proof.
  split; simpl.
  - done.
  - done.
  - done.
  - intros [|x h]; by split.
  - intros [|x0 h] x h'; [done|]. intros [= Hmin].
    by destruct (extract_min_spec _ _ _ _ Hmin) as (Hperm & _ & Hall).
Qed.
End list_heap.

#[global] Existing Instance list_laws.

(** ** The Timed cache over any lawful heap *)
Section timed_facts.
Context `{Countable K} {V : Type} `{!Heap.Ops K HP} `{!Heap.Laws K HP}.
Implicit Types (t : Timed.TimedCache K V HP) (c : gmap K (Timed.timedEntry V))
  (h : HP) (k : K) (v : V) (x r : Heap.heapEntry K).

Lemma heap_Pop_elem h x h' r :
  Heap.Pop h = Some (x, h') → r ∈ Heap.Items h ↔ r = x ∨ r ∈ Heap.Items h'.
Proof.
  intros [Hperm _]%Heap.Pop_Some. by rewrite Hperm, elem_of_cons.
Qed.

Lemma heap_Pop_least h x h' r :
  Heap.Pop h = Some (x, h') → r ∈ Heap.Items h →
  Heap.expiration x ≤ Heap.expiration r.
Proof.
  intros Hpop Hr. pose proof Hpop as [_ Hall]%Heap.Pop_Some.
  apply (heap_Pop_elem _ _ _ _ Hpop) in Hr as [->|Hr]; [lia|].
  rewrite Forall_forall in Hall. apply Hall in Hr.
  unfold Heap.Less in Hr. apply bool_decide_eq_false in Hr. lia.
Qed.

Lemma heap_Pop_length h x h' :
  Heap.Pop h = Some (x, h') → length (Heap.Items h) = S (length (Heap.Items h')).
Proof. intros [Hperm _]%Heap.Pop_Some. by rewrite Hperm. Qed.

Lemma heap_Push_elem h x r :
  r ∈ Heap.Items (Heap.Push x h) ↔ r = x ∨ r ∈ Heap.Items h.
Proof. by rewrite Heap.Items_Push, elem_of_cons. Qed.

(** [reconcile] deletes at most the key of the record, and only when the
    record carries the key's current expiration. *)
Lemma reconcile_lookup x c k :
  Timed.reconcile x c !! k =
    match c !! k with
    | Some e =>
        if decide (k = Heap.key x ∧ Timed.expiration e = Heap.expiration x)
        then None else Some e
    | None => None
    end.
Proof.
  unfold Timed.reconcile.
  destruct (c !! Heap.key x) as [e0|] eqn:Hx.
  - case_decide as Hexp.
    + rewrite lookup_delete. case_decide as Hk.
      * subst k. rewrite Hx. by rewrite decide_True.
      * destruct (c !! k); [|done]. rewrite decide_False; [done|]. naive_solver.
    + destruct (c !! k) as [e|] eqn:Hk; [|done].
      rewrite decide_False; [done|]. intros [-> ?]. congruence.
  - destruct (c !! k) as [e|] eqn:Hk; [|done].
    rewrite decide_False; [done|]. intros [-> ?]. congruence.
Qed.

(** A stale record, one that does not carry the current expiration of an
    indexed key, is dropped without a change to the index. *)
Lemma reconcile_stale x c :
  (∀ e, c !! Heap.key x = Some e → Timed.expiration e ≠ Heap.expiration x) →
  Timed.reconcile x c = c.
Proof.
  intros Hstale. unfold Timed.reconcile.
  destruct (c !! Heap.key x) as [e|] eqn:Hx; [|done].
  rewrite decide_False; [done|]. by apply Hstale.
Qed.

Lemma reconcile_valid x c e :
  c !! Heap.key x = Some e → Timed.expiration e = Heap.expiration x →
  Timed.reconcile x c = delete (Heap.key x) c.
Proof.
  intros Hx Hexp. unfold Timed.reconcile. rewrite Hx. by rewrite decide_True.
Qed.

Lemma reconcile_subseteq x c : Timed.reconcile x c ⊆ c.
Proof.
  apply map_subseteq_spec. intros k e. rewrite reconcile_lookup.
  destruct (c !! k); [|done]. by case_decide.
Qed.

Lemma timed_link_pop c h x h' :
  timed_link c h → Heap.Pop h = Some (x, h') →
  timed_link (Timed.reconcile x c) h'.
Proof.
  intros Hl Hpop k e. rewrite reconcile_lookup.
  destruct (c !! k) as [e0|] eqn:Hk; [|done].
  case_decide as Hx; [done|]. intros [= <-].
  apply Hl in Hk. apply (heap_Pop_elem _ _ _ _ Hpop) in Hk as [Heq|Hin]; [|done].
  destruct Hx. by rewrite <-Heq.
Qed.

Lemma timed_link_empty_heap c h :
  timed_link c h → Heap.Items h = [] → c = ∅.
Proof.
  intros Hl Hemp. apply map_empty. intros k.
  destruct (c !! k) as [e|] eqn:Hk; [|done].
  apply Hl in Hk. rewrite Hemp in Hk. by apply elem_of_nil in Hk.
Qed.

Lemma live_reconcile now x c :
  Heap.expiration x ≤ now → live now (Timed.reconcile x c) = live now c.
Proof.
  intros Hx. apply map_eq. intros k. unfold live.
  apply option_eq. intros e. rewrite !map_lookup_filter_Some, reconcile_lookup. simpl.
  destruct (c !! k) as [e0|]; [|naive_solver].
  case_decide as Hd; [|done]. split; [naive_solver|].
  intros [[= ->] Hlt]. lia.
Qed.

Lemma live_all now c :
  (∀ k e, c !! k = Some e → now < Timed.expiration e) → live now c = c.
Proof.
  intros Hall. apply map_eq. intros k. unfold live.
  apply option_eq. intros e. rewrite map_lookup_filter_Some. simpl. naive_solver.
Qed.

(** The sweep, given as many turns as the heap has records: it ends with
    no record due at [now] left in the heap, keeps the link, and leaves
    in the index exactly the entries whose current expiration is after
    [now]. *)
Lemma cleanup_loop_spec now turns c h :
  timed_link c h → (length (Heap.Items h) ≤ turns)%nat →
  timed_link (Timed.cleanup_loop turns now c h).1 (Timed.cleanup_loop turns now c h).2 ∧
  (∀ r, r ∈ Heap.Items (Timed.cleanup_loop turns now c h).2 →
        r ∈ Heap.Items h ∧ now < Heap.expiration r) ∧
  (Timed.cleanup_loop turns now c h).1 = live now c.
Proof.
  revert c h. induction turns as [|turns IH]; intros c h Hl Hlen; simpl.
  - assert (Hemp : Heap.Items h = []) by (apply nil_length_inv; lia).
    split_and!; [done| |].
    + intros r. rewrite Hemp. by intros ?%elem_of_nil.
    + rewrite (timed_link_empty_heap c h Hl Hemp). unfold live.
      by rewrite map_filter_empty.
  - destruct (Heap.Pop h) as [[oldest h']|] eqn:Hpop.
    + case_decide as Hdue; simpl.
      * assert (Hall : ∀ r, r ∈ Heap.Items h → now < Heap.expiration r).
        { intros r Hr. pose proof (heap_Pop_least _ _ _ _ Hpop Hr). lia. }
        split_and!; [done|by auto|].
        symmetry. apply live_all. intros k e Hk. apply Hl in Hk.
        by apply Hall in Hk.
      * destruct (IH (Timed.reconcile oldest c) h') as (Hl' & Hh' & Hc').
        { by eapply timed_link_pop. }
        { apply heap_Pop_length in Hpop. lia. }
        split_and!; [done| |].
        -- intros r Hr. apply Hh' in Hr as [Hr ?]. split; [|done].
           apply (heap_Pop_elem _ _ _ _ Hpop). by right.
        -- rewrite Hc'. apply live_reconcile. lia.
    + simpl. apply Heap.Pop_None in Hpop.
      split_and!; [done| |].
      * intros r. rewrite Hpop. by intros ?%elem_of_nil.
      * rewrite (timed_link_empty_heap c h Hl Hpop). unfold live.
        by rewrite map_filter_empty.
Qed.

(** The records that the sweep leaves in the heap are those due after [now]. *)
Lemma cleanup_loop_items now turns c h :
  (length (Heap.Items h) ≤ turns)%nat →
  Heap.Items (Timed.cleanup_loop turns now c h).2 ≡ₚ
    filter (λ r, now < Heap.expiration r) (Heap.Items h).
Proof.
  revert c h. induction turns as [|turns IH]; intros c h Hlen; simpl.
  - assert (Hemp : Heap.Items h = []) by (apply nil_length_inv; lia).
    by rewrite Hemp.
  - destruct (Heap.Pop h) as [[oldest h']|] eqn:Hpop.
    + case_decide as Hdue; simpl.
      * rewrite filter_Forall_id; [done|]. apply Forall_forall. intros r Hr.
        pose proof (heap_Pop_least _ _ _ _ Hpop Hr). lia.
      * rewrite IH by (apply heap_Pop_length in Hpop; lia).
        pose proof Hpop as [Hperm _]%Heap.Pop_Some. rewrite Hperm.
        by rewrite filter_cons_False by lia.
    + simpl. apply Heap.Pop_None in Hpop. by rewrite Hpop.
Qed.

Lemma live_subseteq now c : live now c ⊆ c.
Proof. apply map_filter_subseteq. Qed.

Lemma cleanupExpired_spec now t :
  timed_inv t →
  timed_inv (Timed.cleanupExpired now t) ∧
  Timed.cache (Timed.cleanupExpired now t) = live now (Timed.cache t) ∧
  (∀ r, r ∈ Heap.Items (Timed.heap (Timed.cleanupExpired now t)) →
        r ∈ Heap.Items (Timed.heap t) ∧ now < Heap.expiration r) ∧
  Timed.capacity (Timed.cleanupExpired now t) = Timed.capacity t ∧
  Timed.defaultTTL (Timed.cleanupExpired now t) = Timed.defaultTTL t.
Proof.
  intros (Hl & Hpos & Hsize). unfold Timed.cleanupExpired.
  destruct (cleanup_loop_spec now (Heap.Len (Timed.heap t)) _ _ Hl) as (Hl' & Hh' & Hc').
  { by rewrite Heap.Len_Items. }
  destruct (Timed.cleanup_loop _ _ _ _) as [c' h']. simpl in *.
  split_and!; try done. split_and!; simpl; [done..|].
  rewrite Hc'. pose proof (map_subseteq_size _ _ (live_subseteq now (Timed.cache t))). lia.
Qed.

(** The overflow loop on a full index: it drops stale records until it
    meets a record that carries the current expiration of its key, and
    deletes that key, whose expiration no indexed entry precedes. *)
Lemma evict_loop_full turns cap c h :
  timed_link c h → (length (Heap.Items h) ≤ turns)%nat →
  0 < cap → Z.of_nat (size c) = cap →
  ∃ k e,
    c !! k = Some e ∧
    (∀ k' e', c !! k' = Some e' → Timed.expiration e ≤ Timed.expiration e') ∧
    (Timed.evict_loop turns cap c h).1 = delete k c ∧
    timed_link (delete k c) (Timed.evict_loop turns cap c h).2.
Proof.
  revert c h. induction turns as [|turns IH]; intros c h Hl Hlen Hpos Hfull.
  - assert (Hemp : Heap.Items h = []) by (apply nil_length_inv; lia).
    rewrite (timed_link_empty_heap c h Hl Hemp), map_size_empty in Hfull. lia.
  - simpl. rewrite decide_True by lia.
    destruct (Heap.Pop h) as [[oldest h']|] eqn:Hpop.
    2: { apply Heap.Pop_None in Hpop.
         rewrite (timed_link_empty_heap c h Hl Hpop), map_size_empty in Hfull. lia. }
    pose proof (timed_link_pop _ _ _ _ Hl Hpop) as Hl'.
    destruct (c !! Heap.key oldest) as [e|] eqn:Hk.
    + destruct (decide (Timed.expiration e = Heap.expiration oldest)) as [Hexp|Hexp].
      * rewrite (reconcile_valid _ _ _ Hk Hexp) in *.
        exists (Heap.key oldest), e. split_and!; [done| | |].
        -- intros k' e' Hk'. rewrite Hexp. apply Hl in Hk'.
           apply (heap_Pop_least _ _ _ _ Hpop Hk').
        -- destruct turns; simpl; [done|].
           rewrite decide_False; [done|].
           rewrite map_size_delete_Some by done.
           assert (size c ≠ 0%nat) by lia. lia.
        -- destruct turns; simpl; [done|].
           rewrite decide_False; [done|].
           rewrite map_size_delete_Some by done.
           assert (size c ≠ 0%nat) by lia. lia.
      * rewrite reconcile_stale in * by (intros e0; rewrite Hk; congruence).
        apply IH; try done. apply heap_Pop_length in Hpop. lia.
    + rewrite reconcile_stale in * by (intros e0; rewrite Hk; congruence).
      apply IH; try done. apply heap_Pop_length in Hpop. lia.
Qed.

(** Below capacity the overflow loop does nothing. *)
Lemma evict_loop_room turns cap c h :
  Z.of_nat (size c) < cap → Timed.evict_loop turns cap c h = (c, h).
Proof. intros Hroom. destruct turns; simpl; [done|]. by rewrite decide_False by lia. Qed.

Lemma timed_link_insert c h k v exp :
  timed_link c h →
  timed_link (<[k := Timed.mkEntry v exp]> c) (Heap.Push (Heap.mkHeapEntry k exp) h).
Proof.
  intros Hl k' e'. rewrite lookup_insert, heap_Push_elem. case_decide.
  - subst k'. intros [= <-]. by left.
  - intros Hk'. right. by apply Hl.
Qed.

Lemma timed_link_delete c h k : timed_link c h → timed_link (delete k c) h.
Proof.
  intros Hl k' e'. rewrite lookup_delete. case_decide; [done|]. apply Hl.
Qed.

Lemma timed_inv_New cap ttl t : Timed.NewTimedCache cap ttl = inl t → timed_inv t.
Proof.
  unfold Timed.NewTimedCache. repeat case_decide; try done. intros [= <-].
  split_and!; simpl; [|lia|rewrite map_size_empty; lia].
  intros k e. by rewrite lookup_empty.
Qed.

Lemma timed_inv_Get now1 now2 k t : timed_inv t → timed_inv (Timed.Get now1 now2 k t).2.
Proof.
  intros Hinv. unfold Timed.Get.
  destruct (cleanupExpired_spec now1 t Hinv) as ((Hl & Hpos & Hsize) & _).
  destruct (Timed.cache (Timed.cleanupExpired now1 t) !! k) as [e|] eqn:Hk; [|done].
  case_decide; [|done]. split_and!; simpl; [by apply timed_link_delete|done|].
  pose proof (map_subseteq_size _ _
    (delete_subseteq (Timed.cache (Timed.cleanupExpired now1 t)) k)). lia.
Qed.

Lemma timed_inv_SetWithTTL now1 now2 k v ttl t :
  timed_inv t → timed_inv (Timed.SetWithTTL now1 now2 k v ttl t).
Proof.
  intros Hinv. unfold Timed.SetWithTTL.
  destruct (cleanupExpired_spec now1 t Hinv) as ((Hl & Hpos & Hsize) & _).
  set (t1 := Timed.cleanupExpired now1 t) in *.
  destruct (Timed.cache t1 !! k) as [e|] eqn:Hk.
  - split_and!; simpl; [by apply timed_link_insert|done|].
    by rewrite map_size_insert_Some.
  - destruct (decide (Z.of_nat (size (Timed.cache t1)) = Timed.capacity t1)) as [Hfull|Hroom].
    + destruct (evict_loop_full (Heap.Len (Timed.heap t1)) (Timed.capacity t1)
                  (Timed.cache t1) (Timed.heap t1)) as (k0 & e0 & Hk0 & _ & Hc & Hl');
        [done|by rewrite Heap.Len_Items|done..|].
      destruct (Timed.evict_loop _ _ _ _) as [c h]. simpl in *. subst c.
      split_and!; simpl; [by apply timed_link_insert|done|].
      rewrite map_size_insert_None by (rewrite lookup_delete; by case_decide).
      rewrite map_size_delete_Some by done.
      assert (size (Timed.cache t1) ≠ 0%nat) by lia. lia.
    + rewrite evict_loop_room by lia.
      split_and!; simpl; [by apply timed_link_insert|done|].
      rewrite map_size_insert_None by done. lia.
Qed.

Lemma timed_inv_Delete k t : timed_inv t → timed_inv (Timed.Delete k t).
Proof.
  intros (Hl & Hpos & Hsize). split_and!; simpl; [by apply timed_link_delete|done|].
  pose proof (map_subseteq_size _ _ (delete_subseteq (Timed.cache t) k)). lia.
Qed.

Lemma timed_inv_Len now t : timed_inv t → timed_inv (Timed.Len now t).2.
Proof. intros Hinv. by apply cleanupExpired_spec. Qed.

Lemma timed_inv_Clear t : timed_inv t → timed_inv (Timed.Clear t).
Proof.
  intros (Hl & Hpos & Hsize). split_and!; simpl; [|done|rewrite map_size_empty; lia].
  intros k e. by rewrite lookup_empty.
Qed.

Lemma timed_inv_step t o : timed_inv t → timed_inv (Timed.step t o).
Proof.
  intros Hinv. destruct o.
  - by apply timed_inv_Get.
  - by apply timed_inv_SetWithTTL.
  - by apply timed_inv_SetWithTTL.
  - by apply timed_inv_Delete.
  - by apply timed_inv_Len.
  - by apply timed_inv_Clear.
Qed.

Lemma timed_inv_run ops t : timed_inv t → timed_inv (Timed.run ops t).
Proof.
  revert t. induction ops as [|o ops IH]; intros t Ht; [done|].
  apply IH. by apply timed_inv_step.
Qed.

Lemma timed_capacity_SetWithTTL now1 now2 k v ttl t :
  Timed.capacity (Timed.SetWithTTL now1 now2 k v ttl t) = Timed.capacity t.
Proof.
  unfold Timed.SetWithTTL, Timed.cleanupExpired.
  destruct (Timed.cleanup_loop _ _ _ _) as [c h]. simpl.
  destruct (c !! k); [done|]. by destruct (Timed.evict_loop _ _ _ _).
Qed.

Lemma timed_capacity_step t o : Timed.capacity (Timed.step t o) = Timed.capacity t.
Proof.
  destruct o; simpl; unfold Timed.Set_; rewrite ?timed_capacity_SetWithTTL; try done.
  - unfold Timed.Get, Timed.cleanupExpired.
    destruct (Timed.cleanup_loop _ _ _ _) as [c h]. simpl.
    destruct (c !! key); [|done]. by case_decide.
  - unfold Timed.cleanupExpired. by destruct (Timed.cleanup_loop _ _ _ _).
Qed.

Lemma timed_capacity_run ops t : Timed.capacity (Timed.run ops t) = Timed.capacity t.
Proof.
  revert t. induction ops as [|o ops IH]; intros t; [done|].
  unfold Timed.run in *. simpl. by rewrite IH, timed_capacity_step.
Qed.
End timed_facts.



(** * The stated properties *)

(** ** Construction *)

(** C8. Every constructor fails exactly when the capacity is not positive
    (the Timed one also exactly when the default TTL is not positive), and
    then returns an error and no cache; otherwise it returns a cache with no
    entries, length 0 and the requested capacity, on which the invariant of
    its policy holds, so that every operation is defined on it. *)
Theorem construction_validation `{Countable K} (V HP : Type) `{!Heap.Ops K HP}
    (capacity ttl : Z) (fopts : list FIFO.Option) (lopts : list LRU.LRUOption) :
  ((∃ e, FIFO.NewFIFOCache (K:=K) (V:=V) capacity fopts = inr e) ↔ capacity ≤ 0) ∧
  ((∃ e, FIFOSlice.NewFIFOCache (K:=K) (V:=V) capacity = inr e) ↔ capacity ≤ 0) ∧
  ((∃ e, LRU.NewLRUCache (K:=K) (V:=V) capacity lopts = inr e) ↔ capacity ≤ 0) ∧
  ((∃ e, LFU.NewLFUCache (K:=K) (V:=V) capacity = inr e) ↔ capacity ≤ 0) ∧
  ((∃ e, Timed.NewTimedCache (K:=K) (V:=V) (HP:=HP) capacity ttl = inr e)
     ↔ capacity ≤ 0 ∨ ttl ≤ 0) ∧
  (0 < capacity →
     (∃ f, FIFO.NewFIFOCache (K:=K) (V:=V) capacity fopts = inl f ∧
           FIFO.cache f = ∅ ∧ FIFO.Len f = 0 ∧ FIFO.capacity f = capacity ∧ fifo_inv f) ∧
     (∃ f, FIFOSlice.NewFIFOCache (K:=K) (V:=V) capacity = inl f ∧
           FIFOSlice.cache f = ∅ ∧ FIFOSlice.Len f = 0 ∧
           FIFOSlice.capacity f = capacity ∧ fslice_inv f) ∧
     (∃ l, LRU.NewLRUCache (K:=K) (V:=V) capacity lopts = inl l ∧
           LRU.cache l = ∅ ∧ LRU.Len l = 0 ∧ LRU.capacity l = capacity ∧ lru_inv l) ∧
     (∃ l, LFU.NewLFUCache (K:=K) (V:=V) capacity = inl l ∧
           LFU.cache l = ∅ ∧ LFU.Len l = 0 ∧ LFU.capacity l = capacity ∧ lfu_inv l) ∧
     (0 < ttl →
      ∃ t, Timed.NewTimedCache (K:=K) (V:=V) (HP:=HP) capacity ttl = inl t ∧
           Timed.cache t = ∅ ∧ Timed.capacity t = capacity ∧
           Timed.defaultTTL t = ttl ∧ timed_inv t)).
Proof.
  unfold FIFO.NewFIFOCache, FIFOSlice.NewFIFOCache, LRU.NewLRUCache,
    LFU.NewLFUCache, Timed.NewTimedCache.
  split_and!.
  - case_decide; split; try done; [by eauto|by intros [? ?]].
  - case_decide; split; try done; [by eauto|by intros [? ?]].
  - case_decide; split; try done; [by eauto|by intros [? ?]].
  - case_decide; split; try done; [by eauto|by intros [? ?]].
  - repeat case_decide; split; try (by eauto); try (by intros [? ?]); lia.
  - intros Hpos. rewrite !decide_False by lia. split_and!.
    + eexists. split; [done|]. split_and!; try done.
      apply (fifo_inv_New capacity fopts). unfold FIFO.NewFIFOCache.
      by rewrite decide_False by lia.
    + eexists. split; [done|]. split_and!; try done.
      apply (fslice_inv_New capacity). unfold FIFOSlice.NewFIFOCache.
      by rewrite decide_False by lia.
    + eexists. split; [done|]. split_and!; try done.
      apply (lru_inv_New capacity lopts). unfold LRU.NewLRUCache.
      by rewrite decide_False by lia.
    + eexists. split; [done|]. split_and!; try done.
      apply (lfu_inv_New capacity). unfold LFU.NewLFUCache.
      by rewrite decide_False by lia.
    + intros Httl. rewrite decide_False by lia.
      eexists. split; [done|]. split_and!; try done.
      apply (timed_inv_New capacity ttl). unfold Timed.NewTimedCache.
      by rewrite !decide_False by lia.
Qed.

(** C8 at capacity 2 and a default TTL of 50: all five constructors succeed. *)
Lemma construction_validation_witness :
  (∃ f, FIFO.NewFIFOCache (K:=Z) (V:=nat) 2 [] = inl f ∧ fifo_inv f) ∧
  (∃ t, Timed.NewTimedCache (K:=Z) (V:=nat) (HP:=list (Heap.heapEntry Z)) 2 50 = inl t ∧
        timed_inv t).
Proof.
  destruct (construction_validation (K:=Z) nat (list (Heap.heapEntry Z)) 2 50 [] [])
    as (_ & _ & _ & _ & _ & Hok).
  destruct Hok as ((f & Hf & _ & _ & _ & Hinv) & _ & _ & _ & Ht); [lia|].
  destruct Ht as (t & Ht & _ & _ & _ & Htinv); [lia|].
  split; [by exists f|by exists t].
Defined.

(** ** Capacity *)

(** C1. Whatever the policy, after any sequence of operations that ends in
    a [Set] on a cache constructed with capacity [C], [Len] reports at most
    [C] entries. The sequences of the slice-backed FIFO cache and of the
    LFU cache, whose operations can panic in the model, run to the end. *)
Theorem capacity_invariant `{Countable K} (V HP : Type)
    `{!Heap.Ops K HP} `{!Heap.Laws K HP} (C : Z) :
  (∀ opts f ops k v,
     FIFO.NewFIFOCache (K:=K) (V:=V) C opts = inl f →
     FIFO.Len (FIFO.run (ops ++ [FIFO.OSet k v]) f) ≤ C) ∧
  (∀ f ops k v,
     FIFOSlice.NewFIFOCache (K:=K) (V:=V) C = inl f →
     ∃ f', FIFOSlice.run (ops ++ [FIFOSlice.OSet k v]) f = Some f' ∧
           FIFOSlice.Len f' ≤ C) ∧
  (∀ opts l ops k v,
     LRU.NewLRUCache (K:=K) (V:=V) C opts = inl l →
     LRU.Len (LRU.run (ops ++ [LRU.OSet k v]) l) ≤ C) ∧
  (∀ l ops k v,
     LFU.NewLFUCache (K:=K) (V:=V) C = inl l →
     ∃ l', LFU.run (ops ++ [LFU.OSet k v]) l = Some l' ∧ LFU.Len l' ≤ C) ∧
  (∀ ttl t ops now1 now2 k v now,
     Timed.NewTimedCache (K:=K) (V:=V) (HP:=HP) C ttl = inl t →
     (Timed.Len now (Timed.run (ops ++ [Timed.OSet now1 now2 k v]) t)).1 ≤ C) ∧
  (∀ ttl t ops now1 now2 k v d now,
     Timed.NewTimedCache (K:=K) (V:=V) (HP:=HP) C ttl = inl t →
     (Timed.Len now (Timed.run (ops ++ [Timed.OSetWithTTL now1 now2 k v d]) t)).1 ≤ C).
Proof.
  assert (Htimed : ∀ ttl t ops now,
     Timed.NewTimedCache (K:=K) (V:=V) (HP:=HP) C ttl = inl t →
     (Timed.Len now (Timed.run ops t)).1 ≤ C).
  { intros ttl t ops now Hnew.
    assert (Hcap : Timed.capacity t = C).
    { unfold Timed.NewTimedCache in Hnew. repeat case_decide; try done.
      by injection Hnew as <-. }
    pose proof (timed_inv_run ops t (timed_inv_New _ _ _ Hnew)) as Hinv.
    destruct (cleanupExpired_spec now _ Hinv) as ((_ & _ & Hsize) & _ & _ & Hc & _).
    simpl. rewrite Hc, timed_capacity_run, Hcap in Hsize. done. }
  split_and!.
  - intros opts f ops k v Hnew.
    assert (Hcap : FIFO.capacity f = C).
    { unfold FIFO.NewFIFOCache in Hnew. case_decide; [done|]. by injection Hnew as <-. }
    pose proof (fifo_inv_run (ops ++ [FIFO.OSet k v]) f (fifo_inv_New _ _ _ Hnew))
      as (_ & _ & Hlen).
    by rewrite fifo_capacity_run, Hcap in Hlen.
  - intros f ops k v Hnew.
    assert (Hcap : FIFOSlice.capacity f = C).
    { unfold FIFOSlice.NewFIFOCache in Hnew. case_decide; [done|]. by injection Hnew as <-. }
    destruct (fslice_inv_run (ops ++ [FIFOSlice.OSet k v]) f (fslice_inv_New _ _ Hnew))
      as (f' & Hrun & Hinv).
    exists f'. split; [done|]. unfold FIFOSlice.Len.
    rewrite (fslice_size f' Hinv). destruct Hinv as (_ & _ & _ & Hlen).
    by rewrite (fslice_capacity_run _ _ _ Hrun), Hcap in Hlen.
  - intros opts l ops k v Hnew.
    assert (Hcap : LRU.capacity l = C).
    { unfold LRU.NewLRUCache in Hnew. case_decide; [done|]. by injection Hnew as <-. }
    pose proof (lru_inv_run (ops ++ [LRU.OSet k v]) l (lru_inv_New _ _ _ Hnew))
      as (_ & _ & Hlen).
    by rewrite lru_capacity_run, Hcap in Hlen.
  - intros l ops k v Hnew.
    assert (Hcap : LFU.capacity l = C).
    { unfold LFU.NewLFUCache in Hnew. case_decide; [done|]. by injection Hnew as <-. }
    destruct (lfu_inv_run (ops ++ [LFU.OSet k v]) l (lfu_inv_New _ _ Hnew))
      as (l' & Hrun & (_ & _ & Hsize & _)).
    exists l'. split; [done|]. unfold LFU.Len.
    by rewrite (lfu_capacity_run _ _ _ Hrun), Hcap in Hsize.
  - intros ttl t ops now1 now2 k v now Hnew. by eapply Htimed.
  - intros ttl t ops now1 now2 k v d now Hnew. by eapply Htimed.
Qed.

(** C1 at capacity 2, after three insertions of distinct keys. *)
Lemma capacity_invariant_witness :
  FIFO.Len (FIFO.run ([FIFO.OSet 1 10%nat; FIFO.OSet 2 20%nat] ++ [FIFO.OSet 3 30%nat])
                     (FIFO.mkFIFO (K:=Z) ∅ CList.New 2 true)) ≤ 2 ∧
  (Timed.Len 5 (Timed.run ([Timed.OSet 0 0 1 10%nat; Timed.OSet 1 1 2 20%nat] ++
                           [Timed.OSetWithTTL 2 2 3 30%nat 7])
                          (Timed.mkTimed (K:=Z) ∅ ([] : list (Heap.heapEntry Z)) 2 50))).1 ≤ 2.
Proof.
  destruct (capacity_invariant (K:=Z) nat (list (Heap.heapEntry Z)) 2)
    as (Hfifo & _ & _ & _ & _ & Htimed).
  split.
  - apply (Hfifo []). reflexivity.
  - apply (Htimed 50). reflexivity.
Defined.

(** ** The Timed cache *)

(** The stored expiration is the sum when the sum is an [int64]. *)
Lemma expire_at_in_range (now ttl : Z) :
  int_min ≤ now + ttl → now + ttl ≤ int_max → Timed.expire_at now ttl = now + ttl.
Proof.
  unfold Timed.expire_at, wrap_int, int_min, int_max. intros Hlo Hhi.
  rewrite Z.mod_small; lia.
Qed.

(** Past the largest [int64] the stored expiration is negative, whatever
    [int64] instant and duration were added. *)
Lemma expire_at_overflow (now ttl : Z) :
  now ≤ int_max → ttl ≤ int_max → int_max < now + ttl →
  Timed.expire_at now ttl = now + ttl - 2 ^ 64 ∧ Timed.expire_at now ttl < 0.
Proof.
  unfold Timed.expire_at, wrap_int, int_max. intros Hn Hd Hsum.
  assert (Hmod : (now + ttl + 2 ^ 63) mod 2 ^ 64 = now + ttl + 2 ^ 63 - 2 ^ 64).
  { symmetry. apply (Z.mod_unique _ _ 1); lia. }
  rewrite Hmod. lia.
Qed.

Section timed_claims.
Context `{Countable K} {V : Type} `{!Heap.Ops K HP} `{!Heap.Laws K HP}.
Implicit Types (t : Timed.TimedCache K V HP) (k : K) (v : V).

Lemma timed_defaultTTL_step t o : Timed.defaultTTL (Timed.step t o) = Timed.defaultTTL t.
Proof.
  assert (Hset : ∀ now1 now2 k v ttl,
    Timed.defaultTTL (Timed.SetWithTTL now1 now2 k v ttl t) = Timed.defaultTTL t).
  { intros. unfold Timed.SetWithTTL, Timed.cleanupExpired.
    destruct (Timed.cleanup_loop _ _ _ _) as [c h]. simpl.
    destruct (c !! k); [done|]. by destruct (Timed.evict_loop _ _ _ _). }
  destruct o; simpl; unfold Timed.Set_; rewrite ?Hset; try done.
  - unfold Timed.Get, Timed.cleanupExpired.
    destruct (Timed.cleanup_loop _ _ _ _) as [c h]. simpl.
    destruct (c !! key); [|done]. by case_decide.
  - unfold Timed.cleanupExpired. by destruct (Timed.cleanup_loop _ _ _ _).
Qed.

Lemma timed_defaultTTL_run ops t :
  Timed.defaultTTL (Timed.run ops t) = Timed.defaultTTL t.
Proof.
  revert t. induction ops as [|o ops IH]; intros t; [done|].
  unfold Timed.run in *. simpl. by rewrite IH, timed_defaultTTL_step.
Qed.

Lemma timed_reached (C ttl : Z) (t0 : Timed.TimedCache K V HP) (ops : list (Timed.op K V)) :
  Timed.NewTimedCache C ttl = inl t0 →
  timed_inv (Timed.run ops t0) ∧
  Timed.capacity (Timed.run ops t0) = C ∧
  Timed.defaultTTL (Timed.run ops t0) = ttl ∧ 0 < ttl.
Proof.
  intros Hnew. split; [apply timed_inv_run; by eapply timed_inv_New|].
  rewrite timed_capacity_run, timed_defaultTTL_run.
  unfold Timed.NewTimedCache in Hnew. repeat case_decide; try done.
  injection Hnew as <-. simpl. split_and!; [done..|lia].
Qed.


(** What [Get] does in terms of the index before the call: the sweep at
    [now1] leaves the live entries, then the requested key is looked up
    among them and checked against [now2]. *)
Lemma timed_Get_spec now1 now2 k t :
  timed_inv t →
  Timed.Get now1 now2 k t =
    let t1 := Timed.cleanupExpired now1 t in
    match live now1 (Timed.cache t) !! k with
    | None => (None, t1)
    | Some e =>
        if decide (Timed.expiration e < now2)
        then (None, Timed.mkTimed (delete k (live now1 (Timed.cache t))) (Timed.heap t1)
                                  (Timed.capacity t1) (Timed.defaultTTL t1))
        else (Some (Timed.value e), t1)
    end.
Proof.
  intros Hinv. destruct (cleanupExpired_spec now1 t Hinv) as (_ & Hc & _).
  unfold Timed.Get. simpl. by rewrite Hc.
Qed.

Lemma timed_Get_live now1 now2 k e t :
  timed_inv t → Timed.cache t !! k = Some e →
  now1 < Timed.expiration e → now2 < Timed.expiration e →
  (Timed.Get now1 now2 k t).1 = Some (Timed.value e).
Proof.
  intros Hinv Hk Hm1 Hm2. rewrite timed_Get_spec by done. simpl.
  assert (Hlive : live now1 (Timed.cache t) !! k = Some e).
  { unfold live. by apply map_lookup_filter_Some. }
  rewrite Hlive. by rewrite decide_False by lia.
Qed.

(** The sweep removes an entry due at [now1] or before, [Get]'s own check
    only an entry due before [now2]: when the clock moves from before the
    expiration to exactly the expiration between the two readings, the entry
    is still returned. *)
Lemma timed_Get_boundary now1 k e t :
  timed_inv t → Timed.cache t !! k = Some e →
  now1 < Timed.expiration e →
  (Timed.Get now1 (Timed.expiration e) k t).1 = Some (Timed.value e).
Proof.
  intros Hinv Hk Hm1. rewrite timed_Get_spec by done. simpl.
  assert (Hlive : live now1 (Timed.cache t) !! k = Some e).
  { unfold live. by apply map_lookup_filter_Some. }
  rewrite Hlive. by rewrite decide_False by lia.
Qed.

Lemma timed_Get_expired now1 now2 k e t :
  timed_inv t → Timed.cache t !! k = Some e →
  Timed.expiration e ≤ now1 →
  (Timed.Get now1 now2 k t).1 = None ∧
  Timed.cache (Timed.Get now1 now2 k t).2 !! k = None.
Proof.
  intros Hinv Hk Hm1. rewrite timed_Get_spec by done. simpl.
  assert (Hdead : live now1 (Timed.cache t) !! k = None).
  { unfold live. apply map_lookup_filter_None. right. intros e' Hk'. simpl.
    assert (e' = e) as -> by congruence. lia. }
  rewrite Hdead. simpl. split; [done|].
  destruct (cleanupExpired_spec now1 t Hinv) as (_ & -> & _). done.
Qed.

Lemma timed_SetWithTTL_lookup now1 now2 k v ttl t :
  Timed.cache (Timed.SetWithTTL now1 now2 k v ttl t) !! k
    = Some (Timed.mkEntry v (Timed.expire_at now2 ttl)).
Proof.
  unfold Timed.SetWithTTL.
  destruct (Timed.cache (Timed.cleanupExpired now1 t) !! k).
  - simpl. by rewrite lookup_insert_eq.
  - destruct (Timed.evict_loop _ _ _ _). simpl. by rewrite lookup_insert_eq.
Qed.

Lemma timed_SetWithTTL_items now1 now2 k v ttl t r :
  timed_inv t →
  r ∈ Heap.Items (Timed.heap (Timed.SetWithTTL now1 now2 k v ttl t)) →
  r = Heap.mkHeapEntry k (Timed.expire_at now2 ttl) ∨
  (r ∈ Heap.Items (Timed.heap t) ∧ now1 < Heap.expiration r).
Proof.
  intros Hinv. destruct (cleanupExpired_spec now1 t Hinv) as (Hinv1 & _ & Hitems & _).
  unfold Timed.SetWithTTL. set (t1 := Timed.cleanupExpired now1 t) in *.
  destruct (Timed.cache t1 !! k).
  - simpl. rewrite heap_Push_elem. intros [->|Hr]; [by left|right; by apply Hitems].
  - assert (Hsub : ∀ turns cap (c : gmap K (Timed.timedEntry V)) (h : HP) x,
              x ∈ Heap.Items (Timed.evict_loop turns cap c h).2 → x ∈ Heap.Items h).
    { induction turns as [|turns IH]; intros cap c h x; simpl; [done|].
      case_decide; [|done]. destruct (Heap.Pop h) as [[oldest h']|] eqn:Hpop; [|done].
      intros Hx%IH. apply (heap_Pop_elem _ _ _ _ Hpop). by right. }
    destruct (Timed.evict_loop _ _ _ _) as [c h] eqn:Hev. simpl.
    rewrite heap_Push_elem. intros [->|Hr]; [by left|right].
    apply Hitems. eapply (Hsub _ _ _ _ r). by rewrite Hev.
Qed.

(** C4. Lazy expiry on a cache reached from its constructor by any
    sequence of operations. An entry whose expiration lies after both clock
    readings of a [Get] is returned with its value; an entry whose
    expiration is at or before the first clock reading of a [Get] is not
    found and is gone from the index afterwards, without any other call. An
    entry stored by [SetWithTTL] at clock reading [n2] with TTL [d] is such
    an entry; its expiration is the [int64] that [n2 + d] wraps to, which is
    [n2 + d] itself whenever that sum is an [int64]. [Set] is [SetWithTTL]
    with the TTL given to the constructor, and stores such an entry too.
    [Get], [Len], [SetWithTTL] and [Set] sweep first: [Get] and [Len] answer
    from the live entries and leave in the heap exactly the records due
    after [now]; after [SetWithTTL] and after [Set] the heap holds, besides
    the new record, only records due after [now]. *)
Theorem timed_lazy_expiry (C ttl0 : Z) (t0 : Timed.TimedCache K V HP)
    (ops : list (Timed.op K V)) :
  Timed.NewTimedCache C ttl0 = inl t0 →
  let t := Timed.run ops t0 in
  (∀ k e m1 m2, Timed.cache t !! k = Some e →
     (m1 < Timed.expiration e → m2 < Timed.expiration e →
      (Timed.Get m1 m2 k t).1 = Some (Timed.value e)) ∧
     (Timed.expiration e ≤ m1 →
      (Timed.Get m1 m2 k t).1 = None ∧
      Timed.cache (Timed.Get m1 m2 k t).2 !! k = None)) ∧
  (∀ n1 n2 k v d m1 m2,
     let t' := Timed.SetWithTTL n1 n2 k v d t in
     let e := Timed.expire_at n2 d in
     Timed.cache t' !! k = Some (Timed.mkEntry v e) ∧
     (int_min ≤ n2 + d → n2 + d ≤ int_max → e = n2 + d) ∧
     (m1 < e → m2 < e → (Timed.Get m1 m2 k t').1 = Some v) ∧
     (e ≤ m1 →
      (Timed.Get m1 m2 k t').1 = None ∧
      Timed.cache (Timed.Get m1 m2 k t').2 !! k = None)) ∧
  (∀ n1 n2 k v m1 m2,
     let t' := Timed.Set_ n1 n2 k v t in
     let e := Timed.expire_at n2 ttl0 in
     t' = Timed.SetWithTTL n1 n2 k v ttl0 t ∧
     Timed.cache t' !! k = Some (Timed.mkEntry v e) ∧
     (int_min ≤ n2 → n2 + ttl0 ≤ int_max → e = n2 + ttl0) ∧
     (m1 < e → m2 < e → (Timed.Get m1 m2 k t').1 = Some v) ∧
     (e ≤ m1 →
      (Timed.Get m1 m2 k t').1 = None ∧
      Timed.cache (Timed.Get m1 m2 k t').2 !! k = None)) ∧
  (∀ now1 now2 k,
     Heap.Items (Timed.heap (Timed.Get now1 now2 k t).2) ≡ₚ
       filter (λ r, now1 < Heap.expiration r) (Heap.Items (Timed.heap t)) ∧
     (Timed.Get now1 now2 k t).1 =
       match live now1 (Timed.cache t) !! k with
       | Some e => if decide (Timed.expiration e < now2) then None
                   else Some (Timed.value e)
       | None => None
       end) ∧
  (∀ now,
     Heap.Items (Timed.heap (Timed.Len now t).2) ≡ₚ
       filter (λ r, now < Heap.expiration r) (Heap.Items (Timed.heap t)) ∧
     (Timed.Len now t).1 = Z.of_nat (size (live now (Timed.cache t)))) ∧
  (∀ now1 now2 k v d r,
     r ∈ Heap.Items (Timed.heap (Timed.SetWithTTL now1 now2 k v d t)) →
     r = Heap.mkHeapEntry k (Timed.expire_at now2 d) ∨
     (r ∈ Heap.Items (Timed.heap t) ∧ now1 < Heap.expiration r)) ∧
  (∀ now1 now2 k v r,
     r ∈ Heap.Items (Timed.heap (Timed.Set_ now1 now2 k v t)) →
     r = Heap.mkHeapEntry k (Timed.expire_at now2 ttl0) ∨
     (r ∈ Heap.Items (Timed.heap t) ∧ now1 < Heap.expiration r)).
Proof.
  intros Hnew t.
  destruct (timed_reached C ttl0 t0 ops Hnew) as (Hinv & _ & Httl & Hpos).
  fold t in Hinv, Httl.
  assert (Hsweep : ∀ now,
    Heap.Items (Timed.heap (Timed.cleanupExpired now t)) ≡ₚ
      filter (λ r, now < Heap.expiration r) (Heap.Items (Timed.heap t))).
  { intros now. unfold Timed.cleanupExpired.
    pose proof (cleanup_loop_items now (Heap.Len (Timed.heap t)) (Timed.cache t)
                  (Timed.heap t)) as Hitems.
    destruct (Timed.cleanup_loop _ _ _ _) as [c h]. simpl in *.
    apply Hitems. by rewrite Heap.Len_Items. }
  assert (Hstore : ∀ n1 n2 k v d m1 m2,
    let t' := Timed.SetWithTTL n1 n2 k v d t in
    let e := Timed.expire_at n2 d in
    Timed.cache t' !! k = Some (Timed.mkEntry v e) ∧
    (m1 < e → m2 < e → (Timed.Get m1 m2 k t').1 = Some v) ∧
    (e ≤ m1 →
     (Timed.Get m1 m2 k t').1 = None ∧
     Timed.cache (Timed.Get m1 m2 k t').2 !! k = None)).
  { intros n1 n2 k v d m1 m2 t' e.
    assert (Hinv' : timed_inv t') by by apply timed_inv_SetWithTTL.
    pose proof (timed_SetWithTTL_lookup n1 n2 k v d t) as Hk.
    split_and!; [done| |].
    - intros Hm1 Hm2. by rewrite (timed_Get_live m1 m2 k _ t' Hinv' Hk).
    - intros Hm1. by apply (timed_Get_expired m1 m2 k _ t' Hinv' Hk). }
  assert (Hset : ∀ n1 n2 k v,
    Timed.Set_ n1 n2 k v t = Timed.SetWithTTL n1 n2 k v ttl0 t).
  { intros. unfold Timed.Set_. by rewrite Httl. }
  split_and!.
  - intros k e m1 m2 Hk. split.
    + by apply timed_Get_live.
    + by apply timed_Get_expired.
  - intros n1 n2 k v d m1 m2 t' e.
    destruct (Hstore n1 n2 k v d m1 m2) as (Hk & Hlive & Hgone).
    split_and!; [done| |done..].
    intros Hlo Hhi. by apply expire_at_in_range.
  - intros n1 n2 k v m1 m2 t' e. subst t'. rewrite Hset.
    destruct (Hstore n1 n2 k v ttl0 m1 m2) as (Hk & Hlive & Hgone).
    split_and!; [done..| |done|done].
    intros Hlo Hhi. apply expire_at_in_range; lia.
  - intros now1 now2 k. rewrite timed_Get_spec by done. simpl.
    destruct (live now1 (Timed.cache t) !! k) as [e|]; [|split; [apply Hsweep|done]].
    case_decide; (split; [apply Hsweep|done]).
  - intros now. simpl. split; [apply Hsweep|].
    by destruct (cleanupExpired_spec now t Hinv) as (_ & -> & _).
  - intros now1 now2 k v d r. by apply timed_SetWithTTL_items.
  - intros now1 now2 k v r. rewrite Hset. by apply timed_SetWithTTL_items.
Qed.

(** C10. [SetWithTTL] with a TTL that is not positive, on a cache reached
    from its constructor: the call is not refused, the entry is stored with
    the expiration [n2 + d], which is not after the clock reading [n2], and
    any later sweep removes it, so that a [Get] of the key at or after [n2]
    does not find it and leaves the index without it. The sum [n2 + d] is
    taken to be an [int64], as it is for every [int64] duration below zero
    added to the reading of a clock that stands after 1970. *)
Theorem timed_nonpositive_ttl (C ttl0 : Z) (t0 : Timed.TimedCache K V HP)
    (ops : list (Timed.op K V)) (n1 n2 d m1 m2 : Z) (k : K) (v : V) :
  Timed.NewTimedCache C ttl0 = inl t0 →
  d ≤ 0 → n2 ≤ m1 →
  int_min ≤ n2 + d → n2 ≤ int_max →
  let t' := Timed.SetWithTTL n1 n2 k v d (Timed.run ops t0) in
  Timed.cache t' !! k = Some (Timed.mkEntry v (n2 + d)) ∧
  n2 + d ≤ n2 ∧
  Timed.cache (Timed.cleanupExpired m1 t') !! k = None ∧
  (Timed.Get m1 m2 k t').1 = None ∧
  Timed.cache (Timed.Get m1 m2 k t').2 !! k = None.
Proof.
  intros Hnew Hd Hm Hlo Hhi t'.
  assert (Hinv : timed_inv t').
  { apply timed_inv_SetWithTTL, timed_inv_run. by eapply timed_inv_New. }
  pose proof (timed_SetWithTTL_lookup n1 n2 k v d (Timed.run ops t0)) as Hk.
  rewrite expire_at_in_range in Hk by lia.
  fold t' in Hk. split_and!; [done|lia| |..].
  - destruct (cleanupExpired_spec m1 t' Hinv) as (_ & -> & _).
    unfold live. apply map_lookup_filter_None. right. intros e Hk'. simpl.
    assert (e = Timed.mkEntry v (n2 + d)) as -> by congruence. simpl. lia.
  - apply (timed_Get_expired m1 m2 k _ t' Hinv Hk). simpl. lia.
  - apply (timed_Get_expired m1 m2 k _ t' Hinv Hk). simpl. lia.
Qed.


(** C5, amended. On a cache reached from its constructor, when the sweep
    of a [SetWithTTL] leaves a full index without the key being set, the
    call removes exactly one of the indexed entries, one whose expiration no
    indexed entry precedes, and then stores the new entry. The new entry
    does not compete: with capacity 1 the entry already present is the one
    removed, whatever the two expirations are. [Set] is the same call with
    the TTL given to the constructor. *)
Theorem timed_capacity_eviction (C ttl0 : Z) (t0 : Timed.TimedCache K V HP)
    (ops : list (Timed.op K V)) (n1 n2 d : Z) (k : K) (v : V) :
  Timed.NewTimedCache C ttl0 = inl t0 →
  let t := Timed.run ops t0 in
  let c1 := live n1 (Timed.cache t) in
  let t' := Timed.SetWithTTL n1 n2 k v d t in
  c1 !! k = None →
  Z.of_nat (size c1) = C →
  (∃ k0 e0,
     c1 !! k0 = Some e0 ∧
     (∀ k' e', c1 !! k' = Some e' → Timed.expiration e0 ≤ Timed.expiration e') ∧
     Timed.cache t' = <[k := Timed.mkEntry v (Timed.expire_at n2 d)]> (delete k0 c1)) ∧
  (C = 1 → Timed.cache t' = {[k := Timed.mkEntry v (Timed.expire_at n2 d)]}) ∧
  Timed.Set_ n1 n2 k v t = Timed.SetWithTTL n1 n2 k v ttl0 t.
Proof.
  intros Hnew t c1 t' Hk Hfull.
  destruct (timed_reached C ttl0 t0 ops Hnew) as (_ & _ & Httl & _).
  assert (Hcap0 : Timed.capacity t0 = C).
  { unfold Timed.NewTimedCache in Hnew. repeat case_decide; try done.
    by injection Hnew as <-. }
  assert (Hinv : timed_inv t) by (apply timed_inv_run; by eapply timed_inv_New).
  destruct (cleanupExpired_spec n1 t Hinv) as ((Hl1 & Hpos & _) & Hc & _ & Hcap & _).
  assert (Hcap1 : Timed.capacity (Timed.cleanupExpired n1 t) = C).
  { subst t. by rewrite Hcap, timed_capacity_run. }
  destruct (evict_loop_full (Heap.Len (Timed.heap (Timed.cleanupExpired n1 t))) C
              (Timed.cache (Timed.cleanupExpired n1 t))
              (Timed.heap (Timed.cleanupExpired n1 t)))
    as (k0 & e0 & Hk0 & Hmin & Hev & _);
    [done|by rewrite Heap.Len_Items|lia|by rewrite Hc|].
  assert (Hcache : Timed.cache t'
            = <[k := Timed.mkEntry v (Timed.expire_at n2 d)]> (delete k0 c1)).
  { rewrite Hc in Hev. subst t' c1. unfold Timed.SetWithTTL.
    rewrite Hc, Hk, Hcap1.
    destruct (Timed.evict_loop _ _ _ _) as [c h]. simpl in *. by rewrite Hev. }
  rewrite Hc in Hk0, Hmin. fold c1 in Hk0, Hmin. split_and!.
  - exists k0, e0. done.
  - intros ->. rewrite Hcache.
    assert (Hemp : delete k0 c1 = ∅).
    { apply map_size_empty_inv. rewrite map_size_delete_Some by done. lia. }
    by rewrite Hemp.
  - fold t in Httl. unfold Timed.Set_. by rewrite Httl.
Qed.
End timed_claims.

(** C4 on a cache of capacity 2 with a default TTL of 50: key 1 stored at
    time 0, by [SetWithTTL] with a TTL of 50 or by [Set], is found at time
    10 and not found at time 50. *)
Lemma timed_lazy_expiry_witness :
  let t0 := Timed.mkTimed (K:=Z) (V:=nat) ∅ ([] : list (Heap.heapEntry Z)) 2 50 in
  let t' := Timed.SetWithTTL 0 0 1 7%nat 50 t0 in
  let t'' := Timed.Set_ 0 0 1 7%nat t0 in
  Timed.expire_at 0 50 = 0 + 50 ∧
  (Timed.Get 10 10 1 t').1 = Some 7%nat ∧ (Timed.Get 50 50 1 t').1 = None ∧
  (Timed.Get 10 10 1 t'').1 = Some 7%nat ∧ (Timed.Get 50 50 1 t'').1 = None.
Proof.
  intros t0 t' t''.
  assert (Hnew : Timed.NewTimedCache 2 50 = inl t0) by reflexivity.
  destruct (timed_lazy_expiry (K:=Z) (V:=nat) (HP:=list (Heap.heapEntry Z))
              2 50 t0 [] Hnew) as (_ & Hstore & Hset & _).
  split_and!.
  - destruct (Hstore 0 0 1 7%nat 50 10 10) as (_ & Hsum & _).
    apply Hsum; unfold int_min, int_max; lia.
  - destruct (Hstore 0 0 1 7%nat 50 10 10) as (_ & _ & Hlive & _).
    apply Hlive; reflexivity.
  - destruct (Hstore 0 0 1 7%nat 50 50 50) as (_ & _ & _ & Hgone).
    apply Hgone. discriminate.
  - destruct (Hset 0 0 1 7%nat 10 10) as (_ & _ & _ & Hlive & _).
    apply Hlive; reflexivity.
  - destruct (Hset 0 0 1 7%nat 50 50) as (_ & _ & _ & _ & Hgone).
    apply Hgone. discriminate.
Defined.

(** C10 on a cache of capacity 2: key 1 stored at time 3 with a TTL of -5. *)
Lemma timed_nonpositive_ttl_witness :
  let t0 := Timed.mkTimed (K:=Z) (V:=nat) ∅ ([] : list (Heap.heapEntry Z)) 2 50 in
  let t' := Timed.SetWithTTL 3 3 1 7%nat (-5) t0 in
  Timed.cache t' !! 1 = Some (Timed.mkEntry 7%nat (3 + -5)) ∧
  (Timed.Get 3 3 1 t').1 = None.
Proof.
  intros t0 t'.
  assert (Hnew : Timed.NewTimedCache 2 50 = inl t0) by reflexivity.
  destruct (timed_nonpositive_ttl (K:=Z) (V:=nat) (HP:=list (Heap.heapEntry Z))
              2 50 t0 [] 3 3 (-5) 3 3 1 7%nat Hnew) as (Hk & _ & _ & Hget & _);
    [lia|lia|unfold int_min; lia|unfold int_max; lia|].
  by split.
Defined.


(** C5, amended, on a full cache of capacity 2 holding key 1 (expiring at
    100) and key 2 (expiring at 10), when key 3 is set at time 1. *)
Lemma timed_capacity_eviction_witness :
  let t0 := Timed.mkTimed (K:=Z) (V:=nat) ∅ ([] : list (Heap.heapEntry Z)) 2 50 in
  let t := Timed.run [Timed.OSetWithTTL 0 0 1 11%nat 100;
                      Timed.OSetWithTTL 0 0 2 22%nat 10] t0 in
  let c1 := live 1 (Timed.cache t) in
  ∃ k0 e0,
    c1 !! k0 = Some e0 ∧
    (∀ k' e', c1 !! k' = Some e' → Timed.expiration e0 ≤ Timed.expiration e') ∧
    Timed.cache (Timed.SetWithTTL 1 1 3 33%nat 50 t)
      = <[3 := Timed.mkEntry 33%nat (Timed.expire_at 1 50)]> (delete k0 c1).
Proof.
  intros t0 t c1.
  assert (Hnew : Timed.NewTimedCache 2 50 = inl t0) by reflexivity.
  destruct (timed_capacity_eviction (K:=Z) (V:=nat) (HP:=list (Heap.heapEntry Z))
              2 50 t0 [Timed.OSetWithTTL 0 0 1 11%nat 100;
                       Timed.OSetWithTTL 0 0 2 22%nat 10] 1 1 50 3 33%nat Hnew)
    as [Hev _]; [reflexivity|reflexivity|].
  exact Hev.
Defined.

(** C5 as stated fails under capacity 1. Key 1 is stored at time 0 with a
    TTL of 100 and has not expired when key 2 is stored at time 0 with a TTL
    of 10. Key 2 is the one that expires earliest, and it is not the one
    evicted: key 1 is. *)
Lemma timed_capacity_one_counterexample :
  let t0 := Timed.mkTimed (K:=Z) (V:=nat) ∅ ([] : list (Heap.heapEntry Z)) 1 50 in
  let t := Timed.run [Timed.OSetWithTTL 0 0 1 11%nat 100;
                      Timed.OSetWithTTL 0 0 2 22%nat 10] t0 in
  ¬ (Timed.cache t !! 2 = None ∧ is_Some (Timed.cache t !! 1)) ∧
  Timed.cache t !! 1 = None ∧
  Timed.cache t !! 2 = Some (Timed.mkEntry 22%nat 10).
Proof.
  intros t0 t. split_and!.
  - intros [Hgone _]. vm_compute in Hgone. discriminate.
  - reflexivity.
  - reflexivity.
Qed.

(** ** The FIFO caches *)
Section omap_facts.
Context {A B : Type} `{EqDecision A} `{EqDecision B}.
Implicit Types (f g : A → option B) (l : list A).

Lemma omap_cons_eq f x l :
  omap f (x :: l) = match f x with Some b => b :: omap f l | None => omap f l end.
Proof. done. Qed.

Lemma omap_ext_elem f g l : (∀ x, x ∈ l → f x = g x) → omap f l = omap g l.
Proof.
  induction l as [|x l IH]; intros Hfg; [done|]. rewrite !omap_cons_eq.
  rewrite (Hfg x) by by left. rewrite IH; [done|].
  intros y Hy. apply Hfg. by right.
Qed.

Lemma omap_elem f l b : b ∈ omap f l ↔ ∃ x, x ∈ l ∧ f x = Some b.
Proof. apply list_elem_of_omap. Qed.

Lemma omap_NoDup_inj f l :
  NoDup l →
  (∀ x y b, x ∈ l → y ∈ l → f x = Some b → f y = Some b → x = y) →
  NoDup (omap f l).
Proof.
  induction 1 as [|x l Hx Hnd IH]; intros Hinj; [constructor|].
  rewrite omap_cons_eq.
  assert (Hrest : NoDup (omap f l)).
  { apply IH. intros y z b Hy Hz. apply Hinj; by right. }
  destruct (f x) as [b|] eqn:Hfx; [|done].
  apply NoDup_cons. split; [|done].
  intros (y & Hy & Hfy)%omap_elem. apply Hx.
  assert (x = y) as ->; [|done].
  apply (Hinj x y b); [by left|by right|done..].
Qed.

Lemma omap_filter_ne f l x0 b0 :
  (∀ x, x ∈ l → (f x = Some b0 ↔ x = x0)) →
  omap f (filter (λ x, x ≠ x0) l) = filter (λ b, b ≠ b0) (omap f l).
Proof.
  induction l as [|x l IH]; intros Hiff; [done|].
  assert (IH' : omap f (filter (λ x, x ≠ x0) l) = filter (λ b, b ≠ b0) (omap f l)).
  { apply IH. intros y Hy. apply Hiff. by right. }
  destruct (decide (x = x0)) as [->|Hne].
  - rewrite filter_cons_False by naive_solver. rewrite omap_cons_eq.
    assert (Hfx : f x0 = Some b0) by (apply Hiff; [by left|done]).
    rewrite Hfx. by rewrite filter_cons_False by naive_solver.
  - rewrite filter_cons_True by done. rewrite !omap_cons_eq.
    destruct (f x) as [b|] eqn:Hfx; [|done].
    rewrite filter_cons_True; [by rewrite IH'|].
    intros ->. apply Hne. apply Hiff; [by left|done].
Qed.
End omap_facts.

Section fifo_claims.
Context `{Countable K} {V : Type}.
Implicit Types (f : FIFO.FIFOCache K V) (k : K) (v : V).

(** The queue lists the indexed keys, each once. *)
Lemma fifo_keys_elem f k :
  fifo_inv f → k ∈ FIFO.keys f ↔ is_Some (FIFO.cache f !! k).
Proof.
  intros (Hl & _). unfold FIFO.keys. rewrite omap_elem. split.
  - intros (e & He & Hv).
    destruct (fifo_listed _ _ Hl e He) as (k' & ent & Hv' & Hc & _).
    assert (k' = k) as -> by congruence. eauto.
  - intros [ent Hc]. destruct (fifo_index _ _ Hl _ _ Hc) as [Hin Hv]. eauto.
Qed.

Lemma fifo_keys_NoDup f : fifo_inv f → NoDup (FIFO.keys f).
Proof.
  intros (Hl & _). unfold FIFO.keys. apply omap_NoDup_inj; [apply Hl|].
  intros x y b Hx Hy Hfx Hfy.
  destruct (fifo_listed _ _ Hl x Hx) as (kx & ex & Hvx & Hcx & Hnx).
  destruct (fifo_listed _ _ Hl y Hy) as (ky & ey & Hvy & Hcy & Hny).
  assert (kx = ky) as -> by congruence. congruence.
Qed.

(** [Set] on an indexed key leaves the queue as it is. *)
Lemma fifo_Set_existing f k v ent :
  FIFO.cache f !! k = Some ent →
  FIFO.queue (FIFO.Set_ k v f) = FIFO.queue f ∧
  FIFO.cache (FIFO.Set_ k v f) = <[k := FIFO.mkEntry v (FIFO.node ent)]> (FIFO.cache f).
Proof. intros Hk. unfold FIFO.Set_. by rewrite Hk. Qed.

Lemma fifo_keys_push (c : gmap K (@FIFO.cacheEntry V)) (q : CList.List K) k :
  fifo_link c q →
  omap (CList.Value (CList.PushBack k q).2) (CList.order (CList.PushBack k q).2)
    = omap (CList.Value q) (CList.order q) ++ [k].
Proof.
  intros Hl. simpl. rewrite omap_app. simpl. unfold CList.Value at 2. simpl.
  rewrite lookup_insert_eq. f_equal. apply omap_ext_elem.
  intros e He. unfold CList.Value. simpl. rewrite lookup_insert_ne; [done|].
  intros <-. apply (fifo_fresh _ _ Hl) in He. lia.
Qed.

(** [Set] of a new key below capacity appends it to the queue. *)
Lemma fifo_Set_new_room f k v :
  fifo_inv f → FIFO.cache f !! k = None → FIFO.Len f < FIFO.capacity f →
  FIFO.keys (FIFO.Set_ k v f) = FIFO.keys f ++ [k] ∧
  FIFO.cache (FIFO.Set_ k v f)
    = <[k := FIFO.mkEntry v (CList.fresh (FIFO.queue f))]> (FIFO.cache f).
Proof.
  intros Hinv Hk Hroom. pose proof Hinv as (Hl & _).
  destruct (fifo_overflow_spec f Hinv) as (_ & _ & [[_ Hov]|[Hfull _]]); [|lia].
  unfold FIFO.Set_, FIFO.keys. rewrite Hk, Hov. simpl. split; [|done].
  by apply (fifo_keys_push _ _ k Hl).
Qed.

(** [Set] of a new key at capacity takes the head of the queue out of the
    cache and appends the new key. *)
Lemma fifo_Set_new_full f k v :
  fifo_inv f → FIFO.cache f !! k = None → FIFO.Len f = FIFO.capacity f →
  ∃ oldest ks nd,
    FIFO.keys f = oldest :: ks ∧
    FIFO.keys (FIFO.Set_ k v f) = ks ++ [k] ∧
    FIFO.cache (FIFO.Set_ k v f) = <[k := FIFO.mkEntry v nd]> (delete oldest (FIFO.cache f)).
Proof.
  intros Hinv Hk Hfull. pose proof Hinv as (Hl & _).
  destruct (fifo_overflow_spec f Hinv)
    as (Hl' & _ & [[Hroom _]|(_ & front & rest & oldKey & ent & Hord & Hv & Hc & Hn & Hov & Hrest)]);
    [lia|].
  exists oldKey, (omap (CList.Value (FIFO.queue f)) rest), (CList.fresh (FIFO.queue f)).
  rewrite Hov in Hl'. simpl in Hl'.
  unfold FIFO.Set_, FIFO.keys. rewrite Hk, Hov. split_and!.
  - rewrite Hord. simpl. by rewrite Hv.
  - etrans; [exact (fifo_keys_push _ _ k Hl')|]. by rewrite Hrest.
  - done.
Qed.

(** [Delete] cuts the key out of the queue and keeps the order of the rest. *)
Lemma fifo_Delete_keys f k :
  fifo_inv f → FIFO.keys (FIFO.Delete k f).2 = filter (λ x, x ≠ k) (FIFO.keys f).
Proof.
  intros Hinv. pose proof Hinv as (Hl & _). unfold FIFO.Delete.
  destruct (FIFO.cache f !! k) as [ent|] eqn:Hk.
  - unfold FIFO.keys. simpl.
    change (CList.Value (CList.Remove (FIFO.node ent) (FIFO.queue f)))
      with (CList.Value (FIFO.queue f)).
    apply omap_filter_ne. intros e He.
    destruct (fifo_index _ _ Hl _ _ Hk) as [_ Hv]. split; [|by intros ->].
    intros Hve. destruct (fifo_listed _ _ Hl e He) as (k' & ent' & Hv' & Hc' & Hn').
    assert (k' = k) as -> by congruence. congruence.
  - simpl. symmetry. apply filter_ne_notin.
    rewrite fifo_keys_elem, Hk by done. by intros [? ?].
Qed.
End fifo_claims.

(** C7. The FIFO policy, for both FIFO caches, in every state [f] reached
    from the constructor by any sequence of operations. The queue lists the
    present keys, each once. [Get] changes nothing. [Set] on a present key
    changes its value and leaves the queue as it is. [Set] of a new key
    below capacity appends the key to the queue; at capacity it removes the
    key at the head of the queue from the cache and appends the new key.
    [Delete] cuts a key out of the queue and keeps the order of the others.
    Keys therefore enter at the tail in the order of their insertion and
    leave from the head, whatever is read or updated in between. With
    capacity 2, inserting the keys 1, 2, 3 leaves the keys 2 and 3. *)
Theorem fifo_policy `{Countable K} (V : Type) (C : Z) :
  (∀ opts f0 ops,
     FIFO.NewFIFOCache (K:=K) (V:=V) C opts = inl f0 →
     let f := FIFO.run ops f0 in
     NoDup (FIFO.keys f) ∧
     (∀ k, k ∈ FIFO.keys f ↔ is_Some (FIFO.Get k f)) ∧
     (∀ k, FIFO.step f (FIFO.OGet k) = f) ∧
     (∀ k v, is_Some (FIFO.Get k f) →
        FIFO.keys (FIFO.Set_ k v f) = FIFO.keys f ∧
        FIFO.Get k (FIFO.Set_ k v f) = Some v ∧
        ∀ k', k' ≠ k → FIFO.Get k' (FIFO.Set_ k v f) = FIFO.Get k' f) ∧
     (∀ k v, FIFO.Get k f = None → FIFO.Len f < C →
        FIFO.keys (FIFO.Set_ k v f) = FIFO.keys f ++ [k] ∧
        FIFO.Get k (FIFO.Set_ k v f) = Some v ∧
        ∀ k', k' ≠ k → FIFO.Get k' (FIFO.Set_ k v f) = FIFO.Get k' f) ∧
     (∀ k v, FIFO.Get k f = None → FIFO.Len f = C →
        ∃ oldest ks,
          FIFO.keys f = oldest :: ks ∧
          FIFO.keys (FIFO.Set_ k v f) = ks ++ [k] ∧
          FIFO.Get oldest (FIFO.Set_ k v f) = None ∧
          FIFO.Get k (FIFO.Set_ k v f) = Some v ∧
          ∀ k', k' ≠ k → k' ≠ oldest → FIFO.Get k' (FIFO.Set_ k v f) = FIFO.Get k' f) ∧
     (∀ k, FIFO.keys (FIFO.Delete k f).2 = filter (λ x, x ≠ k) (FIFO.keys f))) ∧
  (∀ f0 ops,
     FIFOSlice.NewFIFOCache (K:=K) (V:=V) C = inl f0 →
     ∃ f, FIFOSlice.run ops f0 = Some f ∧
     NoDup (FIFOSlice.queue f) ∧
     (∀ k, k ∈ FIFOSlice.queue f ↔ is_Some (FIFOSlice.Get k f)) ∧
     (∀ k, FIFOSlice.step (FIFOSlice.OGet k) f = Some f) ∧
     (∀ k v, is_Some (FIFOSlice.Get k f) →
        FIFOSlice.Set_ k v f
          = Some (FIFOSlice.mkFIFO (<[k := v]> (FIFOSlice.cache f)) (FIFOSlice.queue f) C)) ∧
     (∀ k v, FIFOSlice.Get k f = None → FIFOSlice.Len f < C →
        FIFOSlice.Set_ k v f
          = Some (FIFOSlice.mkFIFO (<[k := v]> (FIFOSlice.cache f))
                                   (FIFOSlice.queue f ++ [k]) C)) ∧
     (∀ k v, FIFOSlice.Get k f = None → FIFOSlice.Len f = C →
        ∃ oldest ks,
          FIFOSlice.queue f = oldest :: ks ∧
          FIFOSlice.Set_ k v f
            = Some (FIFOSlice.mkFIFO (<[k := v]> (delete oldest (FIFOSlice.cache f)))
                                     (ks ++ [k]) C)) ∧
     (∀ k, FIFOSlice.queue (FIFOSlice.Delete k f)
             = filter (λ x, x ≠ k) (FIFOSlice.queue f))) ∧
  (∀ v1 v2 v3 : V,
     let f := FIFO.run [FIFO.OSet 1 v1; FIFO.OSet 2 v2; FIFO.OSet 3 v3]
                       (FIFO.mkFIFO (K:=Z) ∅ CList.New 2 true) in
     FIFO.Get 1 f = None ∧ FIFO.Get 2 f = Some v2 ∧ FIFO.Get 3 f = Some v3 ∧
     FIFO.keys f = [2; 3]) ∧
  (∀ v1 v2 v3 : V,
     FIFOSlice.run [FIFOSlice.OSet 1 v1; FIFOSlice.OSet 2 v2; FIFOSlice.OSet 3 v3]
                   (FIFOSlice.mkFIFO (K:=Z) ∅ [] 2)
       = Some (FIFOSlice.mkFIFO {[2 := v2; 3 := v3]} [2; 3] 2)).
Proof.
  split_and!.
  - intros opts f0 ops Hnew f.
    assert (Hinv : fifo_inv f) by (apply fifo_inv_run; by eapply fifo_inv_New).
    assert (HSome : ∀ k, is_Some (FIFO.Get k f) ↔ is_Some (FIFO.cache f !! k)).
    { intros k. unfold FIFO.Get. by rewrite fmap_is_Some. }
    assert (HNone : ∀ k, FIFO.Get k f = None ↔ FIFO.cache f !! k = None).
    { intros k. unfold FIFO.Get. by rewrite fmap_None. }
    assert (Hcap : FIFO.capacity f = C).
    { subst f. rewrite fifo_capacity_run. unfold FIFO.NewFIFOCache in Hnew.
      case_decide; [done|]. by injection Hnew as <-. }
    split_and!.
    + by apply fifo_keys_NoDup.
    + intros k. rewrite HSome. by apply fifo_keys_elem.
    + done.
    + intros k v [ent Hk]%HSome.
      destruct (fifo_Set_existing f k v ent Hk) as [Hq Hc].
      unfold FIFO.keys, FIFO.Get. rewrite Hq, Hc. split_and!; [done| |].
      * by rewrite lookup_insert_eq.
      * intros k' Hne. by rewrite lookup_insert_ne.
    + intros k v Hk%HNone Hroom. rewrite <-Hcap in Hroom.
      destruct (fifo_Set_new_room f k v Hinv Hk Hroom) as [Hkeys Hc].
      unfold FIFO.Get. rewrite Hc. split_and!; [done| |].
      * by rewrite lookup_insert_eq.
      * intros k' Hne. by rewrite lookup_insert_ne.
    + intros k v Hk%HNone Hfull. rewrite <-Hcap in Hfull.
      destruct (fifo_Set_new_full f k v Hinv Hk Hfull)
        as (oldest & ks & nd & Hkeys & Hkeys' & Hc).
      exists oldest, ks. unfold FIFO.Get. rewrite Hc.
      assert (Hne : oldest ≠ k).
      { intros ->. assert (Hin : k ∈ FIFO.keys f) by (rewrite Hkeys; by left).
        apply fifo_keys_elem in Hin as [? ?]; [congruence|done]. }
      split_and!; [done..| | |].
      * by rewrite lookup_insert_ne, lookup_delete_eq.
      * by rewrite lookup_insert_eq.
      * intros k' Hk1 Hk2. by rewrite lookup_insert_ne, lookup_delete_ne.
    + intros k. by apply fifo_Delete_keys.
  - intros f0 ops Hnew.
    destruct (fslice_inv_run ops f0 (fslice_inv_New _ _ Hnew)) as (f & Hrun & Hinv).
    exists f. split; [done|].
    assert (Hcap : FIFOSlice.capacity f = C).
    { rewrite (fslice_capacity_run _ _ _ Hrun). unfold FIFOSlice.NewFIFOCache in Hnew.
      case_decide; [done|]. by injection Hnew as <-. }
    pose proof (fslice_size f Hinv) as Hsize.
    destruct Hinv as (Hnd & Hiff & Hpos & Hlen).
    unfold FIFOSlice.Get, FIFOSlice.Len. split_and!.
    + done.
    + done.
    + done.
    + intros k v [old Hk]. unfold FIFOSlice.Set_. by rewrite Hk, Hcap.
    + intros k v Hk Hroom. unfold FIFOSlice.Set_. rewrite Hk, Hcap.
      by rewrite decide_False by lia.
    + intros k v Hk Hfull. unfold FIFOSlice.Set_. rewrite Hk, Hcap.
      rewrite decide_True by lia.
      destruct (FIFOSlice.queue f) as [|oldest ks]; [simpl in *; lia|].
      by exists oldest, ks.
    + intros k. unfold FIFOSlice.Delete.
      destruct (FIFOSlice.cache f !! k) as [old|] eqn:Hk; simpl.
      * by apply remove_first_filter.
      * symmetry. apply filter_ne_notin. rewrite Hiff, Hk. by intros [? ?].
  - intros v1 v2 v3 f. by vm_compute.
  - intros v1 v2 v3. by vm_compute.
Qed.

(** C7 on the list-backed cache of capacity 2 that holds the keys 1 and 2,
    when key 3 is set. *)
Lemma fifo_policy_witness :
  let f0 := FIFO.mkFIFO (K:=Z) (V:=nat) ∅ CList.New 2 true in
  let f := FIFO.run [FIFO.OSet 1 10%nat; FIFO.OSet 2 20%nat] f0 in
  ∃ oldest ks,
    FIFO.keys f = oldest :: ks ∧
    FIFO.keys (FIFO.Set_ 3 30%nat f) = ks ++ [3] ∧
    FIFO.Get oldest (FIFO.Set_ 3 30%nat f) = None ∧
    FIFO.Get 3 (FIFO.Set_ 3 30%nat f) = Some 30%nat ∧
    ∀ k', k' ≠ 3 → k' ≠ oldest → FIFO.Get k' (FIFO.Set_ 3 30%nat f) = FIFO.Get k' f.
Proof.
  intros f0 f.
  assert (Hnew : FIFO.NewFIFOCache 2 [] = inl f0) by reflexivity.
  destruct (fifo_policy (K:=Z) nat 2) as (Hlist & _).
  destruct (Hlist [] f0 [FIFO.OSet 1 10%nat; FIFO.OSet 2 20%nat] Hnew)
    as (_ & _ & _ & _ & _ & Hfull & _).
  apply (Hfull 3 30%nat); reflexivity.
Defined.

(** ** The LRU cache *)
Section omap_filter.
Context {A B : Type} `{EqDecision A}.

Lemma omap_filter_pred (f : A → option B) (l : list A) (x0 : A)
    (P : B → Prop) `{∀ b, Decision (P b)} :
  (∀ x b, x ∈ l → f x = Some b → (P b ↔ x ≠ x0)) →
  omap f (filter (λ x, x ≠ x0) l) = filter P (omap f l).
Proof.
  induction l as [|x l IH]; intros Hiff; [done|].
  assert (IH' : omap f (filter (λ x, x ≠ x0) l) = filter P (omap f l)).
  { apply IH. intros y b Hy. apply Hiff. by right. }
  rewrite omap_cons_eq. destruct (decide (x = x0)) as [->|Hne].
  - rewrite filter_cons_False by naive_solver.
    destruct (f x0) as [b|] eqn:Hfx; [|done].
    rewrite filter_cons_False; [done|].
    intros HP. by apply (Hiff x0 b) in HP; [|by left|].
  - rewrite filter_cons_True by done. rewrite omap_cons_eq.
    destruct (f x) as [b|] eqn:Hfx; [|done].
    rewrite filter_cons_True; [by rewrite IH'|].
    apply (Hiff x b); [by left|done..].
Qed.
End omap_filter.

Section lru_claims.
Context `{Countable K} {V : Type}.
Implicit Types (l : LRU.LRUCache K V) (k : K) (v : V).

(** The entries of the list are those of the indexed keys, each key once. *)
Lemma lru_entries_elem l k v :
  lru_inv l →
  LRU.mkEntry k v ∈ LRU.entries l ↔
  ∃ e, LRU.cache l !! k = Some e ∧ CList.Value (LRU.list l) e = Some (LRU.mkEntry k v).
Proof.
  intros (Hl & _). unfold LRU.entries. rewrite omap_elem. split.
  - intros (e & He & Hv).
    destruct (lru_listed _ _ Hl e He) as (k' & v' & Hv' & Hc).
    assert (k' = k) as -> by congruence. eauto.
  - intros (e & Hc & Hv). destruct (lru_index _ _ Hl _ _ Hc) as [Hin _]. eauto.
Qed.

Lemma lru_keys_NoDup l : lru_inv l → NoDup (LRU.keys l).
Proof.
  intros (Hl & _). unfold LRU.keys, LRU.entries.
  pose proof (lru_nodup _ _ Hl) as Hnd.
  assert (Hsub : ∀ e, e ∈ CList.order (LRU.list l) → e ∈ CList.order (LRU.list l)) by done.
  revert Hnd Hsub. generalize (CList.order (LRU.list l)) at 1 2 4.
  induction 1 as [|x xs Hx Hnd IH]; intros Hsub; [constructor|].
  rewrite omap_cons_eq.
  destruct (lru_listed _ _ Hl x) as (kx & vx & Hvx & Hcx); [apply Hsub; by left|].
  rewrite Hvx. simpl. apply NoDup_cons. split.
  - rewrite list_elem_of_fmap. intros ([k' v'] & Hk & (y & Hy & Hvy)%omap_elem).
    simpl in Hk. subst k'.
    destruct (lru_listed _ _ Hl y) as (ky & vy & Hvy' & Hcy); [apply Hsub; by right|].
    assert (ky = kx) as -> by congruence.
    assert (x = y) as -> by congruence. done.
  - apply IH. intros e He. apply Hsub. by right.
Qed.

(** Leaving out the element of [k] leaves out the entry of [k]. *)
Lemma lru_entries_filter (c : gmap K nat) (lst : CList.List (LRU.entry K V)) k e :
  lru_link c lst → c !! k = Some e →
  omap (CList.Value lst) (filter (λ x, x ≠ e) (CList.order lst))
    = filter (λ en, LRU.key en ≠ k) (omap (CList.Value lst) (CList.order lst)).
Proof.
  intros Hl Hc. apply omap_filter_pred. intros x b Hx Hvx.
  destruct (lru_listed _ _ Hl x Hx) as (kx & vx & Hvx' & Hcx).
  assert (b = LRU.mkEntry kx vx) as -> by congruence. simpl. split.
  - intros Hne ->. destruct (lru_index _ _ Hl _ _ Hc) as [_ [v0 Hv0]]. congruence.
  - intros Hne ->. congruence.
Qed.

(** Moving the element of [k] to the front puts its entry first and keeps
    the order of the others. *)
Lemma lru_entries_MoveToFront (c : gmap K nat) (lst : CList.List (LRU.entry K V)) k e v :
  lru_link c lst → c !! k = Some e → CList.Value lst e = Some (LRU.mkEntry k v) →
  omap (CList.Value (CList.MoveToFront e lst)) (CList.order (CList.MoveToFront e lst))
    = LRU.mkEntry k v
        :: filter (λ en, LRU.key en ≠ k) (omap (CList.Value lst) (CList.order lst)).
Proof.
  intros Hl Hc Hv. destruct (lru_index _ _ Hl _ _ Hc) as [Hin _].
  rewrite clist_MoveToFront_order by (done || apply Hl).
  rewrite omap_cons_eq, clist_MoveToFront_Value, Hv. f_equal.
  rewrite (omap_ext_elem _ (CList.Value lst)) by (intros; apply clist_MoveToFront_Value).
  by eapply lru_entries_filter.
Qed.

(** [Get] of a present key. *)
Lemma lru_Get_present l k e v :
  lru_inv l → LRU.cache l !! k = Some e →
  CList.Value (LRU.list l) e = Some (LRU.mkEntry k v) →
  (LRU.Get k l).1 = Some v ∧
  LRU.cache (LRU.Get k l).2 = LRU.cache l ∧
  LRU.entries (LRU.Get k l).2
    = LRU.mkEntry k v :: filter (λ en, LRU.key en ≠ k) (LRU.entries l).
Proof.
  intros (Hl & _) Hc Hv. unfold LRU.Get, LRU.entries. rewrite Hc, Hv. simpl.
  split_and!; [done..|]. by eapply lru_entries_MoveToFront.
Qed.

(** [Set] on a present key. *)
Lemma lru_Set_present l k e v0 v :
  lru_inv l → LRU.cache l !! k = Some e →
  CList.Value (LRU.list l) e = Some (LRU.mkEntry k v0) →
  LRU.cache (LRU.Set_ k v l) = LRU.cache l ∧
  LRU.entries (LRU.Set_ k v l)
    = LRU.mkEntry k v :: filter (λ en, LRU.key en ≠ k) (LRU.entries l).
Proof.
  intros (Hl & _) Hc Hv. unfold LRU.Set_, LRU.entries. rewrite Hc, Hv. simpl.
  split; [done|].
  pose proof (lru_link_SetValue _ _ _ _ v Hl Hc) as Hl'.
  rewrite (lru_entries_MoveToFront _ _ k e v Hl' Hc)
    by (unfold CList.Value; simpl; by rewrite lookup_insert_eq).
  f_equal.
  rewrite <-(lru_entries_filter _ _ k e Hl' Hc), <-(lru_entries_filter _ _ k e Hl Hc).
  simpl. apply omap_ext_elem. intros x [Hne _]%filter_ne_elem.
  unfold CList.Value. simpl. by rewrite lookup_insert_ne.
Qed.

Lemma lru_entries_push (c : gmap K nat) (lst : CList.List (LRU.entry K V)) k v :
  lru_link c lst →
  omap (CList.Value (CList.PushFront (LRU.mkEntry k v) lst).2)
       (CList.order (CList.PushFront (LRU.mkEntry k v) lst).2)
    = LRU.mkEntry k v :: omap (CList.Value lst) (CList.order lst).
Proof.
  intros Hl. unfold CList.PushFront. cbn [snd CList.order]. rewrite omap_cons_eq.
  unfold CList.Value at 1. cbn [CList.elems].
  rewrite lookup_insert_eq. f_equal. apply omap_ext_elem.
  intros e He. unfold CList.Value. cbn [CList.elems]. rewrite lookup_insert_ne; [done|].
  intros <-. apply (lru_fresh _ _ Hl) in He. lia.
Qed.

(** [Set] of a new key below capacity puts its entry first. *)
Lemma lru_Set_new_room l k v :
  lru_inv l → LRU.cache l !! k = None → LRU.Len l < LRU.capacity l →
  LRU.entries (LRU.Set_ k v l) = LRU.mkEntry k v :: LRU.entries l ∧
  LRU.cache (LRU.Set_ k v l) = <[k := CList.fresh (LRU.list l)]> (LRU.cache l).
Proof.
  intros Hinv Hk Hroom. pose proof Hinv as (Hl & _).
  destruct (lru_overflow_spec l Hinv) as (_ & _ & [[_ Hov]|[Hfull _]]); [|lia].
  unfold LRU.Set_, LRU.entries. rewrite Hk, Hov. simpl. split; [|done].
  by apply (lru_entries_push _ _ k v Hl).
Qed.

(** [Set] of a new key at capacity takes the last entry out and puts the
    new entry first. *)
Lemma lru_Set_new_full l k v :
  lru_inv l → LRU.cache l !! k = None → LRU.Len l = LRU.capacity l →
  ∃ es oldest nd,
    LRU.entries l = es ++ [oldest] ∧
    LRU.entries (LRU.Set_ k v l) = LRU.mkEntry k v :: es ∧
    LRU.cache (LRU.Set_ k v l) = <[k := nd]> (delete (LRU.key oldest) (LRU.cache l)).
Proof.
  intros Hinv Hk Hfull. pose proof Hinv as (Hl & _).
  destruct (lru_overflow_spec l Hinv)
    as (Hl' & _ & [[Hroom _]|(_ & rest & backElem & oldKey & oldVal & Hord & Hv & Hc & Hov & Hrest)]);
    [lia|].
  exists (omap (CList.Value (LRU.list l)) rest), (LRU.mkEntry oldKey oldVal),
    (CList.fresh (LRU.list l)).
  rewrite Hov in Hl'. simpl in Hl'.
  unfold LRU.Set_, LRU.entries. rewrite Hk, Hov. split_and!.
  - rewrite Hord, omap_app. simpl. by rewrite Hv.
  - etrans; [exact (lru_entries_push _ _ k v Hl')|]. by rewrite Hrest.
  - done.
Qed.

Lemma lru_Get_Some l k v :
  lru_inv l →
  (LRU.Get k l).1 = Some v ↔
  ∃ e, LRU.cache l !! k = Some e ∧ CList.Value (LRU.list l) e = Some (LRU.mkEntry k v).
Proof.
  intros (Hl & _). unfold LRU.Get.
  destruct (LRU.cache l !! k) as [e|] eqn:Hc; simpl.
  - destruct (lru_index _ _ Hl _ _ Hc) as [_ [v' Hv']]. rewrite Hv'. simpl. split.
    + intros [= ->]. eauto.
    + intros (e' & [= <-] & Hv). congruence.
  - split; [done|]. by intros (e & ? & _).
Qed.

Lemma lru_Get_None l k :
  lru_inv l → (LRU.Get k l).1 = None ↔ LRU.cache l !! k = None.
Proof.
  intros (Hl & _). unfold LRU.Get.
  destruct (LRU.cache l !! k) as [e|] eqn:Hc; simpl; [|done].
  destruct (lru_index _ _ Hl _ _ Hc) as [_ [v' Hv']]. by rewrite Hv'.
Qed.
End lru_claims.


(** C2. The LRU policy, in every state [l] reached from the constructor by
    any sequence of operations. [entries] lists the entries of the present
    keys, each key once, most recently used first, and [Get] answers from
    it. [Get] on a present key and [Set] on a present key put the entry of
    that key first (with the new value for [Set]) and keep the order of the
    others; [Get] of an absent key changes nothing. [Set] of a new key
    below capacity puts the new entry first; at capacity it also removes
    the last entry, and only that one, from the cache. With capacity 2,
    after [Set 1], [Set 2], [Get 1], [Set 3], key 2 is absent and keys 1 and
    3 are present with their values. *)
Theorem lru_policy `{Countable K} (V : Type) (C : Z) :
  (∀ opts l0 ops,
     LRU.NewLRUCache (K:=K) (V:=V) C opts = inl l0 →
     let l := LRU.run ops l0 in
     NoDup (LRU.keys l) ∧
     (∀ k v, (LRU.Get k l).1 = Some v ↔ LRU.mkEntry k v ∈ LRU.entries l) ∧
     (∀ k v, (LRU.Get k l).1 = Some v →
        LRU.entries (LRU.Get k l).2
          = LRU.mkEntry k v :: filter (λ en, LRU.key en ≠ k) (LRU.entries l)) ∧
     (∀ k, (LRU.Get k l).1 = None → (LRU.Get k l).2 = l) ∧
     (∀ k v, is_Some (LRU.Get k l).1 →
        LRU.entries (LRU.Set_ k v l)
          = LRU.mkEntry k v :: filter (λ en, LRU.key en ≠ k) (LRU.entries l)) ∧
     (∀ k v, (LRU.Get k l).1 = None → LRU.Len l < C →
        LRU.entries (LRU.Set_ k v l) = LRU.mkEntry k v :: LRU.entries l) ∧
     (∀ k v, (LRU.Get k l).1 = None → LRU.Len l = C →
        ∃ es oldest,
          LRU.entries l = es ++ [oldest] ∧
          LRU.entries (LRU.Set_ k v l) = LRU.mkEntry k v :: es ∧
          (LRU.Get (LRU.key oldest) (LRU.Set_ k v l)).1 = None)) ∧
  (∀ v1 v2 v3 : V,
     let l := LRU.run [LRU.OSet 1 v1; LRU.OSet 2 v2; LRU.OGet 1; LRU.OSet 3 v3]
                      (LRU.mkLRU (K:=Z) ∅ CList.New 2 true) in
     (LRU.Get 2 l).1 = None ∧ (LRU.Get 1 l).1 = Some v1 ∧ (LRU.Get 3 l).1 = Some v3 ∧
     LRU.keys l = [3; 1]).
Proof.
  split.
  - intros opts l0 ops Hnew l.
    assert (Hinv : lru_inv l) by (apply lru_inv_run; by eapply lru_inv_New).
    assert (Hcap : LRU.capacity l = C).
    { subst l. rewrite lru_capacity_run. unfold LRU.NewLRUCache in Hnew.
      case_decide; [done|]. by injection Hnew as <-. }
    split_and!.
    + by apply lru_keys_NoDup.
    + intros k v. by rewrite lru_Get_Some, lru_entries_elem.
    + intros k v (e & Hc & Hv)%lru_Get_Some; [|done].
      by destruct (lru_Get_present l k e v Hinv Hc Hv) as (_ & _ & ?).
    + intros k Hk%lru_Get_None; [|done]. unfold LRU.Get. by rewrite Hk.
    + intros k v [v0 (e & Hc & Hv)%lru_Get_Some]; [|done].
      by destruct (lru_Set_present l k e v0 v Hinv Hc Hv) as [_ ?].
    + intros k v Hk%lru_Get_None Hroom; [|done]. rewrite <-Hcap in Hroom.
      by destruct (lru_Set_new_room l k v Hinv Hk Hroom) as [? _].
    + intros k v Hk%lru_Get_None Hfull; [|done]. rewrite <-Hcap in Hfull.
      destruct (lru_Set_new_full l k v Hinv Hk Hfull)
        as (es & oldest & nd & Hes & Hes' & Hc).
      exists es, oldest. split_and!; [done..|].
      apply lru_Get_None; [by apply lru_inv_Set|]. rewrite Hc.
      assert (Hne : LRU.key oldest ≠ k).
      { intros Heq. destruct oldest as [ko vo]. simpl in Heq. subst ko.
        assert (Hin : LRU.mkEntry k vo ∈ LRU.entries l).
        { rewrite Hes. apply elem_of_app. right. by left. }
        apply lru_entries_elem in Hin as (e & ? & _); [congruence|done]. }
      by rewrite lookup_insert_ne, lookup_delete_eq.
  - intros v1 v2 v3 l. by vm_compute.
Qed.

(** C2 on the cache of capacity 2 that holds the keys 1 and 2, key 1 read
    last, when key 3 is set. *)
Lemma lru_policy_witness :
  let l0 := LRU.mkLRU (K:=Z) (V:=nat) ∅ CList.New 2 true in
  let l := LRU.run [LRU.OSet 1 10%nat; LRU.OSet 2 20%nat; LRU.OGet 1] l0 in
  ∃ es oldest,
    LRU.entries l = es ++ [oldest] ∧
    LRU.entries (LRU.Set_ 3 30%nat l) = LRU.mkEntry 3 30%nat :: es ∧
    (LRU.Get (LRU.key oldest) (LRU.Set_ 3 30%nat l)).1 = None.
Proof.
  intros l0 l.
  assert (Hnew : LRU.NewLRUCache 2 [] = inl l0) by reflexivity.
  destruct (lru_policy (K:=Z) nat 2) as (Hall & _).
  destruct (Hall [] l0 [LRU.OSet 1 10%nat; LRU.OSet 2 20%nat; LRU.OGet 1] Hnew)
    as (_ & _ & _ & _ & _ & _ & Hfull).
  apply (Hfull 3 30%nat); reflexivity.
Defined.

(** ** The LFU cache *)

Lemma int_incr_below (x : Z) : int_min ≤ x → x < int_max → int_incr x = x + 1.
Proof.
  unfold int_incr, wrap_int, int_min, int_max. intros Hlo Hhi.
  rewrite Z.mod_small; lia.
Qed.

(** C9. In every state [l] reached from the constructor by any sequence
    of [Get], [Set], [Delete] and [Clear] (none of which panics): a full
    cache has a non-empty list at [minFreq]; so the [evict] of a [Set] of a
    new key, which runs on a full cache only, removes exactly one entry and
    never takes its early return. [Delete] of the only node of the list at
    [minFreq] increments [minFreq], by one below the largest [int]. The
    last part shows a state that is not full, reached by five operations,
    in which no list is stored at [minFreq]. *)
Theorem lfu_minFreq_bucket `{Countable K} (V : Type) (C : Z) :
  (∀ l0 ops,
     LFU.NewLFUCache (K:=K) (V:=V) C = inl l0 →
     ∃ l, LFU.run ops l0 = Some l ∧
       (LFU.Len l = C →
        ∃ b, LFU.freqMap l !! LFU.minFreq l = Some b ∧ b ≠ []) ∧
       (∀ k v, LFU.cache l !! k = None → C ≤ LFU.Len l →
          (∃ e k0 rest, LFU.freqMap l !! LFU.minFreq l = Some ((e, k0) :: rest) ∧
                        is_Some (LFU.cache l !! k0) ∧
                        LFU.cache (LFU.evict l) = delete k0 (LFU.cache l)) ∧
          LFU.Len (LFU.evict l) = LFU.Len l - 1 ∧
          ∃ l', LFU.Set_ k v l = Some l' ∧ LFU.Len l' = C) ∧
       (∀ k nd, LFU.cache l !! k = Some nd →
          LFU.freq nd = LFU.minFreq l →
          LFU.freqMap l !! LFU.minFreq l = Some [(LFU.elem nd, k)] →
          ∃ l', LFU.Delete k l = Some l' ∧
                LFU.minFreq l' = int_incr (LFU.minFreq l) ∧
                LFU.freqMap l' !! LFU.minFreq l = None ∧
                (int_min ≤ LFU.minFreq l → LFU.minFreq l < int_max →
                 LFU.minFreq l' = LFU.minFreq l + 1))) ∧
  (∀ v1 v2 : V,
     ∃ l, LFU.run [LFU.OSet 1 v1; LFU.OGet 1; LFU.OGet 1; LFU.OSet 2 v2; LFU.ODelete 2]
                  (LFU.mkLFU (K:=Z) ∅ ∅ 0 3 0%nat) = Some l ∧
          LFU.Len l = 1 ∧ LFU.capacity l = 3 ∧
          LFU.minFreq l = 2 ∧ LFU.freqMap l !! LFU.minFreq l = None).
Proof.
  split.
  - intros l0 ops Hnew.
    destruct (lfu_inv_run ops l0 (lfu_inv_New _ _ Hnew)) as (l & Hrun & Hinv).
    exists l. split; [done|].
    assert (Hcap : LFU.capacity l = C).
    { rewrite (lfu_capacity_run _ _ _ Hrun). unfold LFU.NewLFUCache in Hnew.
      case_decide; [done|]. by injection Hnew as <-. }
    pose proof Hinv as (Hl & Hpos & Hsize & Hmin). unfold LFU.Len.
    split_and!.
    + intros Hfull. rewrite <-Hcap in Hfull. destruct (Hmin Hfull) as [b Hb].
      exists b. split; [done|]. by eapply (lfu_nonempty _ _ _ Hl).
    + intros k v Hk Hfull.
      assert (Hfull' : Z.of_nat (size (LFU.cache l)) = LFU.capacity l) by lia.
      destruct (lfu_evict_full l Hinv Hfull')
        as (e & k0 & rest & Hb & Hk0 & Hc & Hsz & _).
      split_and!.
      * exists e, k0, rest. done.
      * lia.
      * destruct (lfu_inv_Set k v l Hinv) as (l' & Hset & _).
        exists l'. split; [done|].
        unfold LFU.Set_ in Hset. rewrite Hk in Hset.
        rewrite decide_True in Hset by lia. injection Hset as <-. simpl.
        rewrite map_size_insert_None by (rewrite Hc, lookup_delete; by case_decide).
        lia.
    + intros k nd Hk Hfreq Hb.
      unfold LFU.Delete, LFU.unlink. rewrite Hk, Hfreq, Hb.
      assert (Hrm : LFU.bucket_remove (LFU.elem nd) [(LFU.elem nd, k)] = []).
      { unfold LFU.bucket_remove. by rewrite filter_cons_False by naive_solver. }
      rewrite Hrm. simpl. eexists. split; [done|]. simpl.
      rewrite decide_True by done. split_and!; [done| |].
      * by rewrite lookup_delete_eq.
      * intros Hlo Hhi. by apply int_incr_below.
  - intros v1 v2. eexists. split; [by vm_compute|]. by vm_compute.
Qed.

(** C9 on the cache of capacity 2 that holds the keys 1 and 2, when key 3
    is set. *)
Lemma lfu_minFreq_bucket_witness :
  let l0 := LFU.mkLFU (K:=Z) (V:=nat) ∅ ∅ 0 2 0%nat in
  ∃ l, LFU.run [LFU.OSet 1 10%nat; LFU.OSet 2 20%nat; LFU.OGet 1] l0 = Some l ∧
       ∃ b, LFU.freqMap l !! LFU.minFreq l = Some b ∧ b ≠ [].
Proof.
  intros l0.
  assert (Hnew : LFU.NewLFUCache 2 = inl l0) by reflexivity.
  destruct (lfu_minFreq_bucket (K:=Z) nat 2) as (Hall & _).
  destruct (Hall l0 [LFU.OSet 1 10%nat; LFU.OSet 2 20%nat; LFU.OGet 1] Hnew)
    as (l & Hrun & Hfull & _).
  exists l. split; [exact Hrun|]. apply Hfull.
  vm_compute in Hrun. injection Hrun as <-. reflexivity.
Defined.


Section lfu_rank.
Context `{Countable K} {V : Type}.
Implicit Types (l : LFU.LFUCache K V) (k : K) (v : V) (b : list (nat * K)).

Lemma elem_lt_filter (P : nat * K → Prop) `{∀ x, Decision (P x)} b :
  StronglySorted elem_lt b → StronglySorted elem_lt (filter P b).
Proof.
  induction 1 as [|x b Hb IH Hx]; [constructor|].
  destruct (decide (P x)).
  - rewrite filter_cons_True by done. constructor; [done|].
    apply Forall_forall. intros y [_ Hy]%list_elem_of_filter.
    rewrite Forall_forall in Hx. by apply Hx.
  - by rewrite filter_cons_False.
Qed.

Lemma lfu_sorted_unlink l f e fm mf :
  (∀ f' b, LFU.freqMap l !! f' = Some b → StronglySorted elem_lt b) →
  LFU.unlink f e l = Some (fm, mf) →
  ∀ f' b, fm !! f' = Some b → StronglySorted elem_lt b.
Proof.
  intros Hs Hun f' b.
  destruct (LFU.freqMap l !! f) as [oldList|] eqn:Hf.
  2: { unfold LFU.unlink in Hun. by rewrite Hf in Hun. }
  rewrite (lfu_unlink_lookup l _ _ _ _ _ f' Hf Hun). case_decide; [|apply Hs].
  destruct (LFU.bucket_remove e oldList) eqn:Hrm; [done|]. intros [= <-].
  rewrite <-Hrm. apply elem_lt_filter. by eapply Hs.
Qed.

Lemma lfu_sorted_push (c : gmap K (LFU.lfuNode V)) fm fr f k :
  lfu_link c fm fr →
  (∀ f' b, fm !! f' = Some b → StronglySorted elem_lt b) →
  ∀ f' b, LFU.bucket_push f fr k fm !! f' = Some b → StronglySorted elem_lt b.
Proof.
  intros Hl Hs f' b. unfold LFU.bucket_push. rewrite lookup_insert.
  case_decide; [|apply Hs]. intros [= <-].
  destruct (fm !! f) as [b0|] eqn:Hb0; simpl.
  - apply StronglySorted_app_2; [|by eapply Hs|repeat constructor].
    intros [e1 k1] x2 Hin ->%list_elem_of_singleton. unfold elem_lt. simpl.
    destruct (lfu_listed _ _ _ Hl _ _ _ _ Hb0 Hin) as (n1 & Hk1 & _ & <-).
    by eapply (lfu_fresh _ _ _ Hl).
  - repeat constructor.
Qed.

Lemma lfu_ranked_mono n m l : n ≤ m → lfu_ranked n l → lfu_ranked m l.
Proof.
  intros Hnm (Hinv & Hb & Hleast & Hs). split_and!; [done| |done..].
  intros k nd Hk. specialize (Hb k nd Hk). lia.
Qed.

Lemma lfu_ranked_New cap l : LFU.NewLFUCache cap = inl l → lfu_ranked 0 l.
Proof.
  intros Hnew. pose proof (lfu_inv_New _ _ Hnew) as Hinv.
  unfold LFU.NewLFUCache in Hnew. case_decide; [done|]. injection Hnew as <-.
  split_and!; [done|..]; simpl; intros *; by rewrite ?lookup_empty.
Qed.

(** [updateFreq] on the node of [k]: one more use, recorded at the back of
    the list of the new frequency under a new element. *)
Lemma lfu_ranked_updateFreq n k l nd :
  lfu_ranked n l → n + 1 < int_max → LFU.cache l !! k = Some nd →
  ∃ l' b,
    LFU.updateFreq k l = Some l' ∧ lfu_ranked (n + 1) l' ∧
    LFU.cache l' = <[k := LFU.mkNode (LFU.value nd) (LFU.freq nd + 1) (LFU.fresh l)]>
                     (LFU.cache l) ∧
    LFU.freqMap l' !! (LFU.freq nd + 1) = Some (b ++ [(LFU.fresh l, k)]) ∧
    (∀ x, x ∈ b → (x.1 < LFU.fresh l)%nat).
Proof.
  intros (Hinv & Hb & Hleast & Hs) Hn Hk.
  pose proof Hinv as (Hl & Hpos & Hsize & Hmin).
  pose proof (Hb k nd Hk) as Hfk.
  assert (Hincr : int_incr (LFU.freq nd) = LFU.freq nd + 1).
  { apply int_incr_below; unfold int_min, int_max in *; lia. }
  destruct (lfu_inv_updateFreq k l nd Hinv Hk) as (l' & Hup & Hinv').
  destruct (lfu_index _ _ _ Hl _ _ Hk) as (oldList & Hf & Hin).
  destruct (lfu_link_unlink l k nd Hl Hk) as (fm & mf & Hun & Hl1).
  pose proof (lfu_unlink_minFreq l _ _ _ _ _ Hf Hun) as Hmf.
  unfold LFU.updateFreq in Hup. rewrite Hk, Hun, Hincr in Hup. simpl in Hup.
  injection Hup as <-.
  eexists. exists (default [] (fm !! (LFU.freq nd + 1))). split; [|split_and!].
  - unfold LFU.updateFreq. rewrite Hk, Hun, Hincr. simpl. reflexivity.
  - split_and!; [done|..]; simpl.
    + intros k' nd'. rewrite lookup_insert.
      destruct (decide (k = k')) as [<-|Hkk].
      * intros [= <-]. simpl. lia.
      * intros Hk'%Hb. lia.
    + rewrite map_size_insert_Some by done. intros Hfull k' nd'.
      specialize (Hleast Hfull). rewrite lookup_insert. rewrite Hmf. clear Hmf.
      destruct (decide (LFU.bucket_remove (LFU.elem nd) oldList = [])) as [Hemp|Hne];
        [destruct (decide (LFU.freq nd = LFU.minFreq l)) as [Heq|Hneq]|].
      * rewrite <-Heq, Hincr.
        destruct (decide (k = k')) as [<-|Hkk]; [intros [= <-]; simpl; lia|].
        intros Hk'. pose proof (Hleast _ _ Hk') as Hge.
        destruct (decide (LFU.freq nd' = LFU.freq nd)) as [Hsame|]; [|lia].
        exfalso. destruct (lfu_index _ _ _ Hl _ _ Hk') as (b' & Hb' & Hin').
        rewrite Hsame, Hf in Hb'. injection Hb' as <-.
        assert (Hrem : (LFU.elem nd', k') ∈ LFU.bucket_remove (LFU.elem nd) oldList).
        { apply bucket_remove_elem. split; [|done]. simpl. intros Heq'.
          apply Hkk. symmetry. by eapply (lfu_inj _ _ _ Hl). }
        rewrite Hemp in Hrem. by apply elem_of_nil in Hrem.
      * destruct (decide (k = k')) as [<-|Hkk];
          [intros [= <-]; simpl; specialize (Hleast _ _ Hk); lia|].
        by apply Hleast.
      * destruct (decide (k = k')) as [<-|Hkk];
          [intros [= <-]; simpl; specialize (Hleast _ _ Hk); lia|].
        by apply Hleast.
    + eapply lfu_sorted_push; [exact Hl1|]. by eapply lfu_sorted_unlink.
  - done.
  - simpl. unfold LFU.bucket_push. by rewrite lookup_insert_eq.
  - intros [e1 k1] Hx. simpl.
    destruct (fm !! (LFU.freq nd + 1)) as [b0|] eqn:Hb0; [|by apply elem_of_nil in Hx].
    simpl in Hx. destruct (lfu_listed _ _ _ Hl1 _ _ _ _ Hb0 Hx) as (n1 & Hk1 & _ & <-).
    by eapply (lfu_fresh _ _ _ Hl1).
Qed.

Lemma lfu_ranked_value n k v l nd :
  lfu_ranked n l → LFU.cache l !! k = Some nd →
  lfu_ranked n (LFU.mkLFU (<[k := LFU.mkNode v (LFU.freq nd) (LFU.elem nd)]> (LFU.cache l))
                          (LFU.freqMap l) (LFU.minFreq l) (LFU.capacity l) (LFU.fresh l)).
Proof.
  intros ((Hl & Hpos & Hsize & Hmin) & Hb & Hleast & Hs) Hk.
  assert (Hlk : ∀ k' nd',
            <[k := LFU.mkNode v (LFU.freq nd) (LFU.elem nd)]> (LFU.cache l) !! k' = Some nd' →
            ∃ n0, LFU.cache l !! k' = Some n0 ∧ LFU.freq n0 = LFU.freq nd').
  { intros k' nd'. rewrite lookup_insert. destruct (decide (k = k')) as [<-|Hkk].
    - intros [= <-]. eauto.
    - eauto. }
  split_and!; simpl.
  - split_and!; simpl; [by apply lfu_link_value|done|..];
      by rewrite map_size_insert_Some.
  - intros k' nd' (n0 & Hk0 & <-)%Hlk. by eapply Hb.
  - rewrite map_size_insert_Some by done. intros Hfull k' nd' (n0 & Hk0 & <-)%Hlk.
    by eapply Hleast.
  - done.
Qed.

(** [Set] of a new key: at capacity the node at the front of the list at
    [minFreq] goes first; then the new node enters with frequency 1. *)
Lemma lfu_ranked_Set_new n k v l :
  0 ≤ n → lfu_ranked n l → LFU.cache l !! k = None →
  ∃ l' b,
    LFU.Set_ k v l = Some l' ∧ lfu_ranked (n + 1) l' ∧
    LFU.minFreq l' = 1 ∧
    LFU.freqMap l' !! 1 = Some (b ++ [(LFU.fresh l, k)]) ∧
    ((Z.of_nat (size (LFU.cache l)) < LFU.capacity l ∧
      LFU.cache l' = <[k := LFU.mkNode v 1 (LFU.fresh l)]> (LFU.cache l)) ∨
     (Z.of_nat (size (LFU.cache l)) = LFU.capacity l ∧
      ∃ e0 k0 rest nd0,
        LFU.freqMap l !! LFU.minFreq l = Some ((e0, k0) :: rest) ∧
        LFU.cache l !! k0 = Some nd0 ∧
        LFU.freq nd0 = LFU.minFreq l ∧ LFU.elem nd0 = e0 ∧
        LFU.cache l' = <[k := LFU.mkNode v 1 (LFU.fresh l)]> (delete k0 (LFU.cache l)))).
Proof.
  intros Hn0 (Hinv & Hb & Hleast & Hs) Hk.
  pose proof Hinv as (Hl & Hpos & Hsize & Hmin).
  destruct (lfu_inv_Set k v l Hinv) as (l' & Hset & Hinv').
  unfold LFU.Set_ in Hset. rewrite Hk in Hset. injection Hset as <-.
  eexists. exists (default [] (LFU.freqMap
    (if decide (LFU.capacity l ≤ Z.of_nat (size (LFU.cache l))) then LFU.evict l else l) !! 1)).
  split; [unfold LFU.Set_; rewrite Hk; reflexivity|].
  destruct (decide (LFU.capacity l ≤ Z.of_nat (size (LFU.cache l)))) as [Hfull|Hroom].
  - assert (Hfull' : Z.of_nat (size (LFU.cache l)) = LFU.capacity l) by lia.
    destruct (Hmin Hfull') as [b0 Hb0].
    destruct b0 as [|[e0 k0] rest]; [by apply (lfu_nonempty _ _ _ Hl) in Hb0|].
    destruct (lfu_evict_unlink l e0 k0 rest Hl Hb0)
      as (nd0 & fm & mf & Hk0 & Hfr & Hel & Hun & Hev).
    destruct (lfu_link_unlink l k0 nd0 Hl Hk0) as (fm' & mf' & Hun' & Hl').
    rewrite Hfr, Hel, Hun in Hun'. injection Hun' as <- <-.
    rewrite Hev in *. simpl in *.
    split_and!.
    + split_and!; [done|..]; simpl.
      * intros k' nd'. rewrite lookup_insert.
        destruct (decide (k = k')) as [<-|Hkk]; [intros [= <-]; simpl; lia|].
        rewrite lookup_delete. case_decide; [done|]. intros Hk'%Hb. lia.
      * intros _ k' nd'. rewrite lookup_insert.
        destruct (decide (k = k')) as [<-|Hkk]; [by intros [= <-]|].
        rewrite lookup_delete. case_decide; [done|]. intros Hk'%Hb. lia.
      * eapply lfu_sorted_push; [exact Hl'|]. by eapply lfu_sorted_unlink.
    + done.
    + unfold LFU.bucket_push. by rewrite lookup_insert_eq.
    + right. split; [done|]. exists e0, k0, rest, nd0. done.
  - split_and!.
    + split_and!; [done|..]; simpl.
      * intros k' nd'. rewrite lookup_insert.
        destruct (decide (k = k')) as [<-|Hkk]; [intros [= <-]; simpl; lia|].
        intros Hk'%Hb. lia.
      * intros _ k' nd'. rewrite lookup_insert.
        destruct (decide (k = k')) as [<-|Hkk]; [by intros [= <-]|].
        intros Hk'%Hb. lia.
      * eapply lfu_sorted_push; [exact Hl|done].
    + done.
    + unfold LFU.bucket_push. simpl. by rewrite lookup_insert_eq.
    + left. split; [lia|done].
Qed.

Lemma lfu_ranked_Delete n k l :
  lfu_ranked n l → ∃ l', LFU.Delete k l = Some l' ∧ lfu_ranked n l'.
Proof.
  intros (Hinv & Hb & Hleast & Hs).
  pose proof Hinv as (Hl & Hpos & Hsize & Hmin).
  destruct (lfu_inv_Delete k l Hinv) as (l' & Hdel & Hinv').
  exists l'. split; [done|]. unfold LFU.Delete in Hdel.
  destruct (LFU.cache l !! k) as [nd|] eqn:Hk.
  2: { injection Hdel as <-. done. }
  destruct (LFU.unlink _ _ _) as [[fm mf]|] eqn:Hun; [|done].
  injection Hdel as <-. split_and!; [done|..]; simpl.
  - intros k' nd'. rewrite lookup_delete. case_decide; [done|]. apply Hb.
  - rewrite map_size_delete_Some by done. intros Hfull.
    assert (size (LFU.cache l) ≠ 0%nat).
    { intros Hz%map_size_empty_inv. by rewrite Hz, lookup_empty in Hk. }
    lia.
  - by eapply lfu_sorted_unlink.
Qed.

Lemma lfu_ranked_Clear n l : lfu_ranked n l → lfu_ranked n (LFU.Clear l).
Proof.
  intros (Hinv & Hb & Hleast & Hs).
  split_and!; [by apply lfu_inv_Clear|..]; simpl; intros *; by rewrite ?lookup_empty.
Qed.

Lemma lfu_ranked_step n o l :
  0 ≤ n → n + 1 < int_max → lfu_ranked n l →
  ∃ l', LFU.step o l = Some l' ∧ lfu_ranked (n + 1) l'.
Proof.
  intros Hn0 Hn Hr. destruct o as [k|k v|k| |]; simpl.
  - unfold LFU.Get. destruct (LFU.cache l !! k) as [nd|] eqn:Hk.
    + destruct (lfu_ranked_updateFreq n k l nd Hr Hn Hk) as (l' & b & -> & Hr' & _).
      simpl. eauto.
    + simpl. eexists. split; [done|]. eapply lfu_ranked_mono; [|done]. lia.
  - destruct (LFU.cache l !! k) as [nd|] eqn:Hk.
    + unfold LFU.Set_. rewrite Hk.
      destruct (lfu_ranked_updateFreq n k _ (LFU.mkNode v (LFU.freq nd) (LFU.elem nd))
                  (lfu_ranked_value n k v l nd Hr Hk) Hn) as (l' & b & Hup & Hr' & _).
      { simpl. by rewrite lookup_insert_eq. }
      eauto.
    + destruct (lfu_ranked_Set_new n k v l Hn0 Hr Hk) as (l' & b & Hset & Hr' & _).
      eauto.
  - destruct (lfu_ranked_Delete n k l Hr) as (l' & Hdel & Hr').
    exists l'. split; [done|]. eapply lfu_ranked_mono; [|done]. lia.
  - eexists. split; [done|]. eapply lfu_ranked_mono; [|done]. lia.
  - eexists. split; [done|]. eapply lfu_ranked_mono; [|by apply lfu_ranked_Clear]. lia.
Qed.

Lemma lfu_ranked_run ops n l :
  0 ≤ n → n + Z.of_nat (length ops) < int_max → lfu_ranked n l →
  ∃ l', LFU.run ops l = Some l' ∧ lfu_ranked (n + Z.of_nat (length ops)) l'.
Proof.
  revert n l. induction ops as [|o ops IH]; intros n l Hn0 Hn Hr.
  - exists l. split; [done|]. simpl. by rewrite Z.add_0_r.
  - simpl length in *.
    destruct (lfu_ranked_step n o l Hn0) as (l1 & Hstep & Hr1); [lia|done|].
    destruct (IH (n + 1) l1) as (l' & Hrun & Hr'); [lia|lia|done|].
    exists l'. split; [simpl; by rewrite Hstep|].
    by replace (n + Z.of_nat (S (length ops))) with (n + 1 + Z.of_nat (length ops)) by lia.
Qed.
End lfu_rank.



(** C3. The LFU policy, in every state [l] reached from the constructor by
    a sequence of operations too short for a frequency counter to wrap
    around (fewer than 2^63 - 2 of them). Frequencies are at least 1. A new
    key enters with frequency 1, at the back of the list of frequency 1,
    and [minFreq] becomes 1. [Get] and [Set] on a present key add 1 to its
    frequency and put it at the back of the list of the new frequency, under
    a newly allocated element, younger than those already there; the other
    nodes are untouched. [Set] of a new key on a full cache first removes
    the key at the front of the list at [minFreq]: no node has a lower
    frequency, and among the nodes of that frequency none has an older
    element, that is, none reached that frequency earlier. With capacity 2,
    after [Set 1], [Set 2], [Get 1], [Set 3], key 2 is gone and keys 1 and 3
    remain; after [Set 1], [Set 2], [Get 1], [Get 2], [Set 3], key 1 is
    gone. *)
Theorem lfu_policy `{Countable K} (V : Type) (C : Z) :
  (∀ l0 ops,
     LFU.NewLFUCache (K:=K) (V:=V) C = inl l0 →
     Z.of_nat (length ops) + 1 < int_max →
     ∃ l, LFU.run ops l0 = Some l ∧
       (∀ k nd, LFU.cache l !! k = Some nd →
          1 ≤ LFU.freq nd ∧ (LFU.elem nd < LFU.fresh l)%nat) ∧
       (∀ k v, LFU.cache l !! k = None →
          ∃ l' b,
            LFU.Set_ k v l = Some l' ∧
            LFU.cache l' !! k = Some (LFU.mkNode v 1 (LFU.fresh l)) ∧
            LFU.minFreq l' = 1 ∧
            LFU.freqMap l' !! 1 = Some (b ++ [(LFU.fresh l, k)]) ∧
            (∀ x, x ∈ b → (x.1 < LFU.fresh l)%nat)) ∧
       (∀ k nd, LFU.cache l !! k = Some nd →
          ∃ l' b,
            LFU.Get k l = Some (Some (LFU.value nd), l') ∧
            LFU.cache l' = <[k := LFU.mkNode (LFU.value nd) (LFU.freq nd + 1) (LFU.fresh l)]>
                             (LFU.cache l) ∧
            LFU.freqMap l' !! (LFU.freq nd + 1) = Some (b ++ [(LFU.fresh l, k)]) ∧
            (∀ x, x ∈ b → (x.1 < LFU.fresh l)%nat)) ∧
       (∀ k v nd, LFU.cache l !! k = Some nd →
          ∃ l' b,
            LFU.Set_ k v l = Some l' ∧
            LFU.cache l' = <[k := LFU.mkNode v (LFU.freq nd + 1) (LFU.fresh l)]>
                             (LFU.cache l) ∧
            LFU.freqMap l' !! (LFU.freq nd + 1) = Some (b ++ [(LFU.fresh l, k)]) ∧
            (∀ x, x ∈ b → (x.1 < LFU.fresh l)%nat)) ∧
       (∀ k v, LFU.cache l !! k = None → LFU.Len l = C →
          ∃ l' e0 k0 rest nd0,
            LFU.Set_ k v l = Some l' ∧
            LFU.freqMap l !! LFU.minFreq l = Some ((e0, k0) :: rest) ∧
            LFU.cache l !! k0 = Some nd0 ∧ LFU.elem nd0 = e0 ∧
            (∀ k' nd', LFU.cache l !! k' = Some nd' →
               LFU.freq nd0 ≤ LFU.freq nd' ∧
               (LFU.freq nd' = LFU.freq nd0 → (LFU.elem nd0 ≤ LFU.elem nd')%nat)) ∧
            LFU.cache l' = <[k := LFU.mkNode v 1 (LFU.fresh l)]> (delete k0 (LFU.cache l)))) ∧
  (∀ v1 v2 v3 : V,
     ∃ l, LFU.run [LFU.OSet 1 v1; LFU.OSet 2 v2; LFU.OGet 1; LFU.OSet 3 v3]
                  (LFU.mkLFU (K:=Z) ∅ ∅ 0 2 0%nat) = Some l ∧
          LFU.cache l !! 2 = None ∧
          LFU.value <$> LFU.cache l !! 1 = Some v1 ∧
          LFU.value <$> LFU.cache l !! 3 = Some v3) ∧
  (∀ v1 v2 v3 : V,
     ∃ l, LFU.run [LFU.OSet 1 v1; LFU.OSet 2 v2; LFU.OGet 1; LFU.OGet 2; LFU.OSet 3 v3]
                  (LFU.mkLFU (K:=Z) ∅ ∅ 0 2 0%nat) = Some l ∧
          LFU.cache l !! 1 = None ∧
          LFU.value <$> LFU.cache l !! 2 = Some v2 ∧
          LFU.value <$> LFU.cache l !! 3 = Some v3).
Proof.
  split_and!.
  - intros l0 ops Hnew Hlen.
    destruct (lfu_ranked_run ops 0 l0) as (l & Hrun & Hr);
      [lia|lia|by eapply lfu_ranked_New|].
    rewrite Z.add_0_l in Hr. set (n := Z.of_nat (length ops)) in *.
    assert (Hn0 : 0 ≤ n) by lia.
    exists l. split; [done|].
    assert (Hcap : LFU.capacity l = C).
    { rewrite (lfu_capacity_run _ _ _ Hrun). unfold LFU.NewLFUCache in Hnew.
      case_decide; [done|]. by injection Hnew as <-. }
    pose proof Hr as (Hinv & Hb & Hleast & Hs).
    pose proof Hinv as (Hl & Hpos & Hsize & Hmin).
    split_and!.
    + intros k nd Hk. split; [by apply (Hb k nd)|by apply (lfu_fresh _ _ _ Hl k)].
    + intros k v Hk.
      destruct (lfu_ranked_Set_new n k v l Hn0 Hr Hk)
        as (l' & b & Hset & Hr' & Hmf & Hfm & Hcase).
      exists l', b. split_and!; [done| |done..|].
      * destruct Hcase as [[_ ->]|(_ & ? & ? & ? & ? & _ & _ & _ & _ & ->)];
          by rewrite lookup_insert_eq.
      * intros x Hx. destruct Hr' as (_ & _ & _ & Hs').
        apply (StronglySorted_app_1_elem_of _ _ _ x (LFU.fresh l, k) (Hs' _ _ Hfm) Hx).
        by left.
    + intros k nd Hk.
      destruct (lfu_ranked_updateFreq n k l nd Hr Hlen Hk)
        as (l' & b & Hup & _ & Hc & Hfm & Hold).
      exists l', b. unfold LFU.Get. rewrite Hk, Hup. done.
    + intros k v nd Hk.
      destruct (lfu_ranked_updateFreq n k _ (LFU.mkNode v (LFU.freq nd) (LFU.elem nd))
                  (lfu_ranked_value n k v l nd Hr Hk) Hlen)
        as (l' & b & Hup & _ & Hc & Hfm & Hold).
      { simpl. by rewrite lookup_insert_eq. }
      exists l', b. unfold LFU.Set_. rewrite Hk. simpl in *.
      split_and!; [done| |done..]. by rewrite Hc, insert_insert_eq.
    + intros k v Hk Hfull. unfold LFU.Len in Hfull. rewrite <-Hcap in Hfull.
      destruct (lfu_ranked_Set_new n k v l Hn0 Hr Hk)
        as (l' & b & Hset & _ & _ & _ & [[Hroom _]|(_ & e0 & k0 & rest & nd0 & Hb0 & Hk0 & Hfr & Hel & Hc)]);
        [lia|].
      exists l', e0, k0, rest, nd0. split_and!; [done..| |done].
      intros k' nd' Hk'. split.
      * rewrite Hfr. by eapply Hleast.
      * intros Hsame.
        destruct (lfu_index _ _ _ Hl _ _ Hk') as (b' & Hb' & Hin').
        rewrite Hsame, Hfr, Hb0 in Hb'. injection Hb' as <-.
        pose proof (Hs _ _ Hb0) as [Hrest Hall]%StronglySorted_inv.
        apply elem_of_cons in Hin' as [[= -> _]|Hin']; [lia|].
        rewrite Forall_forall in Hall. apply Hall in Hin'.
        unfold elem_lt in Hin'. simpl in Hin'. lia.
  - intros v1 v2 v3. eexists. split; [by vm_compute|]. by vm_compute.
  - intros v1 v2 v3. eexists. split; [by vm_compute|]. by vm_compute.
Qed.

(** C3 on the cache of capacity 2 that holds key 1, used twice, and key
    2, used once, when key 3 is set. *)
Lemma lfu_policy_witness :
  let l0 := LFU.mkLFU (K:=Z) (V:=nat) ∅ ∅ 0 2 0%nat in
  ∃ l, LFU.run [LFU.OSet 1 10%nat; LFU.OSet 2 20%nat; LFU.OGet 1] l0 = Some l ∧
  ∃ l' e0 k0 rest nd0,
    LFU.Set_ 3 30%nat l = Some l' ∧
    LFU.freqMap l !! LFU.minFreq l = Some ((e0, k0) :: rest) ∧
    LFU.cache l !! k0 = Some nd0 ∧ LFU.elem nd0 = e0 ∧
    (∀ k' nd', LFU.cache l !! k' = Some nd' →
       LFU.freq nd0 ≤ LFU.freq nd' ∧
       (LFU.freq nd' = LFU.freq nd0 → (LFU.elem nd0 ≤ LFU.elem nd')%nat)) ∧
    LFU.cache l' = <[3 := LFU.mkNode 30%nat 1 (LFU.fresh l)]> (delete k0 (LFU.cache l)).
Proof.
  intros l0.
  assert (Hnew : LFU.NewLFUCache 2 = inl l0) by reflexivity.
  assert (Hlen : Z.of_nat (length [LFU.OSet 1 10%nat; LFU.OSet 2 20%nat; LFU.OGet (V:=nat) 1]) + 1
                   < int_max) by reflexivity.
  destruct (lfu_policy (K:=Z) nat 2) as (Hall & _).
  destruct (Hall l0 [LFU.OSet 1 10%nat; LFU.OSet 2 20%nat; LFU.OGet 1] Hnew Hlen)
    as (l & Hrun & _ & _ & _ & _ & Hevict).
  exists l. split; [exact Hrun|]. apply Hevict.
  - vm_compute in Hrun. injection Hrun as <-. reflexivity.
  - vm_compute in Hrun. injection Hrun as <-. reflexivity.
Defined.

(** * Further properties of the code *)

(** ** Length, deletion and clearing in the FIFO caches *)
Section extra_fifo.
Context `{Countable K} {V : Type}.
Implicit Types (f : FIFO.FIFOCache K V) (k : K) (v : V).

Lemma omap_length_total {A B : Type} (g : A → option B) (l : list A) :
  (∀ x, x ∈ l → is_Some (g x)) → length (omap g l) = length l.
Proof.
  induction l as [|x l IH]; intros Hg; [done|]. rewrite omap_cons_eq.
  destruct (Hg x) as [b ->]; [by left|]. simpl. rewrite IH; [done|].
  intros y Hy. apply Hg. by right.
Qed.

Lemma fifo_keys_length f : fifo_inv f → length (FIFO.keys f) = length (CList.order (FIFO.queue f)).
Proof.
  intros (Hl & _). apply omap_length_total. intros e He.
  destruct (fifo_listed _ _ Hl e He) as (k & ent & -> & _). eauto.
Qed.

Lemma fifo_Len_size f : fifo_inv f → FIFO.Len f = Z.of_nat (size (FIFO.cache f)).
Proof.
  intros Hinv. unfold FIFO.Len, CList.Len. f_equal.
  rewrite <-fifo_keys_length, <-size_dom by done.
  rewrite <-(size_list_to_set (C:=gset K)) by by apply fifo_keys_NoDup.
  f_equal. apply set_eq. intros k.
  by rewrite elem_of_dom, elem_of_list_to_set, fifo_keys_elem.
Qed.

Lemma fifo_Delete_present f k ent :
  fifo_inv f → FIFO.cache f !! k = Some ent →
  FIFO.Len (FIFO.Delete k f).2 = FIFO.Len f - 1.
Proof.
  intros (Hl & _) Hk. unfold FIFO.Delete. rewrite Hk.
  unfold FIFO.Len, CList.Len. simpl.
  destruct (fifo_index _ _ Hl _ _ Hk) as [Hin _].
  pose proof (filter_ne_length _ (FIFO.node ent) (fifo_nodup _ _ Hl) Hin). lia.
Qed.
End extra_fifo.

(** X1. [Delete] in both FIFO caches, in every state reached from the
    constructor. The list-backed [Delete] answers whether the key was
    present. Afterwards the key is absent, every other key answers as
    before, and the length has dropped by one exactly when the key was
    present; deleting an absent key changes nothing. A key that is deleted
    and set again re-enters at the tail of the queue. *)
Theorem fifo_delete `{Countable K} (V : Type) (C : Z) :
  (∀ opts f0 ops k,
     FIFO.NewFIFOCache (K:=K) (V:=V) C opts = inl f0 →
     let f := FIFO.run ops f0 in
     let f' := (FIFO.Delete k f).2 in
     (FIFO.Delete k f).1 = bool_decide (is_Some (FIFO.Get k f)) ∧
     FIFO.Get k f' = None ∧
     (∀ k', k' ≠ k → FIFO.Get k' f' = FIFO.Get k' f) ∧
     FIFO.Len f' = FIFO.Len f - (if (FIFO.Delete k f).1 then 1 else 0) ∧
     (FIFO.Get k f = None → f' = f) ∧
     (∀ v, is_Some (FIFO.Get k f) →
        FIFO.keys (FIFO.Set_ k v f') = filter (λ x, x ≠ k) (FIFO.keys f) ++ [k])) ∧
  (∀ f0 ops k,
     FIFOSlice.NewFIFOCache (K:=K) (V:=V) C = inl f0 →
     ∃ f, FIFOSlice.run ops f0 = Some f ∧
     let f' := FIFOSlice.Delete k f in
     FIFOSlice.Get k f' = None ∧
     (∀ k', k' ≠ k → FIFOSlice.Get k' f' = FIFOSlice.Get k' f) ∧
     FIFOSlice.Len f' = FIFOSlice.Len f - (if FIFOSlice.Get k f is Some _ then 1 else 0) ∧
     (FIFOSlice.Get k f = None → f' = f) ∧
     (∀ v, is_Some (FIFOSlice.Get k f) →
        FIFOSlice.queue <$> FIFOSlice.Set_ k v f'
          = Some (filter (λ x, x ≠ k) (FIFOSlice.queue f) ++ [k]))).
Proof.
  split.
  - intros opts f0 ops k Hnew f f'.
    assert (Hinv : fifo_inv f) by (apply fifo_inv_run; by eapply fifo_inv_New).
    assert (Hinv' : fifo_inv f') by by apply fifo_inv_Delete.
    subst f'. unfold FIFO.Get.
    destruct (FIFO.cache f !! k) as [ent|] eqn:Hk.
    + assert (Hdel : FIFO.Delete k f
                = (true, FIFO.mkFIFO (delete k (FIFO.cache f))
                           (CList.Remove (FIFO.node ent) (FIFO.queue f))
                           (FIFO.capacity f) (FIFO.concurrentSafe f))).
      { unfold FIFO.Delete. by rewrite Hk. }
      split_and!.
      * rewrite Hdel. simpl. first [done|symmetry; apply bool_decide_eq_true; eauto].
      * rewrite Hdel. simpl. by rewrite lookup_delete_eq.
      * intros k' Hne. rewrite Hdel. simpl. by rewrite lookup_delete_ne.
      * rewrite (fifo_Delete_present f k ent Hinv Hk). by rewrite Hdel.
      * done.
      * intros v _.
        destruct (fifo_Set_new_room (FIFO.Delete k f).2 k v Hinv') as [-> _].
        -- rewrite Hdel. simpl. by rewrite lookup_delete_eq.
        -- rewrite (fifo_Delete_present f k ent Hinv Hk).
           destruct Hinv as (_ & _ & Hlen).
           assert (Hcap : FIFO.capacity (FIFO.Delete k f).2 = FIFO.capacity f)
             by by rewrite Hdel.
           rewrite Hcap. lia.
        -- by rewrite fifo_Delete_keys.
    + assert (Hdel : FIFO.Delete k f = (false, f)).
      { unfold FIFO.Delete. by rewrite Hk. }
      rewrite Hdel. simpl. rewrite Hk. simpl.
      split_and!; try done; try lia; try (by intros v [? ?]).
  - intros f0 ops k Hnew.
    destruct (fslice_inv_run ops f0 (fslice_inv_New _ _ Hnew)) as (f & Hrun & Hinv).
    exists f. split; [done|]. intros f'.
    pose proof (fslice_inv_Delete k f Hinv) as Hinv'.
    pose proof (fslice_size f Hinv) as Hsz. pose proof (fslice_size _ Hinv') as Hsz'.
    pose proof Hinv as (Hnd & Hiff & Hpos & Hlen).
    subst f'. unfold FIFOSlice.Get, FIFOSlice.Len, FIFOSlice.Delete in *.
    destruct (FIFOSlice.cache f !! k) as [old|] eqn:Hk; simpl in *.
    + split_and!.
      * by rewrite lookup_delete_eq.
      * intros k' Hne. by rewrite lookup_delete_ne.
      * rewrite map_size_delete_Some by done.
        assert (size (FIFOSlice.cache f) ≠ 0%nat).
        { intros Hz%map_size_empty_inv. by rewrite Hz, lookup_empty in Hk. }
        lia.
      * done.
      * intros v _. unfold FIFOSlice.Set_. simpl. rewrite lookup_delete_eq.
        rewrite remove_first_filter by done.
        assert (Hin : k ∈ FIFOSlice.queue f) by (apply Hiff; eauto).
        pose proof (filter_ne_length _ k Hnd Hin).
        by rewrite decide_False by lia.
    + split_and!; try done; try lia; try (by intros v [? ?]).
Qed.

(** X1 on the list-backed cache of capacity 2 that holds the keys 1 and
    2, when key 1 is deleted and set again. *)
Lemma fifo_delete_witness :
  let f0 := FIFO.mkFIFO (K:=Z) (V:=nat) ∅ CList.New 2 true in
  let f := FIFO.run [FIFO.OSet 1 10%nat; FIFO.OSet 2 20%nat] f0 in
  FIFO.keys (FIFO.Set_ 1 11%nat (FIFO.Delete 1 f).2)
    = filter (λ x, x ≠ 1) (FIFO.keys f) ++ [1].
Proof.
  intros f0 f.
  assert (Hnew : FIFO.NewFIFOCache 2 [] = inl f0) by reflexivity.
  destruct (fifo_delete (K:=Z) nat 2) as (Hlist & _).
  destruct (Hlist [] f0 [FIFO.OSet 1 10%nat; FIFO.OSet 2 20%nat] 1 Hnew)
    as (_ & _ & _ & _ & _ & Hre).
  apply Hre. by exists 10%nat.
Defined.

(** ** Length, deletion and reads in the LRU cache *)
Section extra_lru.
Context `{Countable K} {V : Type}.
Implicit Types (l : LRU.LRUCache K V) (k : K) (v : V).

Lemma lru_entries_length l :
  lru_inv l → length (LRU.entries l) = length (CList.order (LRU.list l)).
Proof.
  intros (Hl & _). apply omap_length_total. intros e He.
  destruct (lru_listed _ _ Hl e He) as (k & v & -> & _). eauto.
Qed.

Lemma lru_keys_elem l k : lru_inv l → k ∈ LRU.keys l ↔ is_Some (LRU.cache l !! k).
Proof.
  intros Hinv. pose proof Hinv as (Hl & _). unfold LRU.keys.
  rewrite list_elem_of_fmap. split.
  - intros ([k' v] & -> & (e & Hc & _)%lru_entries_elem); [eauto|done].
  - intros [e Hc]. destruct (lru_index _ _ Hl _ _ Hc) as [_ [v Hv]].
    exists (LRU.mkEntry k v). split; [done|]. apply lru_entries_elem; eauto.
Qed.

Lemma lru_Len_size l : lru_inv l → LRU.Len l = Z.of_nat (size (LRU.cache l)).
Proof.
  intros Hinv. unfold LRU.Len, CList.Len. f_equal.
  rewrite <-lru_entries_length, <-size_dom by done.
  rewrite <-(length_fmap LRU.key). fold (LRU.keys l).
  rewrite <-(size_list_to_set (C:=gset K)) by by apply lru_keys_NoDup.
  f_equal. apply set_eq. intros k.
  by rewrite elem_of_dom, elem_of_list_to_set, lru_keys_elem.
Qed.

(** A list without repeated keys is, up to order, any of its entries
    followed by the entries of the other keys. *)
Lemma entries_split (es : list (LRU.entry K V)) (x : LRU.entry K V) :
  NoDup (LRU.key <$> es) → x ∈ es →
  es ≡ₚ x :: filter (λ en, LRU.key en ≠ LRU.key x) es.
Proof.
  induction es as [|y es IH]; intros Hnd Hx; [by apply elem_of_nil in Hx|].
  rewrite fmap_cons in Hnd. apply NoDup_cons in Hnd as [Hy Hnd].
  apply elem_of_cons in Hx as [->|Hx].
  - rewrite filter_cons_False by naive_solver. f_equiv.
    symmetry. rewrite filter_Forall_id; [done|].
    apply Forall_forall. intros z Hz Heq. apply Hy.
    rewrite <-Heq. by apply list_elem_of_fmap_2.
  - assert (LRU.key y ≠ LRU.key x).
    { intros Heq. apply Hy. rewrite Heq. by apply list_elem_of_fmap_2. }
    rewrite filter_cons_True by done.
    rewrite (IH Hnd Hx) at 1. apply Permutation_swap.
Qed.
End extra_lru.

(** X2. What [Len] reports, in every state reached from the constructor:
    the list-backed FIFO cache and the LRU cache count the elements of
    their list, the slice-backed FIFO cache counts the entries of its map;
    in all three the count is both the number of indexed keys and the
    length of the queue. *)
Theorem len_counts_keys `{Countable K} (V : Type) (C : Z) :
  (∀ opts f0 ops,
     FIFO.NewFIFOCache (K:=K) (V:=V) C opts = inl f0 →
     let f := FIFO.run ops f0 in
     FIFO.Len f = Z.of_nat (size (FIFO.cache f)) ∧
     FIFO.Len f = Z.of_nat (length (FIFO.keys f))) ∧
  (∀ f0 ops,
     FIFOSlice.NewFIFOCache (K:=K) (V:=V) C = inl f0 →
     ∃ f, FIFOSlice.run ops f0 = Some f ∧
          FIFOSlice.Len f = Z.of_nat (length (FIFOSlice.queue f))) ∧
  (∀ opts l0 ops,
     LRU.NewLRUCache (K:=K) (V:=V) C opts = inl l0 →
     let l := LRU.run ops l0 in
     LRU.Len l = Z.of_nat (size (LRU.cache l)) ∧
     LRU.Len l = Z.of_nat (length (LRU.entries l))).
Proof.
  split_and!.
  - intros opts f0 ops Hnew f.
    assert (Hinv : fifo_inv f) by (apply fifo_inv_run; by eapply fifo_inv_New).
    split; [by apply fifo_Len_size|].
    unfold FIFO.Len, CList.Len. by rewrite fifo_keys_length.
  - intros f0 ops Hnew.
    destruct (fslice_inv_run ops f0 (fslice_inv_New _ _ Hnew)) as (f & Hrun & Hinv).
    exists f. split; [done|]. unfold FIFOSlice.Len. by rewrite fslice_size.
  - intros opts l0 ops Hnew l.
    assert (Hinv : lru_inv l) by (apply lru_inv_run; by eapply lru_inv_New).
    split; [by apply lru_Len_size|].
    unfold LRU.Len, CList.Len. by rewrite lru_entries_length.
Qed.

(** X2 on the LRU cache of capacity 2 after three insertions. *)
Lemma len_counts_keys_witness :
  let l0 := LRU.mkLRU (K:=Z) (V:=nat) ∅ CList.New 2 true in
  let l := LRU.run [LRU.OSet 1 10%nat; LRU.OSet 2 20%nat; LRU.OSet 3 30%nat] l0 in
  LRU.Len l = Z.of_nat (size (LRU.cache l)).
Proof.
  intros l0 l.
  assert (Hnew : LRU.NewLRUCache 2 [] = inl l0) by reflexivity.
  destruct (len_counts_keys (K:=Z) nat 2) as (_ & _ & Hlru).
  apply (Hlru [] l0 [LRU.OSet 1 10%nat; LRU.OSet 2 20%nat; LRU.OSet 3 30%nat] Hnew).
Defined.

(** X3. [Delete] in the LRU cache, in every state reached from the
    constructor: afterwards the key is not found, every other key answers
    as before, the remaining entries keep their recency order, and the
    length has dropped by one exactly when the key was present; deleting an
    absent key changes nothing. *)
Theorem lru_delete `{Countable K} (V : Type) (C : Z)
    (opts : list LRU.LRUOption) (l0 : LRU.LRUCache K V) (ops : list (LRU.op K V)) (k : K) :
  LRU.NewLRUCache C opts = inl l0 →
  let l := LRU.run ops l0 in
  let l' := LRU.Delete k l in
  (LRU.Get k l').1 = None ∧
  (∀ k', k' ≠ k → (LRU.Get k' l').1 = (LRU.Get k' l).1) ∧
  LRU.entries l' = filter (λ en, LRU.key en ≠ k) (LRU.entries l) ∧
  LRU.Len l' = LRU.Len l - (if LRU.cache l !! k is Some _ then 1 else 0) ∧
  ((LRU.Get k l).1 = None → l' = l).
Proof.
  intros Hnew l l'.
  assert (Hinv : lru_inv l) by (apply lru_inv_run; by eapply lru_inv_New).
  pose proof Hinv as (Hl & _). subst l'. unfold LRU.Delete.
  destruct (LRU.cache l !! k) as [e|] eqn:Hk.
  - destruct (lru_index _ _ Hl _ _ Hk) as [Hin [v Hv]]. split_and!.
    + unfold LRU.Get. simpl. by rewrite lookup_delete_eq.
    + intros k' Hne. unfold LRU.Get. simpl. rewrite lookup_delete_ne by done.
      by destruct (LRU.cache l !! k').
    + unfold LRU.entries. simpl. by apply (lru_entries_filter _ _ k e Hl Hk).
    + unfold LRU.Len, CList.Len. simpl.
      pose proof (filter_ne_length _ e (lru_nodup _ _ Hl) Hin). lia.
    + intros Hnone%lru_Get_None; [congruence|done].
  - split_and!; try done; try lia.
    + unfold LRU.Get. by rewrite Hk.
    + unfold LRU.entries, LRU.keys. symmetry. apply filter_Forall_id.
      apply Forall_forall. intros [k' v'] Hin Heq. simpl in Heq. subst k'.
      apply lru_entries_elem in Hin as (e & ? & _); [congruence|done].
Qed.

(** X3 on the cache of capacity 2 that holds the keys 1 and 2. *)
Lemma lru_delete_witness :
  let l0 := LRU.mkLRU (K:=Z) (V:=nat) ∅ CList.New 2 true in
  let l := LRU.run [LRU.OSet 1 10%nat; LRU.OSet 2 20%nat] l0 in
  (LRU.Get 1 (LRU.Delete 1 l)).1 = None ∧
  LRU.Len (LRU.Delete 1 l) = LRU.Len l - (if LRU.cache l !! 1 is Some _ then 1 else 0).
Proof.
  intros l0 l.
  assert (Hnew : LRU.NewLRUCache 2 [] = inl l0) by reflexivity.
  destruct (lru_delete (K:=Z) nat 2 [] l0 [LRU.OSet 1 10%nat; LRU.OSet 2 20%nat] 1 Hnew)
    as (Hgone & _ & _ & Hlen & _).
  split; [exact Hgone|exact Hlen].
Defined.

(** X4. [Get] in the LRU cache only reorders, in every state reached from
    the constructor: the index and the length are unchanged, the entries
    are the same up to order, and every key answers after the [Get] as it
    answered before. *)
Theorem lru_get_reorders `{Countable K} (V : Type) (C : Z)
    (opts : list LRU.LRUOption) (l0 : LRU.LRUCache K V) (ops : list (LRU.op K V)) (k : K) :
  LRU.NewLRUCache C opts = inl l0 →
  let l := LRU.run ops l0 in
  let l' := (LRU.Get k l).2 in
  LRU.cache l' = LRU.cache l ∧
  LRU.entries l' ≡ₚ LRU.entries l ∧
  LRU.Len l' = LRU.Len l ∧
  (∀ k', (LRU.Get k' l').1 = (LRU.Get k' l).1).
Proof.
  intros Hnew l l'.
  assert (Hinv : lru_inv l) by (apply lru_inv_run; by eapply lru_inv_New).
  pose proof Hinv as (Hl & _).
  destruct (LRU.cache l !! k) as [e|] eqn:Hk.
  - destruct (lru_index _ _ Hl _ _ Hk) as [Hin [v Hv]].
    destruct (lru_Get_present l k e v Hinv Hk Hv) as (_ & Hc & Hes).
    subst l'. split_and!.
    + done.
    + rewrite Hes. symmetry.
      apply (entries_split (LRU.entries l) (LRU.mkEntry k v)).
      * by apply lru_keys_NoDup.
      * apply lru_entries_elem; eauto.
    + unfold LRU.Get. rewrite Hk. unfold LRU.Len. simpl.
      apply clist_MoveToFront_Len, Hl.
    + intros k'. unfold LRU.Get at 1 3. rewrite Hc.
      destruct (LRU.cache l !! k') as [e'|]; [|done]. simpl.
      unfold LRU.Get. rewrite Hk. simpl. by rewrite clist_MoveToFront_Value.
  - assert (Hget : LRU.Get k l = (None, l)) by (unfold LRU.Get; by rewrite Hk).
    subst l'. by rewrite Hget.
Qed.

(** X4 on the cache of capacity 2 that holds the keys 1 and 2. *)
Lemma lru_get_reorders_witness :
  let l0 := LRU.mkLRU (K:=Z) (V:=nat) ∅ CList.New 2 true in
  let l := LRU.run [LRU.OSet 1 10%nat; LRU.OSet 2 20%nat] l0 in
  LRU.entries (LRU.Get 1 l).2 ≡ₚ LRU.entries l.
Proof.
  intros l0 l.
  assert (Hnew : LRU.NewLRUCache 2 [] = inl l0) by reflexivity.
  destruct (lru_get_reorders (K:=Z) nat 2 [] l0 [LRU.OSet 1 10%nat; LRU.OSet 2 20%nat] 1 Hnew)
    as (_ & Hperm & _).
  exact Hperm.
Defined.

(** ** Deletion, reads and the frequency map in the LFU cache *)
Section extra_lfu.
Context `{Countable K} {V : Type}.
Implicit Types (l : LFU.LFUCache K V) (k : K) (v : V).

Lemma lfu_updateFreq_cache k l l' nd :
  LFU.cache l !! k = Some nd → LFU.updateFreq k l = Some l' →
  LFU.cache l' = <[k := LFU.mkNode (LFU.value nd) (int_incr (LFU.freq nd)) (LFU.fresh l)]>
                   (LFU.cache l).
Proof.
  intros Hk. unfold LFU.updateFreq. rewrite Hk.
  destruct (LFU.unlink _ _ _) as [[fm mf]|]; [|done]. by intros [= <-].
Qed.

Lemma lfu_reached (C : Z) (l0 : LFU.LFUCache K V) (ops : list (LFU.op K V)) :
  LFU.NewLFUCache C = inl l0 →
  ∃ l, LFU.run ops l0 = Some l ∧ lfu_inv l ∧ LFU.capacity l = C.
Proof.
  intros Hnew.
  destruct (lfu_inv_run ops l0 (lfu_inv_New _ _ Hnew)) as (l & Hrun & Hinv).
  exists l. split_and!; [done..|].
  rewrite (lfu_capacity_run _ _ _ Hrun). unfold LFU.NewLFUCache in Hnew.
  case_decide; [done|]. by injection Hnew as <-.
Qed.
End extra_lfu.

(** X5. [Delete] in the LFU cache, in every state reached from the
    constructor: it does not panic, it removes the key from the index and
    from every frequency list and leaves the other nodes as they are, the
    length drops by one exactly when the key was present, and deleting an
    absent key changes nothing. *)
Theorem lfu_delete `{Countable K} (V : Type) (C : Z)
    (l0 : LFU.LFUCache K V) (ops : list (LFU.op K V)) (k : K) :
  LFU.NewLFUCache C = inl l0 →
  ∃ l l', LFU.run ops l0 = Some l ∧ LFU.Delete k l = Some l' ∧
    LFU.cache l' = delete k (LFU.cache l) ∧
    (∀ f b e, LFU.freqMap l' !! f = Some b → (e, k) ∉ b) ∧
    LFU.Len l' = LFU.Len l - (if LFU.cache l !! k is Some _ then 1 else 0) ∧
    (LFU.cache l !! k = None → l' = l).
Proof.
  intros Hnew. destruct (lfu_reached C l0 ops Hnew) as (l & Hrun & Hinv & Hcap).
  destruct (lfu_inv_Delete k l Hinv) as (l' & Hdel & Hinv').
  exists l, l'. split; [done|]. split; [done|].
  assert (Hc : LFU.cache l' = delete k (LFU.cache l)).
  { unfold LFU.Delete in Hdel. destruct (LFU.cache l !! k) as [nd|] eqn:Hk.
    - destruct (LFU.unlink _ _ _) as [[fm mf]|]; [|done]. by injection Hdel as <-.
    - injection Hdel as <-. by rewrite delete_id. }
  split_and!.
  - done.
  - intros f b e Hb Hin. destruct Hinv' as (Hl' & _).
    destruct (lfu_listed _ _ _ Hl' _ _ _ _ Hb Hin) as (nd & Hk & _).
    by rewrite Hc, lookup_delete_eq in Hk.
  - unfold LFU.Len. rewrite Hc. destruct (LFU.cache l !! k) as [nd|] eqn:Hk.
    + rewrite map_size_delete_Some by done.
      assert (size (LFU.cache l) ≠ 0%nat).
      { intros Hz%map_size_empty_inv. by rewrite Hz, lookup_empty in Hk. }
      lia.
    + rewrite map_size_delete_None by done. lia.
  - intros Hk. unfold LFU.Delete in Hdel. rewrite Hk in Hdel. by injection Hdel as <-.
Qed.

(** X5 on the cache of capacity 2 that holds the keys 1 and 2. *)
Lemma lfu_delete_witness :
  let l0 := LFU.mkLFU (K:=Z) (V:=nat) ∅ ∅ 0 2 0%nat in
  ∃ l l', LFU.run [LFU.OSet 1 10%nat; LFU.OSet 2 20%nat] l0 = Some l ∧
          LFU.Delete 1 l = Some l' ∧ LFU.cache l' = delete 1 (LFU.cache l).
Proof.
  intros l0.
  assert (Hnew : LFU.NewLFUCache 2 = inl l0) by reflexivity.
  destruct (lfu_delete (K:=Z) nat 2 l0 [LFU.OSet 1 10%nat; LFU.OSet 2 20%nat] 1 Hnew)
    as (l & l' & Hrun & Hdel & Hc & _).
  exists l, l'. split_and!; [exact Hrun|exact Hdel|exact Hc].
Defined.

(** X6. [Get] in the LFU cache, in every state reached from the
    constructor: it does not panic, it answers with the stored value of the
    key or with nothing, and it changes no value, no key and so not the
    length: only the frequency bookkeeping of the key read moves. A [Get]
    of an absent key changes nothing at all. *)
Theorem lfu_get_keeps_values `{Countable K} (V : Type) (C : Z)
    (l0 : LFU.LFUCache K V) (ops : list (LFU.op K V)) (k : K) :
  LFU.NewLFUCache C = inl l0 →
  ∃ l l', LFU.run ops l0 = Some l ∧
    LFU.Get k l = Some (LFU.value <$> LFU.cache l !! k, l') ∧
    LFU.value <$> LFU.cache l' = LFU.value <$> LFU.cache l ∧
    LFU.Len l' = LFU.Len l ∧
    (∀ k', k' ≠ k → LFU.cache l' !! k' = LFU.cache l !! k') ∧
    (LFU.cache l !! k = None → l' = l).
Proof.
  intros Hnew. destruct (lfu_reached C l0 ops Hnew) as (l & Hrun & Hinv & Hcap).
  destruct (lfu_inv_Get k l Hinv) as (r & l' & Hget & _).
  exists l, l'. split; [done|]. unfold LFU.Get in *.
  destruct (LFU.cache l !! k) as [nd|] eqn:Hk.
  - destruct (LFU.updateFreq k l) as [l1|] eqn:Hup; [|done].
    simpl in Hget. injection Hget as <- <-.
    pose proof (lfu_updateFreq_cache k l l1 nd Hk Hup) as Hc.
    split_and!.
    + done.
    + rewrite Hc, fmap_insert. simpl. apply insert_id. by rewrite lookup_fmap, Hk.
    + unfold LFU.Len. rewrite Hc. by rewrite map_size_insert_Some.
    + intros k' Hne. rewrite Hc. by rewrite lookup_insert_ne.
    + done.
  - injection Hget as <- <-. done.
Qed.

(** X6 on the cache of capacity 2 that holds the keys 1 and 2. *)
Lemma lfu_get_keeps_values_witness :
  let l0 := LFU.mkLFU (K:=Z) (V:=nat) ∅ ∅ 0 2 0%nat in
  ∃ l l', LFU.run [LFU.OSet 1 10%nat; LFU.OSet 2 20%nat] l0 = Some l ∧
          LFU.Get 1 l = Some (LFU.value <$> LFU.cache l !! 1, l') ∧
          LFU.value <$> LFU.cache l' = LFU.value <$> LFU.cache l.
Proof.
  intros l0.
  assert (Hnew : LFU.NewLFUCache 2 = inl l0) by reflexivity.
  destruct (lfu_get_keeps_values (K:=Z) nat 2 l0 [LFU.OSet 1 10%nat; LFU.OSet 2 20%nat] 1 Hnew)
    as (l & l' & Hrun & Hget & Hvals & _).
  exists l, l'. split_and!; [exact Hrun|exact Hget|exact Hvals].
Defined.

(** X7. The frequency map and the index of the LFU cache agree, in every
    state reached from the constructor: a list is stored only while it has
    elements, it repeats none, its elements are exactly the nodes whose
    frequency is that of the list, each under its current element, and
    every indexed key is in the list of its frequency. *)
Theorem lfu_buckets_agree `{Countable K} (V : Type) (C : Z)
    (l0 : LFU.LFUCache K V) (ops : list (LFU.op K V)) :
  LFU.NewLFUCache C = inl l0 →
  ∃ l, LFU.run ops l0 = Some l ∧
    (∀ f b, LFU.freqMap l !! f = Some b →
       b ≠ [] ∧ NoDup b ∧
       ∀ e k, (e, k) ∈ b ↔
              ∃ nd, LFU.cache l !! k = Some nd ∧ LFU.freq nd = f ∧ LFU.elem nd = e) ∧
    (∀ k nd, LFU.cache l !! k = Some nd →
       ∃ b, LFU.freqMap l !! LFU.freq nd = Some b ∧ (LFU.elem nd, k) ∈ b) ∧
    (∀ k1 k2 n1 n2, LFU.cache l !! k1 = Some n1 → LFU.cache l !! k2 = Some n2 →
       LFU.elem n1 = LFU.elem n2 → k1 = k2).
Proof.
  intros Hnew. destruct (lfu_reached C l0 ops Hnew) as (l & Hrun & (Hl & _) & _).
  exists l. split; [done|]. split_and!.
  - intros f b Hb. split_and!.
    + by eapply (lfu_nonempty _ _ _ Hl).
    + by eapply (lfu_nodup _ _ _ Hl).
    + intros e k. split.
      * intros Hin. by eapply (lfu_listed _ _ _ Hl).
      * intros (nd & Hk & <- & <-).
        destruct (lfu_index _ _ _ Hl _ _ Hk) as (b' & Hb' & Hin). congruence.
  - apply Hl.
  - apply Hl.
Qed.

(** X7 on the cache of capacity 2 after four operations. *)
Lemma lfu_buckets_agree_witness :
  let l0 := LFU.mkLFU (K:=Z) (V:=nat) ∅ ∅ 0 2 0%nat in
  ∃ l, LFU.run [LFU.OSet 1 10%nat; LFU.OSet 2 20%nat; LFU.OGet 1; LFU.OSet 3 30%nat] l0
         = Some l ∧
       ∀ k nd, LFU.cache l !! k = Some nd →
         ∃ b, LFU.freqMap l !! LFU.freq nd = Some b ∧ (LFU.elem nd, k) ∈ b.
Proof.
  intros l0.
  assert (Hnew : LFU.NewLFUCache 2 = inl l0) by reflexivity.
  destruct (lfu_buckets_agree (K:=Z) nat 2 l0
              [LFU.OSet 1 10%nat; LFU.OSet 2 20%nat; LFU.OGet 1; LFU.OSet 3 30%nat] Hnew)
    as (l & Hrun & _ & Hidx & _).
  exists l. split; [exact Hrun|exact Hidx].
Defined.

(** ** Deletion, clearing and the size of the heap in the Timed cache *)
Section extra_timed.
Context `{Countable K} {V : Type} `{!Heap.Ops K HP} `{!Heap.Laws K HP}.
Implicit Types (t : Timed.TimedCache K V HP) (k : K) (v : V).

(** The index has at most as many entries as the heap has records. *)
Lemma timed_link_size (c : gmap K (Timed.timedEntry V)) (h : HP) :
  timed_link c h → (size c ≤ length (Heap.Items h))%nat.
Proof.
  intros Hl.
  set (rec := λ kv : K * Timed.timedEntry V,
                Heap.mkHeapEntry kv.1 (Timed.expiration kv.2)).
  rewrite <-length_map_to_list, <-(length_fmap rec).
  apply submseteq_length, NoDup_submseteq.
  - apply (NoDup_fmap_1 Heap.key). rewrite <-list_fmap_compose.
    apply NoDup_fst_map_to_list.
  - intros x ([k e] & -> & Hke%elem_of_map_to_list)%list_elem_of_fmap.
    by apply Hl.
Qed.
End extra_timed.

Section extra_timed_props.
Context `{Countable K} {V : Type} `{!Heap.Ops K HP} `{!Heap.Laws K HP}.
Implicit Types (t : Timed.TimedCache K V HP) (k : K) (v : V).

(** X8. [Delete] in the Timed cache, in every state reached from the
    constructor: it leaves the heap as it is, so the record of the key stays
    behind; afterwards the key is not found at any time, every other key
    answers as before, and the length reported at any time has dropped by
    one exactly when the key was live at that time. *)
Theorem timed_delete (C ttl0 : Z) (t0 : Timed.TimedCache K V HP)
    (ops : list (Timed.op K V)) (k : K) :
  Timed.NewTimedCache C ttl0 = inl t0 →
  let t := Timed.run ops t0 in
  let t' := Timed.Delete k t in
  Timed.heap t' = Timed.heap t ∧
  (∀ m1 m2, (Timed.Get m1 m2 k t').1 = None) ∧
  (∀ m1 m2 k', k' ≠ k → (Timed.Get m1 m2 k' t').1 = (Timed.Get m1 m2 k' t).1) ∧
  (∀ now, (Timed.Len now t').1
            = (Timed.Len now t).1 - (if live now (Timed.cache t) !! k is Some _ then 1 else 0)).
Proof.
  intros Hnew t t'.
  destruct (timed_reached C ttl0 t0 ops Hnew) as (Hinv & _).
  assert (Hinv' : timed_inv t') by by apply timed_inv_Delete.
  assert (Hlive : ∀ now, live now (Timed.cache t') = delete k (live now (Timed.cache t))).
  { intros now. unfold live. simpl. apply map_filter_delete. }
  split_and!.
  - done.
  - intros m1 m2. rewrite timed_Get_spec by done. simpl.
    by rewrite Hlive, lookup_delete_eq.
  - intros m1 m2 k' Hne. rewrite !timed_Get_spec by done. simpl.
    rewrite Hlive, lookup_delete_ne by done.
    destruct (live m1 (Timed.cache t) !! k') as [e|]; [|done]. by case_decide.
  - intros now. simpl.
    destruct (cleanupExpired_spec now t Hinv) as (_ & -> & _).
    destruct (cleanupExpired_spec now t' Hinv') as (_ & -> & _).
    rewrite Hlive. fold t.
    destruct (live now (Timed.cache t) !! k) as [e|] eqn:Hk.
    + rewrite map_size_delete_Some by done.
      assert (size (live now (Timed.cache t)) ≠ 0%nat).
      { intros Hz%map_size_empty_inv. by rewrite Hz, lookup_empty in Hk. }
      lia.
    + rewrite map_size_delete_None by done. lia.
Qed.

(** X9. [Set] stores with the default TTL, which the constructor has
    checked to be positive and which no operation changes. In every state
    reached from the constructor, while [n2 + ttl] is an [int64], a value
    stored by [Set] at clock reading [n2] is returned by any [Get] whose
    clock readings are before [n2 + ttl], in particular by a [Get] at the
    very instant of the [Set]. When the sum passes the largest [int64], the
    stored expiration has wrapped around to an instant before 1970, and no
    [Get] by a clock that stands after 1970 finds the value. *)
Theorem timed_set_get_default (C ttl : Z) (t0 : Timed.TimedCache K V HP)
    (ops : list (Timed.op K V)) (n1 n2 : Z) (k : K) (v : V) :
  Timed.NewTimedCache C ttl = inl t0 →
  let t' := Timed.Set_ n1 n2 k v (Timed.run ops t0) in
  Timed.cache t' !! k = Some (Timed.mkEntry v (Timed.expire_at n2 ttl)) ∧
  (int_min ≤ n2 → n2 + ttl ≤ int_max →
     Timed.expire_at n2 ttl = n2 + ttl ∧
     (∀ m1 m2, m1 < n2 + ttl → m2 < n2 + ttl → (Timed.Get m1 m2 k t').1 = Some v) ∧
     (Timed.Get n2 n2 k t').1 = Some v) ∧
  (n2 ≤ int_max → ttl ≤ int_max → int_max < n2 + ttl →
     Timed.expire_at n2 ttl = n2 + ttl - 2 ^ 64 ∧
     ∀ m1 m2, 0 ≤ m1 → (Timed.Get m1 m2 k t').1 = None).
Proof.
  intros Hnew t'.
  destruct (timed_reached C ttl t0 ops Hnew) as (Hinv & _ & Httl & Hpos).
  assert (Hinv' : timed_inv t') by by apply timed_inv_SetWithTTL.
  assert (Hk : Timed.cache t' !! k = Some (Timed.mkEntry v (Timed.expire_at n2 ttl))).
  { subst t'. unfold Timed.Set_. by rewrite timed_SetWithTTL_lookup, Httl. }
  split_and!; [done| |].
  - intros Hlo Hhi.
    assert (He : Timed.expire_at n2 ttl = n2 + ttl) by (apply expire_at_in_range; lia).
    assert (Hget : ∀ m1 m2, m1 < n2 + ttl → m2 < n2 + ttl →
              (Timed.Get m1 m2 k t').1 = Some v).
    { intros m1 m2 Hm1 Hm2.
      rewrite (timed_Get_live m1 m2 k _ t' Hinv' Hk); [done|simpl; lia..]. }
    split_and!; [done..|]. apply Hget; lia.
  - intros Hn Hd Hsum. destruct (expire_at_overflow n2 ttl Hn Hd Hsum) as [He Hneg].
    split; [done|]. intros m1 m2 Hm1.
    apply (timed_Get_expired m1 m2 k _ t' Hinv' Hk). simpl. lia.
Qed.

Lemma heap_Len_Push (x : Heap.heapEntry K) (h : HP) :
  Heap.Len (Heap.Push x h) = S (Heap.Len h).
Proof. by rewrite !Heap.Len_Items, Heap.Items_Push. Qed.

Lemma cleanup_loop_idle now turns (c : gmap K (Timed.timedEntry V)) (h : HP) :
  (∀ r, r ∈ Heap.Items h → now < Heap.expiration r) →
  Timed.cleanup_loop turns now c h = (c, h).
Proof.
  intros Hall. destruct turns as [|turns]; [done|]. simpl.
  destruct (Heap.Pop h) as [[oldest h']|] eqn:Hpop; [|done].
  rewrite decide_True; [done|].
  assert (Hin : oldest ∈ Heap.Items h) by (apply (heap_Pop_elem _ _ _ _ Hpop); by left).
  apply Hall in Hin. lia.
Qed.

(** The state after [i] updates of one key at one instant. *)
Lemma timed_updates_step now d k v t (i : nat) :
  now < Timed.expire_at now d → 0 < Timed.capacity t →
  (∀ r, r ∈ Heap.Items (Timed.heap t) → now < Heap.expiration r) →
  Heap.Len (Timed.heap t) = i →
  Timed.cache t = (if i is O then ∅ else {[k := Timed.mkEntry v (Timed.expire_at now d)]}) →
  let t' := Timed.SetWithTTL now now k v d t in
  0 < Timed.capacity t' ∧
  (∀ r, r ∈ Heap.Items (Timed.heap t') → now < Heap.expiration r) ∧
  Heap.Len (Timed.heap t') = S i ∧
  Timed.cache t' = {[k := Timed.mkEntry v (Timed.expire_at now d)]}.
Proof.
  intros Hd Hcap Hall Hlen Hc t'. subst t'.
  unfold Timed.SetWithTTL, Timed.cleanupExpired.
  rewrite cleanup_loop_idle by done. simpl.
  assert (Hpush : ∀ h : HP,
            (∀ r, r ∈ Heap.Items h → now < Heap.expiration r) →
            ∀ r, r ∈ Heap.Items (Heap.Push (Heap.mkHeapEntry k (Timed.expire_at now d)) h) →
                 now < Heap.expiration r).
  { intros h Hh r [->|Hr]%heap_Push_elem; [done|by apply Hh]. }
  destruct i as [|i].
  - rewrite Hc, lookup_empty. rewrite evict_loop_room by (rewrite map_size_empty; lia).
    simpl. split_and!; [done|by apply Hpush|by rewrite heap_Len_Push, Hlen|].
    by rewrite insert_empty.
  - rewrite Hc, lookup_singleton_eq. simpl.
    split_and!; [done|by apply Hpush|by rewrite heap_Len_Push, Hlen|].
    by rewrite insert_singleton_eq.
Qed.

(** X10. The heap of the Timed cache is not bounded by the capacity. In
    every state reached from the constructor the heap has at least as many
    records as the index has entries; and [n] updates of one key at one
    instant, with a TTL that the instant can take without leaving the
    [int64] range, on a new cache of any capacity, leave [n] records in the
    heap for an index of at most one entry. *)
Theorem timed_heap_unbounded (C ttl : Z) (t0 : Timed.TimedCache K V HP) :
  Timed.NewTimedCache C ttl = inl t0 →
  (∀ ops, let t := Timed.run ops t0 in
          (size (Timed.cache t) ≤ Heap.Len (Timed.heap t))%nat) ∧
  (∀ (n : nat) now d k v, 0 < d → int_min ≤ now → now + d ≤ int_max →
     let t := Timed.run (replicate n (Timed.OSetWithTTL now now k v d)) t0 in
     Heap.Len (Timed.heap t) = n ∧ (size (Timed.cache t) ≤ 1)%nat).
Proof.
  intros Hnew. split.
  - intros ops t. destruct (timed_reached C ttl t0 ops Hnew) as ((Hl & _) & _).
    rewrite Heap.Len_Items. by apply timed_link_size.
  - intros n now d k v Hd0 Hlo Hhi.
    assert (Hd : now < Timed.expire_at now d).
    { rewrite expire_at_in_range; lia. }
    assert (Hgen : ∀ (m i : nat) (t : Timed.TimedCache K V HP),
      0 < Timed.capacity t →
      (∀ r, r ∈ Heap.Items (Timed.heap t) → now < Heap.expiration r) →
      Heap.Len (Timed.heap t) = i →
      Timed.cache t = (if i is O then ∅ else {[k := Timed.mkEntry v (Timed.expire_at now d)]}) →
      let t' := Timed.run (replicate m (Timed.OSetWithTTL now now k v d)) t in
      Heap.Len (Timed.heap t') = (i + m)%nat ∧ (size (Timed.cache t') ≤ 1)%nat).
    { induction m as [|m IH]; intros i t Hcap Hall Hlen Hc; simpl.
      - split; [lia|]. rewrite Hc. destruct i.
        + rewrite map_size_empty. lia.
        + rewrite map_size_singleton. lia.
      - destruct (timed_updates_step now d k v t i Hd Hcap Hall Hlen Hc)
          as (Hcap' & Hall' & Hlen' & Hc').
        destruct (IH (S i) _ Hcap' Hall' Hlen' Hc') as [Hl Hs].
        unfold Timed.run in *. simpl. split; [rewrite Hl; lia|done]. }
    unfold Timed.NewTimedCache in Hnew. repeat case_decide; try done.
    injection Hnew as <-.
    destruct (Hgen n 0%nat (Timed.mkTimed ∅ Heap.Empty C ttl)) as [Hl Hs]; simpl.
    + lia.
    + intros r. rewrite Heap.Items_Empty. by intros ?%elem_of_nil.
    + by rewrite Heap.Len_Items, Heap.Items_Empty.
    + done.
    + done.
Qed.
End extra_timed_props.

(** X8 on a cache of capacity 2 holding key 1, stored at time 0 for 50. *)
Lemma timed_delete_witness :
  let t0 := Timed.mkTimed (K:=Z) (V:=nat) ∅ ([] : list (Heap.heapEntry Z)) 2 50 in
  let t := Timed.run [Timed.OSet 0 0 1 7%nat] t0 in
  Timed.heap (Timed.Delete 1 t) = Timed.heap t ∧
  (Timed.Get 10 10 1 (Timed.Delete 1 t)).1 = None.
Proof.
  intros t0 t.
  assert (Hnew : Timed.NewTimedCache 2 50 = inl t0) by reflexivity.
  destruct (timed_delete (K:=Z) (V:=nat) (HP:=list (Heap.heapEntry Z))
              2 50 t0 [Timed.OSet 0 0 1 7%nat] 1 Hnew) as (Hheap & Hgone & _).
  split; [exact Hheap|apply Hgone].
Defined.

(** X9 on a cache of capacity 2 with a default TTL of 50, and on one with
    the largest default TTL there is, at the first instant of the year
    2000. *)
Lemma timed_set_get_default_witness :
  let t0 := Timed.mkTimed (K:=Z) (V:=nat) ∅ ([] : list (Heap.heapEntry Z)) 2 50 in
  let t1 := Timed.mkTimed (K:=Z) (V:=nat) ∅ ([] : list (Heap.heapEntry Z)) 2
              9223372036854775807 in
  let y2k := 946684800000000000 in
  (Timed.Get 5 5 1 (Timed.Set_ 5 5 1 7%nat (Timed.run [Timed.OSet 0 0 2 8%nat] t0))).1
    = Some 7%nat ∧
  Timed.expire_at y2k 9223372036854775807 = -8276687236854775809 ∧
  (Timed.Get y2k y2k 1 (Timed.Set_ y2k y2k 1 7%nat (Timed.run [] t1))).1 = None.
Proof.
  intros t0 t1 y2k.
  assert (Hnew : Timed.NewTimedCache 2 50 = inl t0) by reflexivity.
  assert (Hnew1 : Timed.NewTimedCache 2 9223372036854775807 = inl t1) by reflexivity.
  destruct (timed_set_get_default (K:=Z) (V:=nat) (HP:=list (Heap.heapEntry Z))
              2 50 t0 [Timed.OSet 0 0 2 8%nat] 5 5 1 7%nat Hnew) as (_ & Hin & _).
  destruct (timed_set_get_default (K:=Z) (V:=nat) (HP:=list (Heap.heapEntry Z))
              2 9223372036854775807 t1 [] y2k y2k 1 7%nat Hnew1) as (_ & _ & Hover).
  destruct Hin as (_ & _ & Hget); [unfold int_min; lia|unfold int_max; lia|].
  destruct Hover as (He & Hgone); [unfold int_max, y2k; lia..|].
  split_and!; [exact Hget|rewrite He; reflexivity|apply Hgone; unfold y2k; lia].
Defined.

(** X10 on a cache of capacity 2: five updates of key 1 at time 0. *)
Lemma timed_heap_unbounded_witness :
  let t0 := Timed.mkTimed (K:=Z) (V:=nat) ∅ ([] : list (Heap.heapEntry Z)) 2 50 in
  let t := Timed.run (replicate 5 (Timed.OSetWithTTL 0 0 1 7%nat 30)) t0 in
  Heap.Len (Timed.heap t) = 5%nat ∧ (size (Timed.cache t) ≤ 1)%nat.
Proof.
  intros t0 t.
  assert (Hnew : Timed.NewTimedCache 2 50 = inl t0) by reflexivity.
  destruct (timed_heap_unbounded (K:=Z) (V:=nat) (HP:=list (Heap.heapEntry Z))
              2 50 t0 Hnew) as (_ & Hgrow).
  apply (Hgrow 5%nat 0 30 1 7%nat); [lia|unfold int_min; lia|unfold int_max; lia].
Defined.

(** ** Clearing *)

(** X11. [Clear] of the slice-backed FIFO cache and of the Timed cache,
    in any state reached from the constructor, gives back the very state
    that the constructor built. *)
Theorem clear_restores_new `{Countable K} (V HP : Type) `{!Heap.Ops K HP} (C ttl : Z) :
  (∀ f0 ops f,
     FIFOSlice.NewFIFOCache (K:=K) (V:=V) C = inl f0 →
     FIFOSlice.run ops f0 = Some f → FIFOSlice.Clear f = f0) ∧
  (∀ t0 ops,
     Timed.NewTimedCache (K:=K) (V:=V) (HP:=HP) C ttl = inl t0 →
     Timed.Clear (Timed.run ops t0) = t0).
Proof.
  split.
  - intros f0 ops f Hnew Hrun. unfold FIFOSlice.Clear.
    rewrite (fslice_capacity_run _ _ _ Hrun).
    unfold FIFOSlice.NewFIFOCache in Hnew. case_decide; [done|]. by injection Hnew as <-.
  - intros t0 ops Hnew. unfold Timed.Clear.
    rewrite timed_capacity_run, timed_defaultTTL_run.
    unfold Timed.NewTimedCache in Hnew. repeat case_decide; try done.
    by injection Hnew as <-.
Qed.

(** X11 on a Timed cache of capacity 2 after two insertions. *)
Lemma clear_restores_new_witness :
  let t0 := Timed.mkTimed (K:=Z) (V:=nat) ∅ ([] : list (Heap.heapEntry Z)) 2 50 in
  Timed.Clear (Timed.run [Timed.OSet 0 0 1 7%nat; Timed.OSet 1 1 2 8%nat] t0) = t0.
Proof.
  intros t0.
  assert (Hnew : Timed.NewTimedCache 2 50 = inl t0) by reflexivity.
  destruct (clear_restores_new (K:=Z) nat (list (Heap.heapEntry Z)) 2 50) as (_ & Htimed).
  apply (Htimed t0 [Timed.OSet 0 0 1 7%nat; Timed.OSet 1 1 2 8%nat] Hnew).
Defined.

(** X12. [Clear] of the list-backed FIFO cache, of the LRU cache and of
    the LFU cache, in any state reached from the constructor: the length is
    0, no key is found, the capacity is kept, and the cache takes entries
    again: a [Set] that follows stores its key, for a length of 1. *)
Theorem clear_empties `{Countable K} (V : Type) (C : Z) :
  (∀ opts f0 ops,
     FIFO.NewFIFOCache (K:=K) (V:=V) C opts = inl f0 →
     let f := FIFO.Clear (FIFO.run ops f0) in
     FIFO.Len f = 0 ∧ (∀ k, FIFO.Get k f = None) ∧ FIFO.capacity f = C ∧
     ∀ k v, FIFO.Get k (FIFO.Set_ k v f) = Some v ∧ FIFO.Len (FIFO.Set_ k v f) = 1) ∧
  (∀ opts l0 ops,
     LRU.NewLRUCache (K:=K) (V:=V) C opts = inl l0 →
     let l := LRU.Clear (LRU.run ops l0) in
     LRU.Len l = 0 ∧ (∀ k, LRU.Get k l = (None, l)) ∧ LRU.capacity l = C ∧
     ∀ k v, (LRU.Get k (LRU.Set_ k v l)).1 = Some v ∧ LRU.Len (LRU.Set_ k v l) = 1) ∧
  (∀ l0 ops,
     LFU.NewLFUCache (K:=K) (V:=V) C = inl l0 →
     ∃ l1, LFU.run ops l0 = Some l1 ∧
     let l := LFU.Clear l1 in
     LFU.Len l = 0 ∧ (∀ k, LFU.Get k l = Some (None, l)) ∧ LFU.capacity l = C ∧
     LFU.freqMap l = ∅ ∧ LFU.minFreq l = 0 ∧
     ∀ k v, ∃ l', LFU.Set_ k v l = Some l' ∧
                  LFU.value <$> LFU.cache l' !! k = Some v ∧ LFU.Len l' = 1).
Proof.
  split_and!.
  - intros opts f0 ops Hnew f.
    assert (Hcap : FIFO.capacity f = C ∧ 0 < C).
    { subst f. simpl. rewrite fifo_capacity_run. unfold FIFO.NewFIFOCache in Hnew.
      case_decide; [done|]. injection Hnew as <-. simpl. lia. }
    destruct Hcap as [Hcap Hpos]. split_and!; [done|done|done|].
    intros k v. unfold FIFO.Set_, FIFO.overflow. subst f. simpl in *.
    rewrite lookup_empty. rewrite decide_False by (unfold CList.Len; simpl; lia).
    simpl. unfold FIFO.Get, FIFO.Len. simpl. by rewrite lookup_insert_eq.
  - intros opts l0 ops Hnew l.
    assert (Hcap : LRU.capacity l = C ∧ 0 < C).
    { subst l. simpl. rewrite lru_capacity_run. unfold LRU.NewLRUCache in Hnew.
      case_decide; [done|]. injection Hnew as <-. simpl. lia. }
    destruct Hcap as [Hcap Hpos]. split_and!; [done|done|done|].
    intros k v. unfold LRU.Set_, LRU.overflow. subst l. simpl in *.
    rewrite lookup_empty. rewrite decide_False by (unfold CList.Len; simpl; lia).
    simpl. unfold LRU.Get, LRU.Len. simpl. rewrite lookup_insert_eq. simpl.
    unfold CList.Value. simpl. by rewrite lookup_insert_eq.
  - intros l0 ops Hnew.
    destruct (lfu_reached C l0 ops Hnew) as (l1 & Hrun & (_ & Hpos & _) & Hcap).
    exists l1. split; [done|]. intros l. subst l.
    split_and!; [done|done|done|done|done|].
    intros k v. unfold LFU.Set_, LFU.Clear. simpl.
    rewrite lookup_empty, map_size_empty. rewrite decide_False by lia.
    eexists. split; [done|]. simpl. rewrite lookup_insert_eq. split; [done|].
    unfold LFU.Len. simpl. by rewrite map_size_insert_None, map_size_empty.
Qed.

(** X12 on the LFU cache of capacity 2 after two insertions. *)
Lemma clear_empties_witness :
  let l0 := LFU.mkLFU (K:=Z) (V:=nat) ∅ ∅ 0 2 0%nat in
  ∃ l1, LFU.run [LFU.OSet 1 10%nat; LFU.OSet 2 20%nat] l0 = Some l1 ∧
        LFU.Len (LFU.Clear l1) = 0 ∧
        ∃ l', LFU.Set_ 3 30%nat (LFU.Clear l1) = Some l' ∧ LFU.Len l' = 1.
Proof.
  intros l0.
  assert (Hnew : LFU.NewLFUCache 2 = inl l0) by reflexivity.
  destruct (clear_empties (K:=Z) nat 2) as (_ & _ & Hlfu).
  destruct (Hlfu l0 [LFU.OSet 1 10%nat; LFU.OSet 2 20%nat] Hnew)
    as (l1 & Hrun & Hlen & _ & _ & _ & _ & Hset).
  exists l1. split; [exact Hrun|]. split; [exact Hlen|].
  destruct (Hset 3 30%nat) as (l' & Hs & _ & Hl'). exists l'. split; [exact Hs|exact Hl'].
Defined.

(** ** The bookkeeping of [expirationHeap] *)
Section extra_heap.
Context {K : Type}.
Implicit Types (h : list (ExpirationHeap.heapEntry K)) (x y : ExpirationHeap.heapEntry K).

Lemma expheap_at_index_nat h (a : nat) :
  ExpirationHeap.at_index h (Z.of_nat a) = h !! a.
Proof.
  unfold ExpirationHeap.at_index. rewrite decide_True by lia. by rewrite Nat2Z.id.
Qed.

Lemma expheap_at_index_out h i :
  i < 0 ∨ ExpirationHeap.Len h ≤ i → ExpirationHeap.at_index h i = None.
Proof.
  unfold ExpirationHeap.at_index, ExpirationHeap.Len. intros Hout.
  case_decide; [|done]. apply lookup_ge_None. lia.
Qed.

Lemma expheap_set_index_id x : ExpirationHeap.set_index (ExpirationHeap.index x) x = x.
Proof. by destruct x. Qed.

Lemma expheap_Pop_snoc h x :
  ExpirationHeap.Pop (h ++ [x]) = Some (ExpirationHeap.set_index (-1) x, h).
Proof.
  unfold ExpirationHeap.Pop, ExpirationHeap.Len. rewrite length_app. simpl.
  replace (Z.of_nat (length h + 1) - 1) with (Z.of_nat (length h)) by lia.
  rewrite expheap_at_index_nat, list_lookup_middle by done. simpl.
  replace (length h + 1 - 1)%nat with (length h) by lia.
  by rewrite take_app_length.
Qed.
End extra_heap.

(** X13. The [index] field of the heap records. On a slice in which
    every record carries its own position: [Swap] of two positions in range
    exchanges the two records and nothing else, and every record still
    carries its position; [Swap] with a position out of range panics;
    [Push] appends a record that carries the last position; [Pop] cuts off
    the last record and marks it with -1, so that [Pop] after [Push] gives
    back the pushed record and the slice as it was; [Pop] panics exactly on
    the empty slice. *)
Theorem expiration_heap_index {K : Type} (h : list (ExpirationHeap.heapEntry K)) :
  ExpirationHeap.indexed h →
  (∀ (a b : nat) x y, h !! a = Some x → h !! b = Some y →
     ∃ h', ExpirationHeap.Swap h (Z.of_nat a) (Z.of_nat b) = Some h' ∧
           ExpirationHeap.indexed h' ∧ length h' = length h ∧
           ExpirationHeap.payload <$> h' !! a = Some (ExpirationHeap.payload y) ∧
           ExpirationHeap.payload <$> h' !! b = Some (ExpirationHeap.payload x) ∧
           ∀ n, n ≠ a → n ≠ b → h' !! n = h !! n) ∧
  (∀ i j, i < 0 ∨ ExpirationHeap.Len h ≤ i ∨ j < 0 ∨ ExpirationHeap.Len h ≤ j →
     ExpirationHeap.Swap h i j = None) ∧
  (∀ x, ExpirationHeap.indexed (ExpirationHeap.Push x h) ∧
        ExpirationHeap.Len (ExpirationHeap.Push x h) = ExpirationHeap.Len h + 1 ∧
        ExpirationHeap.Pop (ExpirationHeap.Push x h)
          = Some (ExpirationHeap.set_index (-1) x, h)) ∧
  (∀ x h', ExpirationHeap.Pop h = Some (x, h') →
     ExpirationHeap.index x = -1 ∧ ExpirationHeap.indexed h' ∧
     h = h' ++ [ExpirationHeap.set_index (ExpirationHeap.Len h') x]) ∧
  (ExpirationHeap.Pop h = None ↔ h = []).
Proof.
  intros Hidx. split_and!.
  - intros a b x y Ha Hb.
    pose proof (lookup_lt_Some _ _ _ Ha) as Hla.
    pose proof (lookup_lt_Some _ _ _ Hb) as Hlb.
    unfold ExpirationHeap.Swap. rewrite !expheap_at_index_nat, Ha, Hb. simpl.
    rewrite !Nat2Z.id. eexists. split; [done|].
    assert (Hlk : ∀ n,
      <[b := ExpirationHeap.set_index (Z.of_nat b) x]>
        (<[a := ExpirationHeap.set_index (Z.of_nat a) y]> h) !! n
      = if decide (n = b) then Some (ExpirationHeap.set_index (Z.of_nat b) x)
        else if decide (n = a) then Some (ExpirationHeap.set_index (Z.of_nat a) y)
        else h !! n).
    { intros n. destruct (decide (n = b)) as [->|Hnb].
      - rewrite list_lookup_insert_eq; [done|]. by rewrite length_insert.
      - rewrite list_lookup_insert_ne by done.
        destruct (decide (n = a)) as [->|Hna].
        + by rewrite list_lookup_insert_eq.
        + by rewrite list_lookup_insert_ne. }
    split_and!.
    + intros n z. rewrite Hlk. repeat case_decide; subst.
      * by intros [= <-].
      * by intros [= <-].
      * apply Hidx.
    + by rewrite !length_insert.
    + rewrite Hlk. destruct (decide (a = b)) as [->|Hab]; simpl.
      * assert (x = y) as -> by congruence. done.
      * by rewrite decide_True.
    + rewrite Hlk. by rewrite decide_True.
    + intros n Hna Hnb. rewrite Hlk. by rewrite !decide_False.
  - intros i j Hout. unfold ExpirationHeap.Swap.
    destruct (decide (i < 0 ∨ ExpirationHeap.Len h ≤ i)) as [Hi|Hi].
    + by rewrite (expheap_at_index_out h i Hi).
    + destruct (ExpirationHeap.at_index h i); [|done]. simpl.
      rewrite (expheap_at_index_out h j); [done|]. lia.
  - intros x. unfold ExpirationHeap.Push. split_and!.
    + intros n z. destruct (decide (n < length h)%nat) as [Hlt|Hge].
      * rewrite lookup_app_l by done. apply Hidx.
      * rewrite lookup_app_r by lia.
        destruct (n - length h)%nat as [|m] eqn:Hm; [|done]. simpl.
        intros [= <-]. simpl. unfold ExpirationHeap.Len. lia.
    + unfold ExpirationHeap.Len. rewrite length_app. simpl. lia.
    + by rewrite expheap_Pop_snoc.
  - intros x h'. destruct (decide (h = [])) as [->|Hne]; [done|].
    destruct (exists_last Hne) as (h0 & e & ->).
    rewrite expheap_Pop_snoc. intros [= <- <-]. split_and!.
    + done.
    + intros n z Hn. apply Hidx. by apply lookup_app_l_Some.
    + f_equal. f_equal.
      assert (He : ExpirationHeap.index e = Z.of_nat (length h0)).
      { apply Hidx. by apply list_lookup_middle. }
      unfold ExpirationHeap.Len. rewrite <-He. by destruct e.
  - split.
    + destruct (decide (h = [])) as [->|Hne]; [done|].
      destruct (exists_last Hne) as (h0 & e & ->). by rewrite expheap_Pop_snoc.
    + by intros ->.
Qed.

(** X13 on a slice of two records, swapped. *)
Lemma expiration_heap_index_witness :
  let h := [ExpirationHeap.mkHeapEntry (K:=Z) 7 100 0; ExpirationHeap.mkHeapEntry 8 50 1] in
  ∃ h', ExpirationHeap.Swap h 0 1 = Some h' ∧ ExpirationHeap.indexed h' ∧
        ExpirationHeap.payload <$> h' !! 0%nat = Some (8, 50).
Proof.
  intros h.
  assert (Hidx : ExpirationHeap.indexed h).
  { intros [|[|n]] x; simpl; intros [= <-]; reflexivity. }
  destruct (expiration_heap_index h Hidx) as (Hswap & _).
  destruct (Hswap 0%nat 1%nat (ExpirationHeap.mkHeapEntry 7 100 0)
                  (ExpirationHeap.mkHeapEntry 8 50 1) eq_refl eq_refl)
    as (h' & Hs & Hi & _ & Ha & _).
  exists h'. split_and!; [exact Hs|exact Hi|exact Ha].
Defined.

(** ** The construction options *)
Section extra_options.
Context `{Countable K} {V : Type}.

Lemma fifo_safe_step (f : FIFO.FIFOCache K V) o :
  FIFO.concurrentSafe (FIFO.step f o) = FIFO.concurrentSafe f.
Proof.
  destruct o; simpl; try done.
  - unfold FIFO.Set_. destruct (FIFO.cache f !! key); [done|].
    by destruct (FIFO.overflow f).
  - unfold FIFO.Delete. by destruct (FIFO.cache f !! key).
Qed.

Lemma fifo_safe_run ops (f : FIFO.FIFOCache K V) :
  FIFO.concurrentSafe (FIFO.run ops f) = FIFO.concurrentSafe f.
Proof.
  revert f. induction ops as [|o ops IH]; intros f; [done|].
  unfold FIFO.run in *. simpl. by rewrite IH, fifo_safe_step.
Qed.

Lemma lru_safe_step (l : LRU.LRUCache K V) o :
  LRU.concurrentSafe (LRU.step l o) = LRU.concurrentSafe l.
Proof.
  destruct o; simpl; try done.
  - unfold LRU.Get. by destruct (LRU.cache l !! k).
  - unfold LRU.Set_. destruct (LRU.cache l !! k); [done|].
    by destruct (LRU.overflow l).
  - unfold LRU.Delete. by destruct (LRU.cache l !! k).
Qed.

Lemma lru_safe_run ops (l : LRU.LRUCache K V) :
  LRU.concurrentSafe (LRU.run ops l) = LRU.concurrentSafe l.
Proof.
  revert l. induction ops as [|o ops IH]; intros l; [done|].
  unfold LRU.run in *. simpl. by rewrite IH, lru_safe_step.
Qed.
End extra_options.

(** X14. The concurrency flag of the list-based FIFO cache and of
    the LRU cache. A cache built without options has the flag set; when
    options are given the last one decides, whatever came before it; and no
    sequence of operations changes the flag or the capacity the cache was
    built with. *)
Theorem concurrent_safe_option `{Countable K} {V : Type} (C : Z)
    (opts : list FIFO.Option) (lopts : list LRU.LRUOption) (b : bool)
    (f : FIFO.FIFOCache K V) (l : LRU.LRUCache K V) :
  FIFO.NewFIFOCache C (opts ++ [FIFO.WithConcurrentSafe b]) = inl f →
  LRU.NewLRUCache C (lopts ++ [LRU.WithLRUConcurrentSafe b]) = inl l →
  (∃ f0 : FIFO.FIFOCache K V,
     FIFO.NewFIFOCache C [] = inl f0 ∧
     ∀ ops, FIFO.concurrentSafe (FIFO.run ops f0) = true) ∧
  (∃ l0 : LRU.LRUCache K V,
     LRU.NewLRUCache C [] = inl l0 ∧
     ∀ ops, LRU.concurrentSafe (LRU.run ops l0) = true) ∧
  (∀ ops, FIFO.concurrentSafe (FIFO.run ops f) = b ∧
          FIFO.capacity (FIFO.run ops f) = C) ∧
  (∀ ops, LRU.concurrentSafe (LRU.run ops l) = b ∧
          LRU.capacity (LRU.run ops l) = C).
Proof.
  unfold FIFO.NewFIFOCache, LRU.NewLRUCache.
  destruct (decide (C ≤ 0)) as [|Hpos]; [done|].
  rewrite !foldl_app. simpl. intros [= <-] [= <-]. split_and!.
  - eexists. split; [done|]. intros ops. by rewrite fifo_safe_run.
  - eexists. split; [done|]. intros ops. by rewrite lru_safe_run.
  - intros ops. by rewrite fifo_safe_run, fifo_capacity_run.
  - intros ops. by rewrite lru_safe_run, lru_capacity_run.
Qed.

(** X14 with the flag first set and then cleared. *)
Lemma concurrent_safe_option_witness :
  let f := FIFO.mkFIFO (K:=Z) (V:=Z) ∅ CList.New 2 false in
  let l := LRU.mkLRU (K:=Z) (V:=Z) ∅ CList.New 2 false in
  FIFO.concurrentSafe (FIFO.run [FIFO.OSet 1 10; FIFO.OClear] f) = false ∧
  LRU.concurrentSafe (LRU.run [LRU.OSet 1 10; LRU.OGet 1] l) = false.
Proof.
  intros f l.
  assert (Hf : FIFO.NewFIFOCache 2
            ([FIFO.WithConcurrentSafe true] ++ [FIFO.WithConcurrentSafe false]) = inl f)
    by reflexivity.
  assert (Hl : LRU.NewLRUCache 2
            ([LRU.WithLRUConcurrentSafe true] ++ [LRU.WithLRUConcurrentSafe false]) = inl l)
    by reflexivity.
  destruct (concurrent_safe_option 2 _ _ false f l Hf Hl) as (_ & _ & Hfo & Hlo).
  split; [apply Hfo|apply Hlo].
Defined.
